(** * Checkers: a shallow embedding of the rules engine

    The development follows the Python sources file by file:
    [constants.py], [piece.py], [cell.py], [move.py], [turn.py] and
    [gamestate.py].  The turtle front end of [board.py] is not modelled,
    except for the order in which it drives the engine, which is quoted
    where an invariant depends on it.

    Conventions.
    - Coordinates, scores and the [step] counter are Python ints, here [Z].
    - A Python exception is a value of [exn]; a method that can raise
      returns a [result].
    - A list index goes through [py_index], which has Python's
      behaviour for negative and out-of-range indices.
    - A dict keyed by locations is an association list in insertion order.
    - The grid [status] is the store of the [Cell] objects.  They are
      allocated once by [new_game] and never replaced, so a reference to
      a [Cell] (the [capturing] attribute of a [Move]) is represented by
      the grid index of that cell, and a write through the reference is
      a write to the grid. *)

From Stdlib Require Import ZArith List Bool Lia Permutation.
Import ListNotations.
Open Scope Z_scope.

(** ** Exceptions *)

Inductive exn : Type :=
| IndexError
| KeyError
| AttributeError
| ValueError.

Inductive result (A : Type) : Type :=
| Ok (a : A)
| Raise (e : exn).

Arguments Ok {A} a.
Arguments Raise {A} e.

Definition bind {A B : Type} (m : result A) (k : A -> result B) : result B :=
  match m with
  | Ok a => k a
  | Raise e => Raise e
  end.

Notation "x <- m ;; k" := (bind m (fun x => k))
  (at level 61, m at next level, right associativity).

(** A [for] loop whose body may raise: the state is threaded through the
    elements from left to right and the first exception ends the loop. *)
Fixpoint for_each {A S : Type} (body : S -> A -> result S) (l : list A) (s : S)
  : result S :=
  match l with
  | [] => Ok s
  | a :: l' => s' <- body s a ;; for_each body l' s'
  end.

(** ** Python sequences *)

Definition len {A : Type} (l : list A) : Z := Z.of_nat (length l).

(** [range(n)] *)
Definition range (n : Z) : list Z := map Z.of_nat (seq 0 (Z.to_nat n)).

(** The position an index [i] denotes in a sequence of length [n]:
    negative indices count from the end. *)
Definition py_norm (n i : Z) : option nat :=
  let j := if i <? 0 then i + n else i in
  if (0 <=? j) && (j <? n) then Some (Z.to_nat j) else None.

(** [l[i]] *)
Definition py_index {A : Type} (l : list A) (i : Z) : result A :=
  match py_norm (len l) i with
  | Some j =>
      match nth_error l j with
      | Some a => Ok a
      | None => Raise IndexError
      end
  | None => Raise IndexError
  end.

Fixpoint replace_nth {A : Type} (l : list A) (j : nat) (a : A) : list A :=
  match l, j with
  | [], _ => []
  | _ :: l', O => a :: l'
  | x :: l', S j' => x :: replace_nth l' j' a
  end.

(** [l.insert(0, a)] and [l.append(a)] *)
Definition insert_front {A : Type} (l : list A) (a : A) : list A := a :: l.
Definition append {A : Type} (l : list A) (a : A) : list A := l ++ [a].

(** ** constants.py *)

Inductive Color : Type :=
| BLACK  (* 0, the human *)
| RED.   (* 1 *)

Definition Color_eqb (a b : Color) : bool :=
  match a, b with
  | BLACK, BLACK | RED, RED => true
  | _, _ => false
  end.

Definition Loc : Type := (Z * Z)%type.

Definition Loc_eqb (a b : Loc) : bool :=
  (fst a =? fst b) && (snd a =? snd b).

Definition BLACK_DIRECTIONS : list Loc := [(1, 1); (1, -1)].
Definition RED_DIRECTIONS : list Loc := [(-1, 1); (-1, -1)].
Definition KING_DIRECTIONS : list Loc := [(1, 1); (-1, -1); (1, -1); (-1, 1)].

Definition SIZE : Z := 8.

Definition NEW_TURN : Z := 0.
Definition VALID_PIECE_SELECTED : Z := 1.
Definition CHECK_MULTIPLE_JUMPS : Z := 2.
Definition MOVE_COMPLETE : Z := 3.

(** ** piece.py *)

Record Piece : Type := mkPiece {
  color : Color;
  piece_directions : list Loc;
  is_king : bool
}.

Definition Piece_init (color : Color) (piece_directions : list Loc) : Piece :=
  mkPiece color piece_directions false.

(** [self.color is not player] *)
Definition is_enemy (self : Piece) (player : Color) : bool :=
  negb (Color_eqb (color self) player).

Definition make_king (self : Piece) : Piece :=
  mkPiece (color self) KING_DIRECTIONS true.

(** ** cell.py *)

Record Cell : Type := mkCell {
  playable : bool;
  location : Loc;
  occupant : option Piece
}.

Definition is_empty (self : Cell) : bool :=
  match occupant self with
  | None => true
  | Some _ => false
  end.

Definition contains_piece (self : Cell) (c : Color) : bool :=
  if is_empty self then false
  else match occupant self with
       | Some p => Color_eqb (color p) c
       | None => false
       end.

Definition set_occupant (self : Cell) (o : option Piece) : Cell :=
  mkCell (playable self) (location self) o.

(** Reading an attribute of [cell.occupant] when it is [None]. *)
Definition occupant_attr (self : Cell) : result Piece :=
  match occupant self with
  | Some p => Ok p
  | None => Raise AttributeError
  end.

(** ** move.py *)

(** [capturing] is the captured [Cell] object, held by reference: the
    grid index of that cell. *)
Record Move : Type := mkMove {
  current_loc : Loc;
  new_loc : Loc;
  capturing : option Loc
}.

Definition is_capture (self : Move) : bool :=
  match capturing self with
  | Some _ => true
  | None => false
  end.

(** ** Dicts keyed by locations *)

Definition Dict (V : Type) : Type := list (Loc * V).

Fixpoint dict_find {V : Type} (d : Dict V) (k : Loc) : option V :=
  match d with
  | [] => None
  | (k', v) :: d' => if Loc_eqb k k' then Some v else dict_find d' k
  end.

(** [k in d] *)
Definition dict_mem {V : Type} (d : Dict V) (k : Loc) : bool :=
  match dict_find d k with
  | Some _ => true
  | None => false
  end.

(** [d[k]] *)
Definition dict_get {V : Type} (d : Dict V) (k : Loc) : result V :=
  match dict_find d k with
  | Some v => Ok v
  | None => Raise KeyError
  end.

(** [d[k] = v]: an existing key keeps its place, a new one goes last. *)
Fixpoint dict_set {V : Type} (d : Dict V) (k : Loc) (v : V) : Dict V :=
  match d with
  | [] => [(k, v)]
  | (k', v') :: d' =>
      if Loc_eqb k k' then (k', v) :: d' else (k', v') :: dict_set d' k v
  end.

Definition dict_keys {V : Type} (d : Dict V) : list Loc := map fst d.

Definition Moves : Type := Dict (list Move).

(** ** turn.py *)

Record Turn : Type := mkTurn {
  player : Color;
  step : Z;
  valid_moves : Moves;
  capture_required : bool;
  possible_targets : list Move;
  final_move : option Move
}.

Definition set_step (self : Turn) (s : Z) : Turn :=
  mkTurn (player self) s (valid_moves self) (capture_required self)
         (possible_targets self) (final_move self).

Definition set_capture_required (self : Turn) (b : bool) : Turn :=
  mkTurn (player self) (step self) (valid_moves self) b
         (possible_targets self) (final_move self).

Definition set_possible_targets (self : Turn) (l : list Move) : Turn :=
  mkTurn (player self) (step self) (valid_moves self) (capture_required self)
         l (final_move self).

Definition set_final_move (self : Turn) (m : option Move) : Turn :=
  mkTurn (player self) (step self) (valid_moves self) (capture_required self)
         (possible_targets self) m.

(** The loop of [is_capture_required] over the keys of [valid_moves]. *)
Fixpoint is_capture_required_loop (vm : Moves) (keys : list Loc) : result bool :=
  match keys with
  | [] => Ok false
  | piece :: keys' =>
      moves <- dict_get vm piece ;;
      first <- py_index moves 0 ;;
      if is_capture first then Ok true
      else is_capture_required_loop vm keys'
  end.

Definition is_capture_required (self : Turn) : result bool :=
  is_capture_required_loop (valid_moves self) (dict_keys (valid_moves self)).

Definition Turn_init (player : Color) (valid_moves : Moves) : result Turn :=
  let self := mkTurn player NEW_TURN valid_moves false [] None in
  required <- is_capture_required self ;;
  Ok (set_possible_targets
        (set_final_move (set_capture_required self required) None) []).

Definition is_turn_complete (self : Turn) : bool :=
  step self =? MOVE_COMPLETE.

Definition complete_turn (self : Turn) : Turn :=
  set_step self MOVE_COMPLETE.

Fixpoint find_clicked_target_loop (targets : list Move) (cell_clicked : Loc)
  : option Move :=
  match targets with
  | [] => None
  | target :: targets' =>
      if Loc_eqb cell_clicked (new_loc target) then Some target
      else find_clicked_target_loop targets' cell_clicked
  end.

Definition find_clicked_target (self : Turn) (cell_clicked : Loc) : option Move :=
  find_clicked_target_loop (possible_targets self) cell_clicked.

Definition playable_cell_selected (self : Turn) (cell_clicked : Loc) : bool :=
  if step self =? NEW_TURN then dict_mem (valid_moves self) cell_clicked
  else if negb (is_turn_complete self) then
         match find_clicked_target self cell_clicked with
         | Some _ => true
         | None => false
         end
       else false.

(** [not a or a and b], with Python's short-circuit evaluation. *)
Definition allowed_start_piece (self : Turn) (cell_clicked : Loc) : result bool :=
  required <- is_capture_required self ;;
  if negb required then Ok true
  else
    required' <- is_capture_required self ;;
    if required' then
      moves <- dict_get (valid_moves self) cell_clicked ;;
      first <- py_index moves 0 ;;
      Ok (is_capture first)
    else Ok false.

Definition finish_initial_selection (self : Turn) (start_loc : Loc) : result Turn :=
  let self := set_step self (step self + 1) in
  moves <- dict_get (valid_moves self) start_loc ;;
  Ok (set_possible_targets self moves).

Definition finish_piece_move (self : Turn) (move : Move) : Turn :=
  let self :=
    set_step self (if capture_required self then CHECK_MULTIPLE_JUMPS
                   else MOVE_COMPLETE) in
  set_final_move self (Some move).

(** The second half of [is_valid_turn], from [find_clicked_target] on. *)
Definition is_valid_turn_target (self : Turn) (cell_clicked : Loc)
  : result (bool * Turn) :=
  match find_clicked_target self cell_clicked with
  | Some target =>
      ok <- (if is_capture target then Ok true
             else required <- is_capture_required self ;; Ok (negb required)) ;;
      if ok then Ok (true, finish_piece_move self target)
      else Ok (false, self)
  | None => Ok (false, self)
  end.

Definition is_valid_turn (self : Turn) (cell_clicked : Loc)
  : result (bool * Turn) :=
  if negb (playable_cell_selected self cell_clicked) then Ok (false, self)
  else if step self =? NEW_TURN then
    allowed <- allowed_start_piece self cell_clicked ;;
    if allowed then
      self' <- finish_initial_selection self cell_clicked ;;
      Ok (true, self')
    else is_valid_turn_target self cell_clicked
  else is_valid_turn_target self cell_clicked.

(** The first location whose move list starts with a capture, or [None]. *)
Fixpoint choose_capture_loop (vm : Moves) (keys : list Loc)
  : result (option Loc) :=
  match keys with
  | [] => Ok None
  | location :: keys' =>
      moves <- dict_get vm location ;;
      first <- py_index moves 0 ;;
      if is_capture first then Ok (Some location)
      else choose_capture_loop vm keys'
  end.

(** [choose_ai_cell]; [rnd] is the value drawn by
    [random.randint(0, len(valid_moves) - 1)], which raises on an empty
    range. *)
Definition choose_ai_cell (self : Turn) (rnd : Z)
  : result (option Loc * Turn) :=
  if step self =? NEW_TURN then
    loc <- (if capture_required self
            then choose_capture_loop (valid_moves self)
                                     (dict_keys (valid_moves self))
            else if len (valid_moves self) - 1 <? 0 then Raise ValueError
                 else k <- py_index (dict_keys (valid_moves self)) rnd ;;
                      Ok (Some k)) ;;
    match loc with
    | Some start_loc =>
        self' <- finish_initial_selection self start_loc ;;
        Ok (loc, self')
    | None => Raise KeyError
    end
  else if (step self =? VALID_PIECE_SELECTED)
          || (step self =? CHECK_MULTIPLE_JUMPS) then
    first <- py_index (possible_targets self) 0 ;;
    Ok (Some (new_loc first), finish_piece_move self first)
  else Ok (None, self).

(** ** gamestate.py *)

Definition BLACK_KING_ROW : Z := 7.
Definition RED_KING_ROW : Z := 0.

Definition Status : Type := list (list Cell).

Record Game : Type := mkGame {
  black_score : Z;
  red_score : Z;
  status : Status;
  current_turn : Turn;
  black_possible_moves : Moves;
  red_possible_moves : Moves;
  winner : option Color
}.

Definition set_black_score (self : Game) (n : Z) : Game :=
  mkGame n (red_score self) (status self) (current_turn self)
         (black_possible_moves self) (red_possible_moves self) (winner self).

Definition set_red_score (self : Game) (n : Z) : Game :=
  mkGame (black_score self) n (status self) (current_turn self)
         (black_possible_moves self) (red_possible_moves self) (winner self).

Definition set_status (self : Game) (st : Status) : Game :=
  mkGame (black_score self) (red_score self) st (current_turn self)
         (black_possible_moves self) (red_possible_moves self) (winner self).

Definition set_current_turn (self : Game) (t : Turn) : Game :=
  mkGame (black_score self) (red_score self) (status self) t
         (black_possible_moves self) (red_possible_moves self) (winner self).

Definition set_possible_moves (self : Game) (b r : Moves) : Game :=
  mkGame (black_score self) (red_score self) (status self) (current_turn self)
         b r (winner self).

Definition set_winner (self : Game) (w : option Color) : Game :=
  mkGame (black_score self) (red_score self) (status self) (current_turn self)
         (black_possible_moves self) (red_possible_moves self) w.

(** [self.status[loc[0]][loc[1]]] *)
Definition status_get (st : Status) (loc : Loc) : result Cell :=
  row <- py_index st (fst loc) ;;
  py_index row (snd loc).

(** [self.status[loc[0]][loc[1]].occupant = o]: the cell object found by
    the two index operations is updated in place. *)
Definition status_set_occupant (st : Status) (loc : Loc) (o : option Piece)
  : result Status :=
  match py_norm (len st) (fst loc) with
  | Some i =>
      match nth_error st i with
      | Some row =>
          match py_norm (len row) (snd loc) with
          | Some j =>
              match nth_error row j with
              | Some cell =>
                  Ok (replace_nth st i (replace_nth row j (set_occupant cell o)))
              | None => Raise IndexError
              end
          | None => Raise IndexError
          end
      | None => Raise IndexError
      end
  | None => Raise IndexError
  end.

Definition is_dark (row col : Z) : bool :=
  (row mod 2 =? 0) && (col mod 2 =? 0) || (row mod 2 =? 1) && (col mod 2 =? 1).

Definition get_start_state (row col : Z) : option Piece :=
  let BLACK_START_ROW := 0 in
  let BLACK_END_ROW := 2 in
  let RED_START_ROW := 5 in
  if is_dark row col || (BLACK_END_ROW <? row) && (row <? RED_START_ROW)
  then None
  else if (BLACK_START_ROW <=? row) && (row <=? BLACK_END_ROW)
       then Some (Piece_init BLACK BLACK_DIRECTIONS)
       else Some (Piece_init RED RED_DIRECTIONS).

Definition is_valid_cell (row col : Z) : bool :=
  (0 <=? row) && (row <? SIZE) && (0 <=? col) && (col <? SIZE).

Definition get_next_cell_in_direction (start direction : Loc) : Loc :=
  (fst start + fst direction, snd start + snd direction).

(** The nested loop of [new_game] that fills [self.status]. *)
Definition new_game_cell (st : Status) (row col : Z) : result Status :=
  let st := if col =? 0 then append st [] else st in
  match py_norm (len st) row with
  | Some i =>
      match nth_error st i with
      | Some cells =>
          Ok (replace_nth st i
                (append cells (mkCell (is_dark row col) (row, col)
                                      (get_start_state row col))))
      | None => Raise IndexError
      end
  | None => Raise IndexError
  end.

Definition new_game_status : result Status :=
  for_each (fun st row => for_each (fun st col => new_game_cell st row col)
                                   (range SIZE) st)
           (range SIZE) [].

(** [all_cells_containing_color]: the row-major scan of the grid. *)
Definition all_cells_containing_color (st : Status) (piece_color : Color)
  : result (list Loc) :=
  for_each
    (fun pieces row =>
       cells <- py_index st row ;;
       for_each
         (fun pieces col =>
            cell <- status_get st (row, col) ;;
            if contains_piece cell piece_color
            then Ok (append pieces (row, col))
            else Ok pieces)
         (range (len cells)) pieces)
    (range (len st)) [].

Definition create_move (st : Status) (start next_cell direction : Loc)
           (piece_color : Color) : result (option Move) :=
  if negb (is_valid_cell (fst next_cell) (snd next_cell)) then Ok None
  else
    check_cell <- status_get st next_cell ;;
    if is_empty check_cell then Ok (Some (mkMove start next_cell None))
    else
      enemy <- occupant_attr check_cell ;;
      if is_enemy enemy piece_color then
        let end_loc := get_next_cell_in_direction next_cell direction in
        if is_valid_cell (fst end_loc) (snd end_loc) then
          end_cell <- status_get st end_loc ;;
          if is_empty end_cell
          then Ok (Some (mkMove start end_loc (Some next_cell)))
          else Ok None
        else Ok None
      else Ok None.

(** The body of the loop over [cell.occupant.piece_directions]. *)
Definition get_moves_step (st : Status) (cell : Cell) (piece_color : Color)
           (moves : list Move) (direction : Loc) : result (list Move) :=
  let next_loc := get_next_cell_in_direction (location cell) direction in
  move <- create_move st (location cell) next_loc direction piece_color ;;
  match move with
  | Some move =>
      if is_capture move then Ok (insert_front moves move)
      else Ok (append moves move)
  | None => Ok moves
  end.

Definition get_moves_for_piece (st : Status) (cell_loc : Loc)
           (piece_color : Color) : result (list Move) :=
  cell <- status_get st cell_loc ;;
  piece <- occupant_attr cell ;;
  for_each (get_moves_step st cell piece_color) (piece_directions piece) [].

Definition valid_moves_step (st : Status) (piece_color : Color)
           (possible_moves : Moves) (location : Loc) : result Moves :=
  moves <- get_moves_for_piece st location piece_color ;;
  if len moves >? 0 then Ok (dict_set possible_moves location moves)
  else Ok possible_moves.

Definition valid_moves_for_color (st : Status) (piece_color : Color)
  : result Moves :=
  pieces <- all_cells_containing_color st piece_color ;;
  for_each (valid_moves_step st piece_color) pieces [].

Definition check_game_over (self : Game) : Game :=
  if len (black_possible_moves self) =? 0 then set_winner self (Some RED)
  else if len (red_possible_moves self) =? 0 then set_winner self (Some BLACK)
  else self.

Definition populate_valid_moves (self : Game) : result Game :=
  black <- valid_moves_for_color (status self) BLACK ;;
  red <- valid_moves_for_color (status self) RED ;;
  Ok (check_game_over (set_possible_moves self black red)).

Definition new_game (self : Game) : result Game :=
  st <- new_game_status ;;
  self <- populate_valid_moves (set_status self st) ;;
  turn <- Turn_init BLACK (black_possible_moves self) ;;
  Ok (set_current_turn self turn).

(** The object as [__init__] receives it.  No attribute exists yet; every
    field below is written before it is read. *)
Definition Game_blank : Game :=
  mkGame 0 0 [] (mkTurn BLACK NEW_TURN [] false [] None) [] [] None.

(** [Game.__init__], without the [Board] it hands itself to. *)
Definition Game_init : result Game :=
  self <- new_game Game_blank ;;
  Ok (set_winner (set_red_score (set_black_score self 0) 0) None).

(** The loop of [get_additional_jump] with its [break]. *)
Fixpoint leading_captures (moves possible_capture : list Move) : list Move :=
  match moves with
  | [] => possible_capture
  | move :: moves' =>
      if is_capture move
      then leading_captures moves' (append possible_capture move)
      else possible_capture
  end.

Definition get_additional_jump (self : Game) (start_cell : Cell)
           (piece_color : Color) : result (list Move * Game) :=
  moves <- valid_moves_for_color (status self) piece_color ;;
  possible_capture <-
    (if dict_mem moves (location start_cell)
     then l <- dict_get moves (location start_cell) ;;
          Ok (leading_captures l [])
     else Ok []) ;;
  if len possible_capture =? 0
  then Ok (possible_capture,
           set_current_turn self (complete_turn (current_turn self)))
  else Ok (possible_capture, self).

Definition extend_turn (self : Game) (options : list Move) : Game :=
  let turn := set_final_move (current_turn self) None in
  set_current_turn self (set_possible_targets turn options).

Definition update_state (self : Game) (move : Move) : result Game :=
  new_cell <- status_get (status self) (new_loc move) ;;
  old_cell <- status_get (status self) (current_loc move) ;;
  st <- status_set_occupant (status self) (new_loc move) (occupant old_cell) ;;
  new_cell <- status_get st (new_loc move) ;;
  st <- (if (fst (new_loc move) =? BLACK_KING_ROW) && contains_piece new_cell BLACK
            || (fst (new_loc move) =? RED_KING_ROW) && contains_piece new_cell RED
         then piece <- occupant_attr new_cell ;;
              status_set_occupant st (new_loc move) (Some (make_king piece))
         else Ok st) ;;
  st <- status_set_occupant st (current_loc move) None ;;
  let self := set_status self st in
  match capturing move with
  | Some captured =>
      let self :=
        if Color_eqb (player (current_turn self)) BLACK
        then set_black_score self (black_score self + 1)
        else set_red_score self (red_score self + 1) in
      st <- status_set_occupant (status self) captured None ;;
      Ok (set_status self st)
  | None => Ok self
  end.

Definition advance_turn (self : Game) : result Game :=
  self <- populate_valid_moves self ;;
  if Color_eqb (player (current_turn self)) BLACK
     && (len (red_possible_moves self) >? 0)
  then turn <- Turn_init RED (red_possible_moves self) ;;
       Ok (set_current_turn self turn)
  else if len (black_possible_moves self) >? 0
  then turn <- Turn_init BLACK (black_possible_moves self) ;;
       Ok (set_current_turn self turn)
  else Ok self.

(** ** The calls that reach a [Turn] through the game object

    [board.py] drives the engine with these calls on [self.game_state]
    and on [self.game_state.current_turn]. *)

(** [self.game_state.current_turn.is_valid_turn(location)] *)
Definition game_is_valid_turn (self : Game) (cell_clicked : Loc)
  : result (bool * Game) :=
  r <- is_valid_turn (current_turn self) cell_clicked ;;
  Ok (fst r, set_current_turn self (snd r)).

(** [self.game_state.current_turn.choose_ai_cell()] *)
Definition game_choose_ai_cell (self : Game) (rnd : Z)
  : result (option Loc * Game) :=
  r <- choose_ai_cell (current_turn self) rnd ;;
  Ok (fst r, set_current_turn self (snd r)).

Inductive Call : Type :=
| call_is_valid_turn (cell_clicked : Loc)
| call_choose_ai_cell (rnd : Z)
| call_update_state (move : Move)
| call_get_additional_jump (start_cell : Cell) (piece_color : Color)
| call_extend_turn (options : list Move)
| call_advance_turn.

Definition run (c : Call) (self : Game) : result Game :=
  match c with
  | call_is_valid_turn cell_clicked =>
      r <- game_is_valid_turn self cell_clicked ;; Ok (snd r)
  | call_choose_ai_cell rnd =>
      r <- game_choose_ai_cell self rnd ;; Ok (snd r)
  | call_update_state move => update_state self move
  | call_get_additional_jump start_cell piece_color =>
      r <- get_additional_jump self start_cell piece_color ;; Ok (snd r)
  | call_extend_turn options => Ok (extend_turn self options)
  | call_advance_turn => advance_turn self
  end.

(** ** Invariants and vocabulary of the statements *)

(** The grid as [new_game] lays it out: [SIZE] rows of [SIZE] cells, each
    cell carrying its own index as [location]. *)
Definition row_ok (row : Z) (cells : list Cell) : bool :=
  (len cells =? SIZE)
  && forallb (fun col =>
                match nth_error cells (Z.to_nat col) with
                | Some cell => Loc_eqb (location cell) (row, col)
                | None => false
                end) (range SIZE).

Definition board_ok (st : Status) : bool :=
  (len st =? SIZE)
  && forallb (fun row =>
                match nth_error st (Z.to_nat row) with
                | Some cells => row_ok row cells
                | None => false
                end) (range SIZE).

(** What [Turn.__init__] establishes on the dicts the game hands it, and
    what every later call keeps: no key maps to an empty list, the flag
    [capture_required] is what [is_capture_required] computes, and no
    targets are listed before a piece is selected. *)
Definition Turn_inv (t : Turn) : Prop :=
  Forall (fun kv => snd kv <> []) (valid_moves t)
  /\ is_capture_required t = Ok (capture_required t)
  /\ (step t = NEW_TURN -> possible_targets t = []).

(** Every capturing move stands before every non-capturing one. *)
Definition captures_first (moves : list Move) : Prop :=
  forall i j a b,
    nth_error moves i = Some a -> nth_error moves j = Some b ->
    is_capture a = true -> is_capture b = false -> (i < j)%nat.

Definition on_board (loc : Loc) : bool := is_valid_cell (fst loc) (snd loc).

(** A move that [update_state] can be handed: its cells are grid cells. *)
Definition move_on_board (m : Move) : bool :=
  on_board (current_loc m) && on_board (new_loc m)
  && match capturing m with
     | Some captured => on_board captured
     | None => true
     end.

(** What [create_move] promises of a move it builds for a piece of
    [piece_color] standing on [start]: it leaves from [start], it lands on
    an empty cell of the board, and the cell it captures, if any, is a
    cell of the board that holds an enemy of [piece_color]. *)
Definition move_ok (st : Status) (piece_color : Color) (start : Loc) (m : Move)
  : Prop :=
  current_loc m = start
  /\ on_board (new_loc m) = true
  /\ (exists cell, status_get st (new_loc m) = Ok cell /\ is_empty cell = true)
  /\ (forall captured, capturing m = Some captured ->
        on_board captured = true
        /\ exists cell p, status_get st captured = Ok cell
                          /\ occupant cell = Some p
                          /\ is_enemy p piece_color = true).

(** The shape the loop of [get_moves_for_piece] keeps: captures, put in
    front, then quiet moves, put at the back. *)
Definition captures_then_quiet (moves : list Move) : Prop :=
  exists caps quiet,
    moves = caps ++ quiet
    /\ Forall (fun m => is_capture m = true) caps
    /\ Forall (fun m => is_capture m = false) quiet.

(** What holds of an entry of the dict built by [valid_moves_for_color]. *)
Definition entry_ok (st : Status) (c : Color) (kv : Loc * list Move) : Prop :=
  snd kv <> []
  /\ on_board (fst kv) = true
  /\ captures_then_quiet (snd kv)
  /\ Forall (move_ok st c (fst kv)) (snd kv).

(** When a call completes the turn by the rule: a selection (by click or
    by the automated player) commits a move through [finish_piece_move]
    while [capture_required] is false, or the continuation check of
    [get_additional_jump] finds no capture. *)
Definition completes (c : Call) (self self' : Game) : Prop :=
  match c with
  | call_is_valid_turn _ | call_choose_ai_cell _ =>
      capture_required (current_turn self) = false
      /\ exists move,
           current_turn self' = finish_piece_move (current_turn self) move
  | call_get_additional_jump start_cell piece_color =>
      exists s, get_additional_jump self start_cell piece_color = Ok ([], s)
  | call_update_state _ | call_extend_turn _ | call_advance_turn => False
  end.

(** How [board.py] uses two of the calls: [extend_turn] comes only after
    the committed move of the turn has been applied, when the step is
    past NEW_TURN. *)
Definition admissible (c : Call) (self : Game) : Prop :=
  match c with
  | call_extend_turn _ => step (current_turn self) <> NEW_TURN
  | _ => True
  end.

(** The games a run of the program can be in. *)
Inductive reachable : Game -> Prop :=
| reachable_init (self : Game) :
    Game_init = Ok self -> reachable self
| reachable_call (c : Call) (self self' : Game) :
    reachable self -> admissible c self -> run c self = Ok self' ->
    reachable self'.

Definition opponent (c : Color) : Color :=
  match c with
  | BLACK => RED
  | RED => BLACK
  end.

Definition score (self : Game) (c : Color) : Z :=
  match c with
  | BLACK => black_score self
  | RED => red_score self
  end.

(** ** Positions used in the examples *)

Definition empty_status : Status :=
  map (fun row => map (fun col => mkCell (is_dark row col) (row, col) None)
                      (range SIZE))
      (range SIZE).

Definition put (st : Status) (loc : Loc) (p : Piece) : Status :=
  match status_set_occupant st loc (Some p) with
  | Ok st' => st'
  | Raise _ => st
  end.

Definition black_man : Piece := Piece_init BLACK BLACK_DIRECTIONS.
Definition red_man : Piece := Piece_init RED RED_DIRECTIONS.

(** The start position. *)
Definition start_game : Game :=
  match Game_init with
  | Ok g => g
  | Raise _ => Game_blank
  end.

(** The start position after BLACK has selected the man on (2,1). *)
Definition selected_game : Game :=
  match game_is_valid_turn start_game (2, 1) with
  | Ok (_, g) => g
  | Raise _ => start_game
  end.

(** ... and after BLACK has then clicked the empty cell (3,0). *)
Definition moved_game : Game :=
  match run (call_is_valid_turn (3, 0)) selected_game with
  | Ok g => g
  | Raise _ => selected_game
  end.

(** BLACK at (2,1) can take the RED man at (3,2) and land on (4,3), from
    where the RED man at (5,4) can be taken next; the BLACK man at
    (2,5) has quiet moves only. *)
Definition capture_status : Status :=
  put (put (put (put empty_status (2, 1) black_man) (2, 5) black_man)
           (3, 2) red_man) (5, 4) red_man.

Definition capture_moves : Moves :=
  match valid_moves_for_color capture_status BLACK with
  | Ok d => d
  | Raise _ => []
  end.

Definition capture_turn : Turn :=
  match Turn_init BLACK capture_moves with
  | Ok t => t
  | Raise _ => mkTurn BLACK NEW_TURN [] false [] None
  end.

Definition capture_game : Game :=
  mkGame 0 0 capture_status capture_turn capture_moves [] None.

(** The turn of [capture_game] after the man on (2,1) has been selected,
    and after the jump to (4,3) has then been chosen. *)
Definition capture_turn_selected : Turn :=
  match is_valid_turn capture_turn (2, 1) with
  | Ok (_, t) => t
  | Raise _ => capture_turn
  end.

Definition capture_turn_committed : Turn :=
  match is_valid_turn capture_turn_selected (4, 3) with
  | Ok (_, t) => t
  | Raise _ => capture_turn_selected
  end.

(** Neither side can move: the BLACK men of rows 5 and 6 are stopped by
    their own men and by the board edge behind the RED men of row 7,
    which have no empty square to jump to. *)
Definition blocked_status : Status :=
  fold_left (fun st col => put st (7, col) red_man) [0; 2; 4; 6]
    (fold_left (fun st col => put st (6, col) black_man) [1; 3; 5; 7]
       (fold_left (fun st col => put st (5, col) black_man) [0; 2; 4; 6]
          empty_status)).

Definition blocked_game : Game :=
  mkGame 0 0 blocked_status (mkTurn BLACK NEW_TURN [] false [] None) [] [] None.

(** ** board.py: the event handlers

    Of the front end only the handlers that drive the engine are
    modelled, and of those only what they do to the game object: the
    turtle calls draw and do not write to the game.  The grid lookups made
    for drawing are kept, since they can raise.  A handler returns the
    game together with a flag that says whether it has scheduled
    [ai_move] with [screen.ontimer]. *)

(** [make_move].  Its argument [location] is only passed on to
    [highlight_choice], in the branch where a piece has just been
    selected. *)
Definition make_move (self : Game) : result Game :=
  if step (current_turn self) =? VALID_PIECE_SELECTED then Ok self
  else
    match final_move (current_turn self) with
    | None => Raise AttributeError
    | Some move =>
        self <- update_state self move ;;
        _ <- status_get (status self) (current_loc move) ;;
        _ <- status_get (status self) (new_loc move) ;;
        if is_capture move then
          start_cell <- status_get (status self) (new_loc move) ;;
          r <- get_additional_jump self start_cell
                                   (player (current_turn self)) ;;
          if len (fst r) >? 0 then Ok (extend_turn (snd r) (fst r))
          else Ok (snd r)
        else Ok self
    end.

Definition next_player (self : Game) : result (Game * bool) :=
  self <- advance_turn self ;;
  match winner self with
  | Some _ => Ok (self, false)
  | None => Ok (self, Color_eqb (player (current_turn self)) RED)
  end.

(** [board_click] on a click inside the board; [location] is the cell
    computed from the coordinates of the click. *)
Definition board_click (self : Game) (location : Loc) : result (Game * bool) :=
  if Color_eqb (player (current_turn self)) BLACK then
    r <- game_is_valid_turn self location ;;
    if fst r then
      self <- make_move (snd r) ;;
      if is_turn_complete (current_turn self) then next_player self
      else Ok (self, false)
    else Ok (snd r, false)
  else Ok (self, false).

(** [ai_move]; [rnd] is the random draw of [choose_ai_cell]. *)
Definition ai_move (self : Game) (rnd : Z) : result (Game * bool) :=
  r <- game_choose_ai_cell self rnd ;;
  self <- make_move (snd r) ;;
  if Color_eqb (player (current_turn self)) RED
     && negb (is_turn_complete (current_turn self))
  then Ok (self, true)
  else self <- advance_turn self ;; Ok (self, false).

(** The program between two events: the game, and whether a timer for
    [ai_move] is pending.  It starts from [Game.__init__] with no timer,
    a click runs [board_click], and a pending timer runs [ai_move] with a
    draw that [random.randint(0, len(valid_moves) - 1)] can return. *)
Inductive playing : Game * bool -> Prop :=
| playing_start (self : Game) :
    Game_init = Ok self -> playing (self, false)
| playing_click (self self' : Game) (pending scheduled : bool)
                (location : Loc) :
    playing (self, pending) ->
    board_click self location = Ok (self', scheduled) ->
    playing (self', pending || scheduled)
| playing_timer (self self' : Game) (scheduled : bool) (rnd : Z) :
    playing (self, true) ->
    0 <= rnd <= len (valid_moves (current_turn self)) - 1 ->
    ai_move self rnd = Ok (self', scheduled) ->
    playing (self', scheduled).

(** The number of pieces of a colour on the board. *)
Definition count_color (st : Status) (c : Color) : Z :=
  match all_cells_containing_color st c with
  | Ok pieces => len pieces
  | Raise _ => 0
  end.

(** [cell.contains_piece(c)] for the cell found at [loc]. *)
Definition holds_color (st : Status) (c : Color) (loc : Loc) : bool :=
  match status_get st loc with
  | Ok cell => contains_piece cell c
  | Raise _ => false
  end.

(** The list that the scan of [all_cells_containing_color] builds on an
    8x8 grid. *)
Definition pieces_of (st : Status) (c : Color) : list Loc :=
  flat_map (fun row =>
              flat_map (fun col =>
                          if holds_color st c (row, col) then [(row, col)]
                          else [])
                       (range SIZE))
           (range SIZE).

(** The occupant of the cell found at [loc], if there is such a cell. *)
Definition occ_at (st : Status) (loc : Loc) : option Piece :=
  match status_get st loc with
  | Ok cell => occupant cell
  | Raise _ => None
  end.

(** Each score and the pieces the other colour has left add up to the
    twelve pieces of the start. *)
Definition conserved (self : Game) : Prop :=
  black_score self + count_color (status self) RED = 12
  /\ red_score self + count_color (status self) BLACK = 12.

(** The program after BLACK has clicked the man on (2,1) and then the
    empty cell (3,0): the move is made and RED's reply is scheduled. *)
Definition opening_played : Game * bool :=
  match board_click start_game (2, 1) with
  | Ok (g, _) =>
      match board_click g (3, 0) with
      | Ok r => r
      | Raise _ => (start_game, false)
      end
  | Raise _ => (start_game, false)
  end.

(** ** Vocabulary of the further properties *)

(** The two moves [create_move] can build for a piece on [start] along
    [direction]: one step to the adjacent cell, or two steps over it. *)
Definition quiet_move (start direction : Loc) : Move :=
  mkMove start (get_next_cell_in_direction start direction) None.

Definition jump_move (start direction : Loc) : Move :=
  mkMove start
         (get_next_cell_in_direction
            (get_next_cell_in_direction start direction) direction)
         (Some (get_next_cell_in_direction start direction)).

Definition empty_at (st : Status) (loc : Loc) : Prop :=
  on_board loc = true
  /\ exists cell, status_get st loc = Ok cell /\ is_empty cell = true.

Definition enemy_at (st : Status) (piece_color : Color) (loc : Loc) : Prop :=
  on_board loc = true
  /\ exists cell q, status_get st loc = Ok cell /\ occupant cell = Some q
                    /\ is_enemy q piece_color = true.

(** [m] is the move of draughts along [direction]: a step onto an empty
    adjacent cell, or a jump over an adjacent enemy onto an empty cell. *)
Definition legal_along (st : Status) (piece_color : Color)
           (start direction : Loc) (m : Move) : Prop :=
  (m = quiet_move start direction
   /\ empty_at st (get_next_cell_in_direction start direction))
  \/ (m = jump_move start direction
      /\ enemy_at st piece_color (get_next_cell_in_direction start direction)
      /\ empty_at st (get_next_cell_in_direction
                        (get_next_cell_in_direction start direction)
                        direction)).

(** The test of [update_state] for promotion, on the piece that moves:
    a BLACK piece landing on row 7, a RED piece landing on row 0. *)
Definition reaches_king_row (row : Z) (p : Piece) : bool :=
  (row =? BLACK_KING_ROW) && Color_eqb (color p) BLACK
  || (row =? RED_KING_ROW) && Color_eqb (color p) RED.

(** The piece as it stands on the destination after the move. *)
Definition moved_piece (move : Move) (p : Piece) : Piece :=
  if reaches_king_row (fst (new_loc move)) p then make_king p else p.

(** A turn as [Turn.__init__] leaves it, for player [p] and moves [vm]. *)
Definition fresh_turn (p : Color) (vm : Moves) (t : Turn) : Prop :=
  player t = p /\ step t = NEW_TURN /\ valid_moves t = vm
  /\ possible_targets t = [] /\ final_move t = None
  /\ is_capture_required t = Ok (capture_required t).

(** [m] is a legal move, on the board [st], of a piece of colour [c]. *)
Definition legal_move (st : Status) (c : Color) (m : Move) : Prop :=
  exists loc cell p direction,
    on_board loc = true
    /\ status_get st loc = Ok cell /\ occupant cell = Some p /\ color p = c
    /\ In direction (piece_directions p)
    /\ legal_along st c loc direction m.

(** The targets are exactly the legal jumps of one piece of colour [c]
    on the board. *)
Definition jumps_from (st : Status) (c : Color) (targets : list Move) : Prop :=
  exists loc cell p,
    on_board loc = true
    /\ status_get st loc = Ok cell /\ occupant cell = Some p /\ color p = c
    /\ forall m,
         In m targets
         <-> exists direction,
               In direction (piece_directions p)
               /\ m = jump_move loc direction
               /\ enemy_at st c (get_next_cell_in_direction loc direction)
               /\ empty_at st (get_next_cell_in_direction
                                 (get_next_cell_in_direction loc direction)
                                 direction).

(** How the current turn stands to the current board between two
    events: until a move is committed its [valid_moves] are the moves
    of its player on this board; a selected piece offers the moves of
    one key; an extended turn offers the jumps of one piece. *)
Definition turn_on_board (self : Game) : Prop :=
  (step (current_turn self) = NEW_TURN
   \/ step (current_turn self) = VALID_PIECE_SELECTED ->
   valid_moves_for_color (status self) (player (current_turn self))
   = Ok (valid_moves (current_turn self))
   /\ valid_moves (current_turn self) <> [])
  /\ (step (current_turn self) = VALID_PIECE_SELECTED ->
      exists loc first rest,
        dict_find (valid_moves (current_turn self)) loc = Some (first :: rest)
        /\ possible_targets (current_turn self) = first :: rest
        /\ (capture_required (current_turn self) = true ->
            is_capture first = true))
  /\ (step (current_turn self) = CHECK_MULTIPLE_JUMPS ->
      capture_required (current_turn self) = true
      /\ possible_targets (current_turn self) <> []
      /\ jumps_from (status self) (player (current_turn self))
                    (possible_targets (current_turn self)))
  /\ NEW_TURN <= step (current_turn self) <= MOVE_COMPLETE.

(** What holds between two events. *)
Definition playing_inv (s : Game * bool) : Prop :=
  board_ok (status (fst s)) = true
  /\ Turn_inv (current_turn (fst s))
  /\ conserved (fst s)
  /\ turn_on_board (fst s)
  /\ (snd s = true ->
      player (current_turn (fst s)) = RED
      /\ step (current_turn (fst s)) <> MOVE_COMPLETE).

(** * Properties *)

(** ** The exception monad and loops *)

Lemma bind_Ok {A B : Type} (m : result A) (k : A -> result B) (b : B) :
  bind m k = Ok b -> exists a, m = Ok a /\ k a = Ok b.
Proof.
  destruct m as [a | e]; simpl; intros H.
  - exists a. split; [reflexivity | exact H].
  - discriminate H.
Qed.

(** Undo the binds of a hypothesis, one call at a time. *)
Ltac unbind H :=
  let a := fresh "v" in
  let Ha := fresh "E" in
  apply bind_Ok in H; destruct H as (a & Ha & H).

(** Total correctness of a loop: an invariant that holds at entry, and
    that every iteration keeps without raising, holds at exit. *)
Lemma for_each_total {A S : Type} (P : S -> Prop) (body : S -> A -> result S)
      (l : list A) :
  (forall s a, In a l -> P s -> exists s', body s a = Ok s' /\ P s') ->
  forall s, P s -> exists s', for_each body l s = Ok s' /\ P s'.
Proof.
  induction l as [| a l IH]; intros Hbody s Hs; simpl.
  - exists s. split; [reflexivity | exact Hs].
  - destruct (Hbody s a (or_introl eq_refl) Hs) as (s1 & E1 & H1).
    rewrite E1. simpl. apply IH; [| exact H1].
    intros s2 b Hb. apply Hbody. right. exact Hb.
Qed.

(** ** Sequences *)

Lemma In_range (n i : Z) : In i (range n) <-> 0 <= i < n.
Proof.
  unfold range. rewrite in_map_iff. split.
  - intros (k & <- & Hk). apply in_seq in Hk. lia.
  - intros Hi. exists (Z.to_nat i). split; [lia |]. apply in_seq. lia.
Qed.

Lemma py_norm_nonneg (n i : Z) :
  0 <= i -> py_norm n i = if i <? n then Some (Z.to_nat i) else None.
Proof.
  intros Hi. unfold py_norm.
  destruct (i <? 0) eqn:E; [apply Z.ltb_lt in E; lia |].
  destruct (0 <=? i) eqn:E0; [reflexivity | apply Z.leb_gt in E0; lia].
Qed.

Lemma py_index_nonneg {A : Type} (l : list A) (i : Z) :
  0 <= i ->
  py_index l i = match nth_error l (Z.to_nat i) with
                 | Some a => Ok a
                 | None => Raise IndexError
                 end.
Proof.
  intros Hi. unfold py_index. rewrite py_norm_nonneg by exact Hi.
  destruct (i <? len l) eqn:E; [reflexivity |].
  apply Z.ltb_ge in E. unfold len in E.
  assert (Hn : nth_error l (Z.to_nat i) = None) by (apply nth_error_None; lia).
  rewrite Hn. reflexivity.
Qed.

Lemma py_index_0 {A : Type} (l : list A) :
  py_index l 0 = match l with
                 | a :: _ => Ok a
                 | [] => Raise IndexError
                 end.
Proof.
  rewrite py_index_nonneg by lia. destruct l; reflexivity.
Qed.

Lemma length_replace_nth {A : Type} (l : list A) (j : nat) (a : A) :
  length (replace_nth l j a) = length l.
Proof.
  revert j. induction l as [| x l IH]; intros [| j]; simpl; auto.
Qed.

Lemma nth_error_replace_nth_eq {A : Type} (l : list A) (j : nat) (a x : A) :
  nth_error l j = Some x -> nth_error (replace_nth l j a) j = Some a.
Proof.
  revert j. induction l as [| y l IH]; intros [| j]; simpl; try discriminate; auto.
Qed.

Lemma nth_error_replace_nth_neq {A : Type} (l : list A) (i j : nat) (a : A) :
  i <> j -> nth_error (replace_nth l j a) i = nth_error l i.
Proof.
  revert i j. induction l as [| y l IH]; intros [| i] [| j] Hij; simpl;
    try reflexivity; try congruence.
  apply IH. congruence.
Qed.

Lemma Loc_eqb_eq (a b : Loc) : Loc_eqb a b = true <-> a = b.
Proof.
  destruct a as [a1 a2], b as [b1 b2]. unfold Loc_eqb. simpl.
  rewrite andb_true_iff, !Z.eqb_eq. split.
  - intros [-> ->]. reflexivity.
  - intros [= -> ->]. split; reflexivity.
Qed.

Lemma Loc_eqb_refl (a : Loc) : Loc_eqb a a = true.
Proof. apply Loc_eqb_eq. reflexivity. Qed.

Lemma Color_eqb_eq (a b : Color) : Color_eqb a b = true <-> a = b.
Proof. destruct a, b; simpl; split; congruence. Qed.

(** ** Dicts *)

Lemma dict_find_In {V : Type} (d : Dict V) (k : Loc) (v : V) :
  dict_find d k = Some v -> In (k, v) d.
Proof.
  induction d as [| [k' v'] d IH]; simpl; [discriminate |].
  destruct (Loc_eqb k k') eqn:E.
  - apply Loc_eqb_eq in E. subst k'. intros [= ->]. left. reflexivity.
  - intros H. right. apply IH. exact H.
Qed.

Lemma In_dict_find {V : Type} (d : Dict V) (k : Loc) (v : V) :
  In (k, v) d -> exists v', dict_find d k = Some v'.
Proof.
  induction d as [| [k' v'] d IH]; simpl; [intros [] |].
  intros [H | H].
  - injection H as -> ->. rewrite Loc_eqb_refl. eauto.
  - destruct (Loc_eqb k k'); eauto.
Qed.

Lemma In_dict_set {V : Type} (d : Dict V) (k k0 : Loc) (v v0 : V) :
  In (k, v) (dict_set d k0 v0) -> (k = k0 /\ v = v0) \/ In (k, v) d.
Proof.
  induction d as [| [k' v'] d IH]; simpl.
  - intros [[= <- <-] | []]. left. split; reflexivity.
  - destruct (Loc_eqb k0 k') eqn:E; simpl.
    + apply Loc_eqb_eq in E. subst k'.
      intros [[= <- <-] | H]; [left; split; reflexivity | right; right; exact H].
    + intros [H | H]; [right; left; exact H |].
      destruct (IH H) as [H1 | H1]; [left; exact H1 | right; right; exact H1].
Qed.

(** ** The grid *)

Lemma board_ok_len (st : Status) : board_ok st = true -> len st = SIZE.
Proof.
  unfold board_ok. intros H. apply andb_prop in H. destruct H as [H _].
  apply Z.eqb_eq in H. exact H.
Qed.

Lemma board_ok_row (st : Status) (r : Z) :
  board_ok st = true -> 0 <= r < SIZE ->
  exists cells, nth_error st (Z.to_nat r) = Some cells /\ row_ok r cells = true.
Proof.
  unfold board_ok. intros H Hr. apply andb_prop in H. destruct H as [_ H].
  rewrite forallb_forall in H. specialize (H r (proj2 (In_range SIZE r) Hr)).
  destruct (nth_error st (Z.to_nat r)) as [cells |]; [| discriminate].
  exists cells. split; [reflexivity | exact H].
Qed.

Lemma row_ok_cell (cells : list Cell) (r c : Z) :
  row_ok r cells = true -> 0 <= c < SIZE ->
  exists cell, nth_error cells (Z.to_nat c) = Some cell /\ location cell = (r, c).
Proof.
  unfold row_ok. intros H Hc. apply andb_prop in H. destruct H as [_ H].
  rewrite forallb_forall in H. specialize (H c (proj2 (In_range SIZE c) Hc)).
  destruct (nth_error cells (Z.to_nat c)) as [cell |]; [| discriminate].
  exists cell. split; [reflexivity | apply Loc_eqb_eq; exact H].
Qed.

Lemma row_ok_len (cells : list Cell) (r : Z) :
  row_ok r cells = true -> len cells = SIZE.
Proof.
  unfold row_ok. intros H. apply andb_prop in H. destruct H as [H _].
  apply Z.eqb_eq in H. exact H.
Qed.

Lemma on_board_bounds (loc : Loc) :
  on_board loc = true <-> (0 <= fst loc < SIZE /\ 0 <= snd loc < SIZE).
Proof.
  unfold on_board, is_valid_cell.
  rewrite !andb_true_iff, !Z.leb_le, !Z.ltb_lt. lia.
Qed.

(** On the grid, indexing never raises and finds the cell of that index. *)
Lemma status_get_on_board (st : Status) (loc : Loc) :
  board_ok st = true -> on_board loc = true ->
  exists cell, status_get st loc = Ok cell /\ location cell = loc.
Proof.
  intros Hst Hloc. apply on_board_bounds in Hloc. destruct Hloc as [Hr Hc].
  destruct loc as [r c]. simpl in Hr, Hc.
  destruct (board_ok_row st r Hst Hr) as (cells & Ecells & Hcells).
  destruct (row_ok_cell cells r c Hcells Hc) as (cell & Ecell & Hcell).
  exists cell. split; [| exact Hcell].
  unfold status_get. simpl.
  rewrite py_index_nonneg by lia. rewrite Ecells. simpl.
  rewrite py_index_nonneg by lia. rewrite Ecell. reflexivity.
Qed.

Lemma contains_piece_occupant (cell : Cell) (c : Color) :
  contains_piece cell c = true ->
  exists p, occupant cell = Some p /\ color p = c.
Proof.
  unfold contains_piece, is_empty.
  destruct (occupant cell) as [p |]; [| discriminate].
  intros H. exists p. split; [reflexivity | apply Color_eqb_eq; exact H].
Qed.

(** The scan of the grid returns cells of the board that hold a piece of
    the colour asked for. *)
Lemma all_cells_containing_color_total (st : Status) (c : Color) :
  board_ok st = true ->
  exists pieces,
    all_cells_containing_color st c = Ok pieces
    /\ Forall (fun loc => on_board loc = true
                          /\ exists cell, status_get st loc = Ok cell
                                          /\ location cell = loc
                                          /\ contains_piece cell c = true)
              pieces.
Proof.
  intros Hst. unfold all_cells_containing_color.
  apply for_each_total; [| constructor].
  intros pieces row Hrow Hpieces.
  rewrite (board_ok_len st Hst) in Hrow. apply In_range in Hrow.
  destruct (board_ok_row st row Hst Hrow) as (cells & Ecells & Hcells).
  rewrite py_index_nonneg by lia. rewrite Ecells. simpl.
  apply for_each_total; [| exact Hpieces].
  intros pieces' col Hcol Hpieces'.
  rewrite (row_ok_len cells row Hcells) in Hcol. apply In_range in Hcol.
  assert (Hon : on_board (row, col) = true)
    by (apply on_board_bounds; simpl; lia).
  destruct (status_get_on_board st (row, col) Hst Hon) as (cell & Ecell & Hcell).
  rewrite Ecell. simpl.
  destruct (contains_piece cell c) eqn:Epiece.
  - eexists. split; [reflexivity |]. unfold append.
    apply Forall_app. split; [exact Hpieces' |].
    constructor; [| constructor]. split; [exact Hon |]. exists cell. auto.
  - eexists. split; [reflexivity | exact Hpieces'].
Qed.

(** ** The move generator *)

Lemma create_move_total (st : Status) (start next_cell direction : Loc)
      (c : Color) :
  board_ok st = true ->
  exists r,
    create_move st start next_cell direction c = Ok r
    /\ forall m, r = Some m -> move_ok st c start m.
Proof.
  intros Hst. unfold create_move.
  destruct (is_valid_cell (fst next_cell) (snd next_cell)) eqn:Enext; cbn [negb].
  2: { exists None. split; [reflexivity | discriminate]. }
  destruct (status_get_on_board st next_cell Hst Enext) as (cell & Ecell & _).
  rewrite Ecell. cbn [bind].
  destruct (is_empty cell) eqn:Eempty.
  { eexists. split; [reflexivity |]. intros m [= <-].
    unfold move_ok. simpl. split; [reflexivity |]. split; [exact Enext |].
    split; [exists cell; auto |]. intros captured H. discriminate H. }
  unfold occupant_attr. unfold is_empty in Eempty.
  destruct (occupant cell) as [p |] eqn:Eocc; [| discriminate]. cbn [bind].
  destruct (is_enemy p c) eqn:Eenemy.
  2: { exists None. split; [reflexivity | discriminate]. }
  cbv zeta. set (end_loc := get_next_cell_in_direction next_cell direction).
  destruct (is_valid_cell (fst end_loc) (snd end_loc)) eqn:Eend.
  2: { exists None. split; [reflexivity | discriminate]. }
  destruct (status_get_on_board st end_loc Hst Eend) as (cell2 & Ecell2 & _).
  rewrite Ecell2. cbn [bind].
  destruct (is_empty cell2) eqn:Eempty2.
  2: { exists None. split; [reflexivity | discriminate]. }
  eexists. split; [reflexivity |]. intros m [= <-].
  unfold move_ok. simpl. split; [reflexivity |]. split; [exact Eend |].
  split; [exists cell2; auto |]. intros captured [= <-].
  split; [exact Enext |]. exists cell, p. auto.
Qed.

Lemma captures_then_quiet_first (moves : list Move) :
  captures_then_quiet moves -> captures_first moves.
Proof.
  intros (caps & quiet & -> & Hcaps & Hquiet) i j a b Ha Hb Ea Eb.
  rewrite Forall_forall in Hcaps, Hquiet.
  assert (Hi : (i < length caps)%nat).
  { destruct (Nat.lt_ge_cases i (length caps)) as [Hlt | Hge]; [exact Hlt |].
    rewrite nth_error_app2 in Ha by exact Hge.
    apply nth_error_In in Ha. apply Hquiet in Ha. congruence. }
  assert (Hj : (length caps <= j)%nat).
  { destruct (Nat.lt_ge_cases j (length caps)) as [Hlt | Hge]; [| exact Hge].
    rewrite nth_error_app1 in Hb by exact Hlt.
    apply nth_error_In in Hb. apply Hcaps in Hb. congruence. }
  lia.
Qed.

Lemma get_moves_step_total (st : Status) (cell : Cell) (c : Color)
      (moves : list Move) (direction : Loc) :
  board_ok st = true ->
  captures_then_quiet moves /\ Forall (move_ok st c (location cell)) moves ->
  exists moves',
    get_moves_step st cell c moves direction = Ok moves'
    /\ captures_then_quiet moves'
    /\ Forall (move_ok st c (location cell)) moves'.
Proof.
  intros Hst [(caps & quiet & -> & Hcaps & Hquiet) Hok]. unfold get_moves_step.
  destruct (create_move_total st (location cell)
              (get_next_cell_in_direction (location cell) direction)
              direction c Hst) as (r & Er & Hr).
  rewrite Er. simpl. destruct r as [m |].
  - specialize (Hr m eq_refl). destruct (is_capture m) eqn:Em.
    + eexists. split; [reflexivity |]. split.
      * exists (m :: caps), quiet. split; [reflexivity |].
        split; [constructor; assumption | assumption].
      * unfold insert_front. constructor; assumption.
    + eexists. split; [reflexivity |]. split.
      * exists caps, (quiet ++ [m]). unfold append.
        split; [rewrite app_assoc; reflexivity |].
        split; [assumption |]. apply Forall_app. split; [assumption |].
        constructor; [exact Em | constructor].
      * unfold append. apply Forall_app. split; [assumption |].
        constructor; [exact Hr | constructor].
  - eexists. split; [reflexivity |]. split; [| assumption].
    exists caps, quiet. auto.
Qed.

Lemma get_moves_for_piece_total (st : Status) (loc : Loc) (c : Color)
      (cell : Cell) (p : Piece) :
  board_ok st = true ->
  status_get st loc = Ok cell -> occupant cell = Some p ->
  exists moves,
    get_moves_for_piece st loc c = Ok moves
    /\ captures_then_quiet moves
    /\ Forall (move_ok st c (location cell)) moves.
Proof.
  intros Hst Ecell Eocc. unfold get_moves_for_piece.
  rewrite Ecell. simpl. unfold occupant_attr. rewrite Eocc. simpl.
  apply (for_each_total
           (fun moves => captures_then_quiet moves
                         /\ Forall (move_ok st c (location cell)) moves)).
  - intros moves direction _ Hmoves.
    apply get_moves_step_total; assumption.
  - split; [| constructor]. exists [], []. repeat split; constructor.
Qed.

Lemma valid_moves_step_total (st : Status) (c : Color) (d : Moves) (loc : Loc) :
  board_ok st = true ->
  on_board loc = true ->
  (exists cell, status_get st loc = Ok cell /\ location cell = loc
                /\ contains_piece cell c = true) ->
  Forall (entry_ok st c) d ->
  exists d', valid_moves_step st c d loc = Ok d' /\ Forall (entry_ok st c) d'.
Proof.
  intros Hst Hon (cell & Ecell & Hloc & Hpiece) Hd.
  destruct (contains_piece_occupant cell c Hpiece) as (p & Eocc & _).
  destruct (get_moves_for_piece_total st loc c cell p Hst Ecell Eocc)
    as (moves & Emoves & Hshape & Hmoves).
  unfold valid_moves_step. rewrite Emoves. cbn [bind].
  destruct (len moves >? 0) eqn:Elen.
  - eexists. split; [reflexivity |].
    apply Forall_forall. intros [k v] Hkv.
    apply In_dict_set in Hkv. destruct Hkv as [[-> ->] | Hkv].
    + unfold entry_ok. simpl. rewrite Hloc in Hmoves.
      repeat split; try assumption.
      intros ->. discriminate Elen.
    + rewrite Forall_forall in Hd. apply Hd. exact Hkv.
  - eexists. split; [reflexivity | exact Hd].
Qed.

(** On the grid the move generator never raises, and every entry of its
    dict is a non-empty list of moves of the piece at the key. *)
Lemma valid_moves_for_color_total (st : Status) (c : Color) :
  board_ok st = true ->
  exists d, valid_moves_for_color st c = Ok d /\ Forall (entry_ok st c) d.
Proof.
  intros Hst. unfold valid_moves_for_color.
  destruct (all_cells_containing_color_total st c Hst) as (pieces & E & Hpieces).
  rewrite E. cbn [bind].
  apply for_each_total; [| constructor].
  intros d loc Hloc Hd. rewrite Forall_forall in Hpieces.
  destruct (Hpieces loc Hloc) as [Hon Hcell].
  apply valid_moves_step_total; assumption.
Qed.

(** C2.  On every board, for every location that holds a piece,
    [get_moves_for_piece] returns a list in which every capturing move
    stands before every non-capturing move. *)
Theorem get_moves_for_piece_captures_first
        (st : Status) (loc : Loc) (c : Color) (cell : Cell) (p : Piece) :
  board_ok st = true ->
  status_get st loc = Ok cell -> occupant cell = Some p ->
  exists moves,
    get_moves_for_piece st loc c = Ok moves /\ captures_first moves.
Proof.
  intros Hst Ecell Eocc.
  destruct (get_moves_for_piece_total st loc c cell p Hst Ecell Eocc)
    as (moves & E & Hshape & _).
  exists moves. split; [exact E |].
  apply captures_then_quiet_first. exact Hshape.
Qed.

Lemma get_moves_for_piece_captures_first_witness :
  board_ok capture_status = true
  /\ status_get capture_status (2, 1) = Ok (mkCell false (2, 1) (Some black_man))
  /\ exists moves,
       get_moves_for_piece capture_status (2, 1) BLACK = Ok moves
       /\ captures_first moves.
Proof.
  split; [reflexivity |]. split; [reflexivity |].
  apply (get_moves_for_piece_captures_first capture_status (2, 1) BLACK
           (mkCell false (2, 1) (Some black_man)) black_man);
    reflexivity.
Defined.

(** C3.  On every board and for either colour, every move returned by
    [valid_moves_for_color] lands on a cell of the 8x8 board that is
    empty, and the cell a capturing move captures holds an enemy of the
    moving colour. *)
Theorem valid_moves_for_color_sound (st : Status) (c : Color) :
  board_ok st = true ->
  exists d,
    valid_moves_for_color st c = Ok d
    /\ forall loc moves m,
         In (loc, moves) d -> In m moves ->
         is_valid_cell (fst (new_loc m)) (snd (new_loc m)) = true
         /\ (exists cell, status_get st (new_loc m) = Ok cell
                          /\ is_empty cell = true)
         /\ (forall captured, capturing m = Some captured ->
               exists cell p, status_get st captured = Ok cell
                              /\ occupant cell = Some p
                              /\ is_enemy p c = true).
Proof.
  intros Hst.
  destruct (valid_moves_for_color_total st c Hst) as (d & E & Hd).
  exists d. split; [exact E |].
  intros loc moves m Hentry Hm.
  rewrite Forall_forall in Hd. destruct (Hd _ Hentry) as (_ & _ & _ & Hmoves).
  rewrite Forall_forall in Hmoves.
  destruct (Hmoves m Hm) as (_ & Hnew & Hempty & Hcap).
  split; [exact Hnew |]. split; [exact Hempty |].
  intros captured Ecap. destruct (Hcap captured Ecap) as [_ H]. exact H.
Qed.

Lemma valid_moves_for_color_sound_witness :
  board_ok capture_status = true
  /\ exists d,
       valid_moves_for_color capture_status BLACK = Ok d
       /\ forall loc moves m,
            In (loc, moves) d -> In m moves ->
            is_valid_cell (fst (new_loc m)) (snd (new_loc m)) = true
            /\ (exists cell, status_get capture_status (new_loc m) = Ok cell
                             /\ is_empty cell = true)
            /\ (forall captured, capturing m = Some captured ->
                  exists cell p, status_get capture_status captured = Ok cell
                                 /\ occupant cell = Some p
                                 /\ is_enemy p BLACK = true).
Proof.
  split; [reflexivity |].
  apply (valid_moves_for_color_sound capture_status BLACK). reflexivity.
Defined.

(** ** Continuation after a capture *)

Lemma leading_captures_spec (loc : Loc) (l acc : list Move) :
  Forall (fun m => current_loc m = loc) l ->
  Forall (fun m => is_capture m = true /\ current_loc m = loc) acc ->
  Forall (fun m => is_capture m = true /\ current_loc m = loc)
         (leading_captures l acc).
Proof.
  revert acc. induction l as [| m l IH]; intros acc Hl Hacc; simpl.
  - exact Hacc.
  - apply Forall_cons_iff in Hl. destruct Hl as [Hm Hl'].
    destruct (is_capture m) eqn:Em; [| exact Hacc].
    apply IH; [exact Hl' |]. unfold append. apply Forall_app.
    split; [exact Hacc |]. constructor; [split; [exact Em | exact Hm] | constructor].
Qed.

(** C7.  On every board, every move in the list that
    [get_additional_jump] returns for a cell is a capturing move that
    starts at the location of that cell. *)
Theorem get_additional_jump_captures_from_cell
        (self : Game) (start_cell : Cell) (piece_color : Color) :
  board_ok (status self) = true ->
  exists possible_capture self',
    get_additional_jump self start_cell piece_color
    = Ok (possible_capture, self')
    /\ Forall (fun m => is_capture m = true
                        /\ current_loc m = location start_cell)
              possible_capture.
Proof.
  intros Hst. unfold get_additional_jump.
  destruct (valid_moves_for_color_total (status self) piece_color Hst)
    as (d & E & Hd).
  rewrite E. cbn [bind].
  assert (Hcaps : exists caps,
             (if dict_mem d (location start_cell)
              then l <- dict_get d (location start_cell) ;;
                   Ok (leading_captures l [])
              else Ok []) = Ok caps
             /\ Forall (fun m => is_capture m = true
                                 /\ current_loc m = location start_cell) caps).
  { unfold dict_mem, dict_get.
    destruct (dict_find d (location start_cell)) as [l |] eqn:El.
    - cbn [bind]. eexists. split; [reflexivity |].
      apply leading_captures_spec; [| constructor].
      apply dict_find_In in El. rewrite Forall_forall in Hd.
      destruct (Hd _ El) as (_ & _ & _ & Hmoves). simpl in Hmoves.
      eapply Forall_impl; [| exact Hmoves].
      intros m Hm. destruct Hm as [Hm _]. exact Hm.
    - eexists. split; [reflexivity | constructor]. }
  destruct Hcaps as (caps & Ecaps & Hcaps). rewrite Ecaps. cbn [bind].
  destruct (len caps =? 0); eexists; eexists; (split; [reflexivity | exact Hcaps]).
Qed.

Lemma get_additional_jump_captures_from_cell_witness :
  board_ok (status capture_game) = true
  /\ exists possible_capture self',
       get_additional_jump capture_game
         (mkCell false (2, 1) (Some black_man)) BLACK
       = Ok (possible_capture, self')
       /\ Forall (fun m => is_capture m = true /\ current_loc m = (2, 1))
                 possible_capture.
Proof.
  split; [reflexivity |].
  apply (get_additional_jump_captures_from_cell capture_game
           (mkCell false (2, 1) (Some black_man)) BLACK).
  reflexivity.
Defined.

(** ** Game over *)

(** C6 as stated does not hold: when neither colour can move, the
    winner is RED although RED's mapping is empty. *)
Lemma populate_valid_moves_both_empty :
  ~ (forall self self',
        populate_valid_moves self = Ok self' ->
        (len (black_possible_moves self') = 0 -> winner self' = Some RED)
        /\ (len (red_possible_moves self') = 0 -> winner self' = Some BLACK)).
Proof.
  intros H.
  destruct (H blocked_game
              (check_game_over (set_possible_moves blocked_game [] []))
              eq_refl) as [_ Hred].
  specialize (Hred eq_refl). discriminate Hred.
Qed.

(** C6, amended.  After [populate_valid_moves], if BLACK's mapping is
    empty the winner is RED (also when RED's is empty too), and if RED's
    mapping is empty while BLACK's is not, the winner is BLACK. *)
Theorem populate_valid_moves_winner (self : Game) :
  board_ok (status self) = true ->
  exists self',
    populate_valid_moves self = Ok self'
    /\ valid_moves_for_color (status self) BLACK
       = Ok (black_possible_moves self')
    /\ valid_moves_for_color (status self) RED
       = Ok (red_possible_moves self')
    /\ (len (black_possible_moves self') = 0 -> winner self' = Some RED)
    /\ (len (black_possible_moves self') <> 0 ->
        len (red_possible_moves self') = 0 -> winner self' = Some BLACK).
Proof.
  intros Hst. unfold populate_valid_moves.
  destruct (valid_moves_for_color_total (status self) BLACK Hst) as (b & Eb & _).
  destruct (valid_moves_for_color_total (status self) RED Hst) as (r & Er & _).
  rewrite Eb, Er. cbn [bind]. eexists. split; [reflexivity |].
  unfold check_game_over. cbn [black_possible_moves red_possible_moves set_possible_moves].
  destruct (len b =? 0) eqn:E0.
  - apply Z.eqb_eq in E0. simpl.
    repeat split; try reflexivity. intros H. contradiction.
  - apply Z.eqb_neq in E0. destruct (len r =? 0) eqn:E1.
    + simpl. repeat split; try reflexivity. intros H. contradiction.
    + apply Z.eqb_neq in E1. simpl.
      repeat split; try reflexivity; intros; contradiction.
Qed.

Lemma populate_valid_moves_winner_witness :
  board_ok (status blocked_game) = true
  /\ exists self',
       populate_valid_moves blocked_game = Ok self'
       /\ valid_moves_for_color (status blocked_game) BLACK
          = Ok (black_possible_moves self')
       /\ valid_moves_for_color (status blocked_game) RED
          = Ok (red_possible_moves self')
       /\ (len (black_possible_moves self') = 0 -> winner self' = Some RED)
       /\ (len (black_possible_moves self') <> 0 ->
           len (red_possible_moves self') = 0 -> winner self' = Some BLACK).
Proof.
  split; [reflexivity |].
  apply (populate_valid_moves_winner blocked_game). reflexivity.
Defined.

(** ** The start position *)

Lemma on_board_cases (loc : Loc) :
  on_board loc = true -> In loc (list_prod (range SIZE) (range SIZE)).
Proof.
  intros H. apply on_board_bounds in H. destruct loc as [r c].
  apply in_prod; apply In_range; simpl in H; lia.
Qed.

(** Settle a statement about the cell at each of the 64 locations of a
    closed board by looking each one up. *)
Ltac each_cell Hon Hcell :=
  apply on_board_cases in Hon; simpl in Hon;
  repeat (destruct Hon as [Hon | Hon];
          [subst; vm_compute in Hcell; injection Hcell as Hcell; subst;
           simpl in *
          | ]);
  try contradiction.

(** C4 fails on the code at the start position.  [new_game] sets
    [playable] from [is_dark] and [get_start_state] leaves the dark
    cells empty, so every piece stands on a cell whose [playable] flag is
    false; the cell (0,1) is one of them. *)
Theorem new_game_pieces_on_unplayable_cells :
  exists self,
    Game_init = Ok self
    /\ (exists cell p, status_get (status self) (0, 1) = Ok cell
                       /\ playable cell = false /\ occupant cell = Some p)
    /\ forall loc cell p,
         on_board loc = true ->
         status_get (status self) loc = Ok cell ->
         occupant cell = Some p -> playable cell = false.
Proof.
  exists start_game. split; [reflexivity |]. split.
  - exists (mkCell false (0, 1) (Some black_man)), black_man.
    repeat split; reflexivity.
  - intros loc cell p Hon Hcell Hocc.
    each_cell Hon Hcell; first [reflexivity | discriminate Hocc].
Qed.

(** C5 as stated does not hold: the piece on (0,1), in row 0, is BLACK. *)
Lemma new_game_rows_0_2_not_red :
  ~ (forall self,
        Game_init = Ok self ->
        forall loc cell p,
          on_board loc = true ->
          status_get (status self) loc = Ok cell ->
          occupant cell = Some p ->
          (0 <= fst loc <= 2 -> color p = RED)
          /\ (5 <= fst loc <= 7 -> color p = BLACK)).
Proof.
  intros H.
  destruct (H start_game eq_refl (0, 1)
              (mkCell false (0, 1) (Some black_man)) black_man
              eq_refl eq_refl eq_refl) as [Hred _].
  simpl in Hred. assert (Hrow : 0 <= 0 <= 2) by lia.
  specialize (Hred Hrow). discriminate Hred.
Qed.

(** C5, amended.  After construction the occupied cells of rows 0-2
    hold BLACK pieces, those of rows 5-7 hold RED pieces, rows 3-4 are
    empty, and the first turn is BLACK's, at NEW_TURN, with BLACK's legal
    moves. *)
Theorem new_game_layout :
  exists self,
    Game_init = Ok self
    /\ (forall loc cell p,
          on_board loc = true ->
          status_get (status self) loc = Ok cell ->
          occupant cell = Some p ->
          (0 <= fst loc <= 2 /\ color p = BLACK)
          \/ (5 <= fst loc <= 7 /\ color p = RED))
    /\ (forall loc cell,
          on_board loc = true -> 3 <= fst loc <= 4 ->
          status_get (status self) loc = Ok cell -> occupant cell = None)
    /\ player (current_turn self) = BLACK
    /\ step (current_turn self) = NEW_TURN
    /\ valid_moves_for_color (status self) BLACK
       = Ok (valid_moves (current_turn self)).
Proof.
  exists start_game. split; [reflexivity |]. split; [| split].
  - intros loc cell p Hon Hcell Hocc.
    each_cell Hon Hcell;
      first [discriminate Hocc
            | injection Hocc as <-; simpl; first [left; split; [lia | reflexivity]
                                                 | right; split; [lia | reflexivity]]].
  - intros loc cell Hon Hrow Hcell.
    each_cell Hon Hcell; first [reflexivity | lia].
  - repeat split; reflexivity.
Qed.

(** ** The turn state machine *)

Lemma dict_keys_find {V : Type} (d : Dict V) (k : Loc) :
  In k (dict_keys d) -> exists v, dict_find d k = Some v /\ In (k, v) d.
Proof.
  unfold dict_keys. rewrite in_map_iff. intros ([k' v] & Hk & Hin).
  simpl in Hk. subst k'.
  destruct (In_dict_find d k v Hin) as (v' & E).
  exists v'. split; [exact E | apply dict_find_In; exact E].
Qed.

Lemma is_capture_required_loop_total (vm : Moves) (keys : list Loc) :
  Forall (fun kv => snd kv <> []) vm ->
  (forall k, In k keys -> In k (dict_keys vm)) ->
  exists b, is_capture_required_loop vm keys = Ok b.
Proof.
  intros Hvm. rewrite Forall_forall in Hvm.
  induction keys as [| k keys IH]; intros Hkeys; simpl.
  - exists false. reflexivity.
  - destruct (dict_keys_find vm k (Hkeys k (or_introl eq_refl)))
      as (l & E & Hin).
    unfold dict_get. rewrite E. cbn [bind]. rewrite py_index_0.
    destruct l as [| first rest]; [exfalso; exact (Hvm _ Hin eq_refl) |].
    cbn [bind]. destruct (is_capture first); [exists true; reflexivity |].
    apply IH. intros k' Hk'. apply Hkeys. right. exact Hk'.
Qed.

Lemma is_capture_required_total (t : Turn) :
  Forall (fun kv => snd kv <> []) (valid_moves t) ->
  exists b, is_capture_required t = Ok b.
Proof.
  intros Hvm. unfold is_capture_required.
  apply is_capture_required_loop_total; [exact Hvm | auto].
Qed.

(** The constructor establishes the invariant on a dict without empty
    lists. *)
Lemma Turn_init_inv (p : Color) (vm : Moves) :
  Forall (fun kv => snd kv <> []) vm ->
  exists t,
    Turn_init p vm = Ok t /\ Turn_inv t
    /\ player t = p /\ step t = NEW_TURN /\ valid_moves t = vm.
Proof.
  intros Hvm. unfold Turn_init.
  destruct (is_capture_required_total (mkTurn p NEW_TURN vm false [] None) Hvm)
    as (b & E).
  rewrite E. cbn [bind]. eexists. split; [reflexivity |].
  unfold Turn_inv. simpl. repeat split; try assumption; try reflexivity.
Qed.

(** The dicts of the move generator have no empty list. *)
Lemma valid_moves_for_color_nonempty (st : Status) (c : Color) :
  board_ok st = true ->
  exists d,
    valid_moves_for_color st c = Ok d /\ Forall (fun kv => snd kv <> []) d.
Proof.
  intros Hst. destruct (valid_moves_for_color_total st c Hst) as (d & E & Hd).
  exists d. split; [exact E |].
  eapply Forall_impl; [| exact Hd]. intros kv H. exact (proj1 H).
Qed.

Lemma find_clicked_target_nil (t : Turn) (loc : Loc) :
  possible_targets t = [] -> find_clicked_target t loc = None.
Proof. unfold find_clicked_target. intros ->. reflexivity. Qed.

(** [allowed_start_piece] on a key of [valid_moves]: no capture is
    required, or the list of the key starts with one. *)
Lemma allowed_start_piece_spec (t : Turn) (loc : Loc) (first : Move)
      (rest : list Move) :
  is_capture_required t = Ok (capture_required t) ->
  dict_find (valid_moves t) loc = Some (first :: rest) ->
  allowed_start_piece t loc
  = Ok (negb (capture_required t) || is_capture first).
Proof.
  intros Hreq Hfind. unfold allowed_start_piece. rewrite Hreq. cbn [bind].
  destruct (capture_required t); cbn [negb orb]; [| reflexivity].
  unfold dict_get. rewrite Hfind. cbn [bind]. rewrite py_index_0. reflexivity.
Qed.

(** The three ways [is_valid_turn] ends when it does not raise. *)
Lemma is_valid_turn_Ok (t : Turn) (loc : Loc) (b : bool) (t' : Turn) :
  is_valid_turn t loc = Ok (b, t') ->
  (b = false /\ t' = t)
  \/ (b = true /\ step t = NEW_TURN /\ finish_initial_selection t loc = Ok t')
  \/ (b = true /\ exists target,
         find_clicked_target t loc = Some target
         /\ t' = finish_piece_move t target).
Proof.
  assert (Htarget : is_valid_turn_target t loc = Ok (b, t') ->
                    (b = false /\ t' = t)
                    \/ (b = true /\ exists target,
                           find_clicked_target t loc = Some target
                           /\ t' = finish_piece_move t target)).
  { unfold is_valid_turn_target.
    destruct (find_clicked_target t loc) as [target |];
      [| intros [= <- <-]; left; split; reflexivity].
    intros H. unbind H. destruct v.
    - injection H as <- <-. right. split; [reflexivity |].
      exists target. split; reflexivity.
    - injection H as <- <-. left. split; reflexivity. }
  unfold is_valid_turn.
  destruct (negb (playable_cell_selected t loc));
    [intros [= <- <-]; left; split; reflexivity |].
  destruct (step t =? NEW_TURN) eqn:Estep.
  - apply Z.eqb_eq in Estep. intros H. unbind H. destruct v.
    + unbind H. injection H as <- <-. right. left. auto.
    + destruct (Htarget H) as [H1 | H1]; [left | right; right]; exact H1.
  - intros H. destruct (Htarget H) as [H1 | H1]; [left | right; right]; exact H1.
Qed.

(** Under the invariant [is_valid_turn] does not raise. *)
Lemma is_valid_turn_total (t : Turn) (loc : Loc) :
  Turn_inv t -> exists b t', is_valid_turn t loc = Ok (b, t').
Proof.
  intros (Hvm & Hreq & Htargets).
  assert (Htarget : exists b t', is_valid_turn_target t loc = Ok (b, t')).
  { unfold is_valid_turn_target.
    destruct (find_clicked_target t loc) as [target |]; [| eauto].
    destruct (is_capture target); cbn [bind]; [eauto |].
    rewrite Hreq. cbn [bind]. destruct (negb (capture_required t)); eauto. }
  unfold is_valid_turn.
  destruct (negb (playable_cell_selected t loc)) eqn:Eplay; [eauto |].
  destruct (step t =? NEW_TURN) eqn:Estep; [| exact Htarget].
  apply negb_false_iff in Eplay. unfold playable_cell_selected in Eplay.
  rewrite Estep in Eplay. unfold dict_mem in Eplay.
  destruct (dict_find (valid_moves t) loc) as [l |] eqn:Efind; [| discriminate].
  destruct l as [| first rest].
  { rewrite Forall_forall in Hvm.
    exfalso. exact (Hvm _ (dict_find_In _ _ _ Efind) eq_refl). }
  rewrite (allowed_start_piece_spec t loc first rest Hreq Efind). cbn [bind].
  destruct (negb (capture_required t) || is_capture first); [| exact Htarget].
  unfold finish_initial_selection, dict_get. simpl. rewrite Efind.
  cbn [bind]. eauto.
Qed.

(** C1.  In a turn at NEW_TURN whose [capture_required] flag is set,
    [is_valid_turn] returns True only for a key of [valid_moves] whose
    list starts with a capture, and returns False for every location
    whose list starts with a move that is not a capture. *)
Theorem is_valid_turn_forced_capture (t : Turn) (loc : Loc) :
  Turn_inv t ->
  capture_required t = true ->
  step t = NEW_TURN ->
  exists b t',
    is_valid_turn t loc = Ok (b, t')
    /\ (b = true ->
        exists first rest,
          dict_find (valid_moves t) loc = Some (first :: rest)
          /\ is_capture first = true)
    /\ (forall first rest,
          dict_find (valid_moves t) loc = Some (first :: rest) ->
          is_capture first = false -> b = false).
Proof.
  intros Hinv Hflag Hstep.
  destruct (is_valid_turn_total t loc Hinv) as (b & t' & E).
  destruct Hinv as (Hvm & Hreq & Htargets).
  exists b, t'. split; [exact E |].
  assert (Hkey : b = true ->
                 exists first rest,
                   dict_find (valid_moves t) loc = Some (first :: rest)
                   /\ is_capture first = true).
  { intros ->. unfold is_valid_turn in E.
    destruct (negb (playable_cell_selected t loc)) eqn:Eplay; [discriminate E |].
    apply negb_false_iff in Eplay. unfold playable_cell_selected in Eplay.
    rewrite Hstep in E, Eplay. simpl in E, Eplay. unfold dict_mem in Eplay.
    destruct (dict_find (valid_moves t) loc) as [l |] eqn:Efind; [| discriminate].
    destruct l as [| first rest].
    { rewrite Forall_forall in Hvm.
      exfalso. exact (Hvm _ (dict_find_In _ _ _ Efind) eq_refl). }
    exists first, rest. split; [reflexivity |].
    rewrite (allowed_start_piece_spec t loc first rest Hreq Efind) in E.
    rewrite Hflag in E. cbn [bind negb orb] in E.
    destruct (is_capture first); [reflexivity |].
    unfold is_valid_turn_target in E.
    rewrite (find_clicked_target_nil t loc (Htargets Hstep)) in E.
    discriminate E. }
  split; [exact Hkey |].
  intros first rest Hfind Hquiet. destruct b; [| reflexivity].
  destruct (Hkey eq_refl) as (first' & rest' & Hfind' & Hcap).
  rewrite Hfind in Hfind'. injection Hfind' as <- <-. congruence.
Qed.

Lemma capture_turn_inv : Turn_inv capture_turn.
Proof.
  unfold Turn_inv. split; [| split; [reflexivity | reflexivity]].
  vm_compute. repeat (apply Forall_cons; [discriminate |]). apply Forall_nil.
Defined.

Lemma is_valid_turn_forced_capture_witness :
  Turn_inv capture_turn
  /\ capture_required capture_turn = true
  /\ step capture_turn = NEW_TURN
  /\ exists b t',
       is_valid_turn capture_turn (2, 5) = Ok (b, t')
       /\ (b = true ->
           exists first rest,
             dict_find (valid_moves capture_turn) (2, 5) = Some (first :: rest)
             /\ is_capture first = true)
       /\ (forall first rest,
             dict_find (valid_moves capture_turn) (2, 5) = Some (first :: rest) ->
             is_capture first = false -> b = false).
Proof.
  split; [exact capture_turn_inv |]. split; [reflexivity |].
  split; [reflexivity |].
  apply (is_valid_turn_forced_capture capture_turn (2, 5));
    [exact capture_turn_inv | reflexivity | reflexivity].
Defined.

Lemma set_current_turn_same (self : Game) :
  set_current_turn self (current_turn self) = self.
Proof. destruct self. reflexivity. Qed.

(** C9.  Under the invariant of turns, [is_valid_turn] raises nothing,
    and when it returns False the game object is the one it was called
    on: the turn with its [step], [valid_moves], [capture_required],
    [possible_targets], [final_move] and [player], and the board. *)
Theorem is_valid_turn_rejection_keeps_state (self : Game) (loc : Loc) :
  Turn_inv (current_turn self) ->
  exists b self',
    game_is_valid_turn self loc = Ok (b, self')
    /\ (b = false -> self' = self).
Proof.
  intros Hinv. unfold game_is_valid_turn.
  destruct (is_valid_turn_total (current_turn self) loc Hinv) as (b & t' & E).
  rewrite E. cbn [bind fst snd]. eexists. eexists. split; [reflexivity |].
  intros ->. apply is_valid_turn_Ok in E.
  destruct E as [[_ ->] | [[H _] | [H _]]]; try discriminate H.
  apply set_current_turn_same.
Qed.

Lemma is_valid_turn_rejection_keeps_state_witness :
  Turn_inv (current_turn capture_game)
  /\ exists b self',
       game_is_valid_turn capture_game (2, 5) = Ok (b, self')
       /\ (b = false -> self' = capture_game).
Proof.
  split; [exact capture_turn_inv |].
  apply (is_valid_turn_rejection_keeps_state capture_game (2, 5)).
  exact capture_turn_inv.
Defined.

(** *** The invariant of turns is kept by every call *)

Lemma Turn_inv_update (t t' : Turn) :
  valid_moves t' = valid_moves t ->
  capture_required t' = capture_required t ->
  (step t' = NEW_TURN -> possible_targets t' = []) ->
  Turn_inv t -> Turn_inv t'.
Proof.
  intros Evm Ecr Htargets (Hvm & Hreq & _). unfold Turn_inv.
  unfold is_capture_required in *. rewrite Evm, Ecr. auto.
Qed.

Lemma finish_initial_selection_Ok (t t' : Turn) (loc : Loc) :
  finish_initial_selection t loc = Ok t' ->
  exists moves,
    dict_find (valid_moves t) loc = Some moves
    /\ t' = set_possible_targets (set_step t (step t + 1)) moves.
Proof.
  unfold finish_initial_selection, dict_get. simpl.
  destruct (dict_find (valid_moves t) loc) as [moves |]; [| discriminate].
  cbn [bind]. intros [= <-]. exists moves. split; reflexivity.
Qed.

Lemma finish_piece_move_step (t : Turn) (m : Move) :
  step (finish_piece_move t m)
  = if capture_required t then CHECK_MULTIPLE_JUMPS else MOVE_COMPLETE.
Proof. reflexivity. Qed.

Lemma finish_piece_move_inv (t : Turn) (m : Move) :
  Turn_inv t -> Turn_inv (finish_piece_move t m).
Proof.
  apply Turn_inv_update; try reflexivity.
  rewrite finish_piece_move_step.
  destruct (capture_required t); discriminate.
Qed.

Lemma finish_initial_selection_inv (t t' : Turn) (loc : Loc) :
  step t = NEW_TURN -> finish_initial_selection t loc = Ok t' ->
  Turn_inv t -> Turn_inv t'.
Proof.
  intros Hstep E. apply finish_initial_selection_Ok in E.
  destruct E as (moves & _ & ->).
  apply Turn_inv_update; try reflexivity.
  simpl. rewrite Hstep. discriminate.
Qed.

Lemma is_valid_turn_inv (t t' : Turn) (loc : Loc) (b : bool) :
  Turn_inv t -> is_valid_turn t loc = Ok (b, t') -> Turn_inv t'.
Proof.
  intros Hinv E. apply is_valid_turn_Ok in E.
  destruct E as [[_ ->] | [(_ & Hstep & E) | (_ & target & _ & ->)]].
  - exact Hinv.
  - exact (finish_initial_selection_inv t t' loc Hstep E Hinv).
  - apply finish_piece_move_inv. exact Hinv.
Qed.

(** The three ways [choose_ai_cell] ends when it does not raise. *)
Lemma choose_ai_cell_Ok (t t' : Turn) (rnd : Z) (loc : option Loc) :
  choose_ai_cell t rnd = Ok (loc, t') ->
  (step t = NEW_TURN
   /\ exists start_loc, finish_initial_selection t start_loc = Ok t')
  \/ (exists first, t' = finish_piece_move t first)
  \/ t' = t.
Proof.
  unfold choose_ai_cell. destruct (step t =? NEW_TURN) eqn:Estep.
  - apply Z.eqb_eq in Estep. intros H. unbind H.
    destruct v as [start_loc |]; [| discriminate H].
    unbind H. injection H as _ <-. left. split; [exact Estep |].
    exists start_loc. assumption.
  - destruct ((step t =? VALID_PIECE_SELECTED)
              || (step t =? CHECK_MULTIPLE_JUMPS)).
    + intros H. unbind H. injection H as _ <-. right. left.
      exists v. reflexivity.
    + intros [= _ <-]. right. right. reflexivity.
Qed.

Lemma choose_ai_cell_inv (t t' : Turn) (rnd : Z) (loc : option Loc) :
  Turn_inv t -> choose_ai_cell t rnd = Ok (loc, t') -> Turn_inv t'.
Proof.
  intros Hinv E. apply choose_ai_cell_Ok in E.
  destruct E as [(Hstep & start_loc & E) | [(first & ->) | ->]].
  - exact (finish_initial_selection_inv t t' start_loc Hstep E Hinv).
  - apply finish_piece_move_inv. exact Hinv.
  - exact Hinv.
Qed.

Lemma complete_turn_inv (t : Turn) : Turn_inv t -> Turn_inv (complete_turn t).
Proof. apply Turn_inv_update; try reflexivity. simpl. discriminate. Qed.

(** [board.py] extends a turn only after it has applied the committed
    move of that turn, when the step is past NEW_TURN. *)
Lemma extend_turn_inv (self : Game) (options : list Move) :
  step (current_turn self) <> NEW_TURN ->
  Turn_inv (current_turn self) ->
  Turn_inv (current_turn (extend_turn self options)).
Proof.
  intros Hstep. apply Turn_inv_update; try reflexivity.
  simpl. intros H. contradiction.
Qed.

Lemma get_additional_jump_Ok (self self' : Game) (start_cell : Cell)
      (c : Color) (caps : list Move) :
  get_additional_jump self start_cell c = Ok (caps, self') ->
  (caps = []
   /\ self' = set_current_turn self (complete_turn (current_turn self)))
  \/ (caps <> [] /\ self' = self).
Proof.
  unfold get_additional_jump. intros H. unbind H. unbind H.
  destruct v0 as [| m l]; simpl in H; injection H as <- <-.
  - left. split; reflexivity.
  - right. split; [discriminate | reflexivity].
Qed.

(** ** Writing to the grid *)

Lemma status_set_occupant_Ok (st st' : Status) (loc : Loc) (o : option Piece) :
  status_set_occupant st loc o = Ok st' ->
  exists i row j cell,
    nth_error st i = Some row /\ nth_error row j = Some cell
    /\ st' = replace_nth st i (replace_nth row j (set_occupant cell o)).
Proof.
  unfold status_set_occupant.
  destruct (py_norm (len st) (fst loc)) as [i |]; [| discriminate].
  destruct (nth_error st i) as [row |] eqn:Erow; [| discriminate].
  destruct (py_norm (len row) (snd loc)) as [j |]; [| discriminate].
  destruct (nth_error row j) as [cell |] eqn:Ecell; [| discriminate].
  intros [= <-]. exists i, row, j, cell. auto.
Qed.

Lemma row_ok_replace (r : Z) (row : list Cell) (j : nat) (cell : Cell)
      (o : option Piece) :
  row_ok r row = true -> nth_error row j = Some cell ->
  row_ok r (replace_nth row j (set_occupant cell o)) = true.
Proof.
  intros Hrow Ecell. unfold row_ok in *.
  apply andb_prop in Hrow. destruct Hrow as [Hlen Hcells].
  apply andb_true_intro. split.
  - unfold len in *. rewrite length_replace_nth. exact Hlen.
  - rewrite forallb_forall in *. intros c Hc. specialize (Hcells c Hc).
    destruct (Nat.eq_dec (Z.to_nat c) j) as [Heq | Hne]; [subst j |].
    + rewrite (nth_error_replace_nth_eq _ _ _ _ Ecell).
      rewrite Ecell in Hcells. exact Hcells.
    + rewrite nth_error_replace_nth_neq by exact Hne. exact Hcells.
Qed.

(** A write to the grid, at any index that denotes a cell, keeps the
    layout of the grid. *)
Lemma status_set_occupant_board_ok (st st' : Status) (loc : Loc)
      (o : option Piece) :
  board_ok st = true -> status_set_occupant st loc o = Ok st' ->
  board_ok st' = true.
Proof.
  intros Hst E. apply status_set_occupant_Ok in E.
  destruct E as (i & row & j & cell & Erow & Ecell & ->).
  unfold board_ok in *. apply andb_prop in Hst. destruct Hst as [Hlen Hrows].
  apply andb_true_intro. split.
  - unfold len in *. rewrite length_replace_nth. exact Hlen.
  - rewrite forallb_forall in *. intros r Hr. specialize (Hrows r Hr).
    destruct (Nat.eq_dec (Z.to_nat r) i) as [Heq | Hne]; [subst i |].
    + rewrite (nth_error_replace_nth_eq _ _ _ _ Erow).
      rewrite Erow in Hrows. apply row_ok_replace; assumption.
    + rewrite nth_error_replace_nth_neq by exact Hne. exact Hrows.
Qed.

(** A write to a cell of the board: it succeeds, the cell has the new
    occupant, and every other cell of the board is as before. *)
Lemma status_set_occupant_on_board (st : Status) (loc : Loc)
      (o : option Piece) :
  board_ok st = true -> on_board loc = true ->
  exists st' cell,
    status_get st loc = Ok cell
    /\ status_set_occupant st loc o = Ok st'
    /\ board_ok st' = true
    /\ status_get st' loc = Ok (set_occupant cell o)
    /\ forall loc', on_board loc' = true -> loc' <> loc ->
                    status_get st' loc' = status_get st loc'.
Proof.
  intros Hst Hon. pose proof Hon as Hb. apply on_board_bounds in Hb.
  destruct loc as [r c]. simpl in Hb. destruct Hb as [Hr Hc].
  destruct (board_ok_row st r Hst Hr) as (row & Erow & Hrow).
  destruct (row_ok_cell row r c Hrow Hc) as (cell & Ecell & Hcell).
  assert (Eset : status_set_occupant st (r, c) o
                 = Ok (replace_nth st (Z.to_nat r)
                         (replace_nth row (Z.to_nat c) (set_occupant cell o)))).
  { unfold status_set_occupant. simpl fst. simpl snd.
    rewrite py_norm_nonneg by lia. rewrite (board_ok_len st Hst).
    destruct (r <? SIZE) eqn:E1; [| apply Z.ltb_ge in E1; lia].
    rewrite Erow. rewrite py_norm_nonneg by lia.
    rewrite (row_ok_len row r Hrow).
    destruct (c <? SIZE) eqn:E2; [| apply Z.ltb_ge in E2; lia].
    rewrite Ecell. reflexivity. }
  eexists. exists cell. split; [| split; [exact Eset | split; [| split]]].
  - unfold status_get. simpl fst. simpl snd.
    rewrite py_index_nonneg by lia. rewrite Erow. cbn [bind].
    rewrite py_index_nonneg by lia. rewrite Ecell. reflexivity.
  - exact (status_set_occupant_board_ok st _ (r, c) o Hst Eset).
  - unfold status_get. simpl fst. simpl snd.
    rewrite py_index_nonneg by lia.
    rewrite (nth_error_replace_nth_eq _ _ _ _ Erow). cbn [bind].
    rewrite py_index_nonneg by lia.
    rewrite (nth_error_replace_nth_eq _ _ _ _ Ecell). reflexivity.
  - intros [r' c'] Hon' Hne. apply on_board_bounds in Hon'. simpl in Hon'.
    unfold status_get. simpl fst. simpl snd.
    rewrite !(py_index_nonneg _ r') by lia.
    destruct (Z.eq_dec r' r) as [-> | Hr'].
    + rewrite (nth_error_replace_nth_eq _ _ _ _ Erow). rewrite Erow.
      cbn [bind]. rewrite !py_index_nonneg by lia.
      rewrite nth_error_replace_nth_neq; [reflexivity |].
      intros H. apply Hne. f_equal. lia.
    + rewrite nth_error_replace_nth_neq by lia. reflexivity.
Qed.

(** ** Applying a move *)

Lemma update_state_current_turn (self self' : Game) (move : Move) :
  update_state self move = Ok self' -> current_turn self' = current_turn self.
Proof.
  unfold update_state. intros H. do 6 unbind H.
  destruct (capturing move) as [captured |].
  - destruct (Color_eqb (player (current_turn (set_status self v4))) BLACK);
      unbind H; injection H as <-; reflexivity.
  - injection H as <-. reflexivity.
Qed.

Lemma update_state_board_ok (self self' : Game) (move : Move) :
  board_ok (status self) = true -> update_state self move = Ok self' ->
  board_ok (status self') = true.
Proof.
  unfold update_state. intros Hst H. do 3 unbind H.
  pose proof (status_set_occupant_board_ok _ _ _ _ Hst E1) as Hst1.
  do 2 unbind H.
  assert (Hst3 : board_ok v3 = true).
  { destruct ((fst (new_loc move) =? BLACK_KING_ROW) && contains_piece v2 BLACK
              || (fst (new_loc move) =? RED_KING_ROW) && contains_piece v2 RED).
    - unbind E3. exact (status_set_occupant_board_ok _ _ _ _ Hst1 E3).
    - injection E3 as <-. exact Hst1. }
  unbind H.
  pose proof (status_set_occupant_board_ok _ _ _ _ Hst3 E4) as Hst4.
  destruct (capturing move) as [captured |].
  - destruct (Color_eqb (player (current_turn (set_status self v4))) BLACK);
      unbind H; injection H as <-;
      exact (status_set_occupant_board_ok _ _ _ _ Hst4 E5).
  - injection H as <-. exact Hst4.
Qed.

(** C10.  [update_state] on a move of the board: every cell other than
    the source, the destination and the captured cell keeps its
    occupant; the winner and the score of the player who is not moving
    are unchanged; the score of the moving player, the player of the
    current turn, grows by one for a capture and not at all otherwise. *)
Theorem update_state_frame (self : Game) (move : Move) :
  board_ok (status self) = true ->
  move_on_board move = true ->
  exists self',
    update_state self move = Ok self'
    /\ (forall loc,
          on_board loc = true ->
          loc <> current_loc move -> loc <> new_loc move ->
          capturing move <> Some loc ->
          exists cell cell',
            status_get (status self) loc = Ok cell
            /\ status_get (status self') loc = Ok cell'
            /\ occupant cell' = occupant cell)
    /\ winner self' = winner self
    /\ score self' (opponent (player (current_turn self)))
       = score self (opponent (player (current_turn self)))
    /\ score self' (player (current_turn self))
       = score self (player (current_turn self))
         + (if is_capture move then 1 else 0).
Proof.
  intros Hst Hmove. unfold move_on_board in Hmove.
  apply andb_prop in Hmove. destruct Hmove as [Hmove Hcap].
  apply andb_prop in Hmove. destruct Hmove as [Hold Hnew].
  unfold update_state.
  destruct (status_get_on_board _ _ Hst Hnew) as (n0 & En0 & _).
  destruct (status_get_on_board _ _ Hst Hold) as (o0 & Eo0 & _).
  rewrite En0, Eo0. cbn [bind].
  destruct (status_set_occupant_on_board (status self) (new_loc move)
              (occupant o0) Hst Hnew)
    as (st1 & n0' & _ & E1 & Hst1 & Eget1 & Hframe1).
  rewrite E1. cbn [bind]. rewrite Eget1. cbn [bind].
  set (new_cell := set_occupant n0' (occupant o0)).
  assert (Hking : exists st2,
             (if (fst (new_loc move) =? BLACK_KING_ROW)
                 && contains_piece new_cell BLACK
                 || (fst (new_loc move) =? RED_KING_ROW)
                    && contains_piece new_cell RED
              then piece <- occupant_attr new_cell ;;
                   status_set_occupant st1 (new_loc move)
                                       (Some (make_king piece))
              else Ok st1) = Ok st2
             /\ board_ok st2 = true
             /\ forall loc', on_board loc' = true -> loc' <> new_loc move ->
                             status_get st2 loc' = status_get st1 loc').
  { destruct ((fst (new_loc move) =? BLACK_KING_ROW)
              && contains_piece new_cell BLACK
              || (fst (new_loc move) =? RED_KING_ROW)
                 && contains_piece new_cell RED) eqn:Eking.
    - assert (Hocc : exists p, occupant new_cell = Some p).
      { apply orb_prop in Eking.
        destruct Eking as [H | H]; apply andb_prop in H; destruct H as [_ H];
          destruct (contains_piece_occupant _ _ H) as (p & Hp & _); eauto. }
      destruct Hocc as (p & Hp). unfold occupant_attr. rewrite Hp. cbn [bind].
      destruct (status_set_occupant_on_board st1 (new_loc move)
                  (Some (make_king p)) Hst1 Hnew)
        as (st2 & _ & _ & E2 & Hst2 & _ & Hframe2).
      exists st2. auto.
    - exists st1. auto. }
  destruct Hking as (st2 & E2 & Hst2 & Hframe2). rewrite E2. cbn [bind].
  destruct (status_set_occupant_on_board st2 (current_loc move) None Hst2 Hold)
    as (st3 & _ & _ & E3 & Hst3 & _ & Hframe3).
  rewrite E3. cbn [bind].
  assert (Hrest : forall loc,
             on_board loc = true ->
             loc <> current_loc move -> loc <> new_loc move ->
             status_get st3 loc = status_get (status self) loc).
  { intros loc Hon H1 H2.
    rewrite Hframe3, Hframe2, Hframe1 by assumption. reflexivity. }
  unfold is_capture. destruct (capturing move) as [captured |] eqn:Ecap.
  - set (self1 := if Color_eqb (player (current_turn (set_status self st3))) BLACK
                  then set_black_score (set_status self st3)
                                       (black_score (set_status self st3) + 1)
                  else set_red_score (set_status self st3)
                                     (red_score (set_status self st3) + 1)).
    assert (E : status self1 = st3)
      by (unfold self1;
          destruct (Color_eqb (player (current_turn (set_status self st3))) BLACK);
          reflexivity).
    rewrite E.
    destruct (status_set_occupant_on_board st3 captured None Hst3 Hcap)
      as (st4 & _ & _ & E4 & Hst4 & _ & Hframe4).
    rewrite E4. cbn [bind]. eexists. split; [reflexivity |].
    split; [| split; [| split]].
    + intros loc Hon H1 H2 H3. simpl.
      destruct (status_get_on_board _ _ Hst Hon) as (cell & Ecell & _).
      exists cell, cell. split; [exact Ecell |]. split; [| reflexivity].
      rewrite Hframe4; [| exact Hon | congruence].
      rewrite Hrest by assumption. exact Ecell.
    + unfold self1. simpl.
      destruct (Color_eqb (player (current_turn self)) BLACK); reflexivity.
    + unfold self1. simpl.
      destruct (player (current_turn self)); reflexivity.
    + unfold self1. simpl.
      destruct (player (current_turn self)); reflexivity.
  - eexists. split; [reflexivity |]. split; [| split; [| split]].
    + intros loc Hon H1 H2 _. simpl.
      destruct (status_get_on_board _ _ Hst Hon) as (cell & Ecell & _).
      exists cell, cell. split; [exact Ecell |]. split; [| reflexivity].
      rewrite Hrest by assumption. exact Ecell.
    + reflexivity.
    + reflexivity.
    + simpl. destruct (player (current_turn self)); simpl; lia.
Qed.

Lemma update_state_frame_witness :
  board_ok (status capture_game) = true
  /\ move_on_board (mkMove (2, 1) (4, 3) (Some (3, 2))) = true
  /\ exists self',
       update_state capture_game (mkMove (2, 1) (4, 3) (Some (3, 2))) = Ok self'
       /\ (forall loc,
             on_board loc = true ->
             loc <> (2, 1) -> loc <> (4, 3) -> Some (3, 2) <> Some loc ->
             exists cell cell',
               status_get (status capture_game) loc = Ok cell
               /\ status_get (status self') loc = Ok cell'
               /\ occupant cell' = occupant cell)
       /\ winner self' = winner capture_game
       /\ score self' RED = score capture_game RED
       /\ score self' BLACK = score capture_game BLACK + 1.
Proof.
  split; [reflexivity |]. split; [reflexivity |].
  apply (update_state_frame capture_game (mkMove (2, 1) (4, 3) (Some (3, 2))));
    reflexivity.
Defined.

(** ** Turns of the game object *)

Lemma Turn_init_Ok (p : Color) (vm : Moves) (t : Turn) :
  Turn_init p vm = Ok t ->
  step t = NEW_TURN /\ player t = p /\ valid_moves t = vm.
Proof.
  unfold Turn_init. intros H. unbind H. injection H as <-.
  repeat split; reflexivity.
Qed.

Lemma populate_valid_moves_Ok (self self' : Game) :
  populate_valid_moves self = Ok self' ->
  status self' = status self /\ current_turn self' = current_turn self
  /\ valid_moves_for_color (status self) BLACK = Ok (black_possible_moves self')
  /\ valid_moves_for_color (status self) RED = Ok (red_possible_moves self').
Proof.
  unfold populate_valid_moves. intros H. do 2 unbind H. injection H as <-.
  unfold check_game_over. simpl.
  destruct (len v =? 0); [| destruct (len v0 =? 0)]; simpl; auto.
Qed.

(** [advance_turn] keeps the turn it had or installs a fresh one at
    NEW_TURN. *)
Lemma advance_turn_Ok (self self' : Game) :
  advance_turn self = Ok self' ->
  status self' = status self
  /\ (current_turn self' = current_turn self
      \/ exists p vm,
           valid_moves_for_color (status self) p = Ok vm
           /\ Turn_init p vm = Ok (current_turn self')).
Proof.
  unfold advance_turn. intros H. unbind H.
  apply populate_valid_moves_Ok in E. destruct E as (Est & Eturn & Eb & Er).
  destruct (Color_eqb (player (current_turn v)) BLACK
            && (len (red_possible_moves v) >? 0)).
  - unbind H. injection H as <-. split; [exact Est |]. right.
    exists RED, (red_possible_moves v). auto.
  - destruct (len (black_possible_moves v) >? 0).
    + unbind H. injection H as <-. split; [exact Est |]. right.
      exists BLACK, (black_possible_moves v). auto.
    + injection H as <-. auto.
Qed.

Lemma run_is_valid_turn_Ok (self self' : Game) (loc : Loc) :
  run (call_is_valid_turn loc) self = Ok self' ->
  exists b t',
    is_valid_turn (current_turn self) loc = Ok (b, t')
    /\ self' = set_current_turn self t'.
Proof.
  simpl. unfold game_is_valid_turn. intros H. unbind H. unbind E.
  injection H as <-. injection E as <-. destruct v0 as [b t'].
  exists b, t'. split; [exact E0 | reflexivity].
Qed.

Lemma run_choose_ai_cell_Ok (self self' : Game) (rnd : Z) :
  run (call_choose_ai_cell rnd) self = Ok self' ->
  exists loc t',
    choose_ai_cell (current_turn self) rnd = Ok (loc, t')
    /\ self' = set_current_turn self t'.
Proof.
  simpl. unfold game_choose_ai_cell. intros H. unbind H. unbind E.
  injection H as <-. injection E as <-. destruct v0 as [loc t'].
  exists loc, t'. split; [exact E0 | reflexivity].
Qed.

(** The grid keeps its layout and the turn its invariant along every
    run of the program. *)
Lemma reachable_inv (self : Game) :
  reachable self ->
  board_ok (status self) = true /\ Turn_inv (current_turn self).
Proof.
  induction 1 as [self E | c self self' _ [Hst Hinv] Hadm Hrun].
  - assert (self = start_game) as ->
      by (unfold start_game; rewrite E; reflexivity).
    split; [reflexivity |]. unfold Turn_inv.
    split; [| split; reflexivity]. vm_compute.
    repeat (apply Forall_cons; [discriminate |]). apply Forall_nil.
  - destruct c; [| | simpl in Hrun, Hadm ..].
    + apply run_is_valid_turn_Ok in Hrun. destruct Hrun as (b & t' & E & ->).
      split; [exact Hst | exact (is_valid_turn_inv _ _ _ _ Hinv E)].
    + apply run_choose_ai_cell_Ok in Hrun. destruct Hrun as (loc & t' & E & ->).
      split; [exact Hst | exact (choose_ai_cell_inv _ _ _ _ Hinv E)].
    + split; [exact (update_state_board_ok _ _ _ Hst Hrun) |].
      rewrite (update_state_current_turn _ _ _ Hrun). exact Hinv.
    + unbind Hrun. injection Hrun as <-. destruct v as [caps s].
      apply get_additional_jump_Ok in E.
      destruct E as [[_ ->] | [_ ->]]; simpl.
      * split; [exact Hst | apply complete_turn_inv; exact Hinv].
      * split; assumption.
    + injection Hrun as <-.
      split; [exact Hst | apply extend_turn_inv; assumption].
    + apply advance_turn_Ok in Hrun. destruct Hrun as [Est Hturn].
      rewrite Est. split; [exact Hst |].
      destruct Hturn as [-> | (p & vm & Evm & Einit)]; [exact Hinv |].
      destruct (valid_moves_for_color_nonempty (status self) p Hst)
        as (d & Ed & Hd).
      rewrite Evm in Ed. injection Ed as <-.
      destruct (Turn_init_inv p vm Hd) as (t & Et & Ht & _).
      rewrite Einit in Et. injection Et as <-. exact Ht.
Qed.

(** On the grid, refreshing the legal moves and advancing the turn do
    not raise. *)
Lemma populate_valid_moves_total (self : Game) :
  board_ok (status self) = true ->
  exists self', populate_valid_moves self = Ok self'.
Proof.
  intros Hst. unfold populate_valid_moves.
  destruct (valid_moves_for_color_total (status self) BLACK Hst) as (b & Eb & _).
  destruct (valid_moves_for_color_total (status self) RED Hst) as (r & Er & _).
  rewrite Eb, Er. cbn [bind]. eauto.
Qed.

Lemma advance_turn_total (self : Game) :
  board_ok (status self) = true ->
  exists self', advance_turn self = Ok self'.
Proof.
  intros Hst. unfold advance_turn.
  destruct (populate_valid_moves_total self Hst) as (s & E).
  rewrite E. cbn [bind]. apply populate_valid_moves_Ok in E.
  destruct E as (_ & _ & Eb & Er).
  destruct (valid_moves_for_color_nonempty (status self) BLACK Hst)
    as (b & Eb' & Hb).
  destruct (valid_moves_for_color_nonempty (status self) RED Hst)
    as (r & Er' & Hr).
  rewrite Eb in Eb'. injection Eb' as <-.
  rewrite Er in Er'. injection Er' as <-.
  destruct (Color_eqb (player (current_turn s)) BLACK
            && (len (red_possible_moves s) >? 0)).
  - destruct (Turn_init_inv RED _ Hr) as (t & Et & _).
    rewrite Et. cbn [bind]. eauto.
  - destruct (len (black_possible_moves s) >? 0); [| eauto].
    destruct (Turn_init_inv BLACK _ Hb) as (t & Et & _).
    rewrite Et. cbn [bind]. eauto.
Qed.

(** C8.  For a turn that is not complete, a call leaves its step at
    MOVE_COMPLETE exactly when the call commits a move through
    [finish_piece_move] while [capture_required] is false, or when it is
    the continuation check [get_additional_jump] and finds no capture;
    after every other call the step is below MOVE_COMPLETE. *)
Theorem step_complete_iff (c : Call) (self self' : Game) :
  NEW_TURN <= step (current_turn self) < MOVE_COMPLETE ->
  run c self = Ok self' ->
  (step (current_turn self') = MOVE_COMPLETE <-> completes c self self')
  /\ NEW_TURN <= step (current_turn self') <= MOVE_COMPLETE.
Proof.
  unfold NEW_TURN, MOVE_COMPLETE. intros Hstep Hrun.
  assert (Hcommit :
            forall t',
              (t' = current_turn self
               \/ (step (current_turn self) = 0
                   /\ exists loc, finish_initial_selection (current_turn self) loc
                                  = Ok t')
               \/ exists m, t' = finish_piece_move (current_turn self) m) ->
              (step t' = 3 <->
               capture_required (current_turn self) = false
               /\ exists move, t' = finish_piece_move (current_turn self) move)
              /\ 0 <= step t' <= 3).
  { intros t' Hcases.
    assert (Hback : capture_required (current_turn self) = false
                    /\ (exists move,
                           t' = finish_piece_move (current_turn self) move) ->
                    step t' = 3).
    { intros (Hflag & move & ->). rewrite finish_piece_move_step, Hflag.
      reflexivity. }
    destruct Hcases as [-> | [(H0 & loc & E) | (m & ->)]].
    - split; [| lia]. split; [lia | exact Hback].
    - apply finish_initial_selection_Ok in E. destruct E as (moves & _ & ->).
      simpl in *. split; [| lia]. split; [lia | exact Hback].
    - rewrite finish_piece_move_step.
      destruct (capture_required (current_turn self)) eqn:Eflag;
        unfold CHECK_MULTIPLE_JUMPS, MOVE_COMPLETE.
      + split; [| lia]. split; [lia |]. intros [H _]. discriminate H.
      + split; [| lia]. split; [| reflexivity]. intros _.
        split; [reflexivity |]. exists m. reflexivity. }
  destruct c; [| | simpl in Hrun ..]; simpl completes.
  - apply run_is_valid_turn_Ok in Hrun. destruct Hrun as (b & t' & E0 & ->).
    simpl. apply Hcommit. apply is_valid_turn_Ok in E0.
    destruct E0 as [[_ ->] | [(_ & H0 & E) | (_ & target & _ & ->)]];
      [left; reflexivity | right; left | right; right; eauto].
    split; [exact H0 | eauto].
  - apply run_choose_ai_cell_Ok in Hrun. destruct Hrun as (loc & t' & E0 & ->).
    simpl. apply Hcommit. apply choose_ai_cell_Ok in E0.
    destruct E0 as [(H0 & start_loc & E) | [(first & ->) | ->]];
      [right; left | right; right; eauto | left; reflexivity].
    split; [exact H0 | eauto].
  - rewrite (update_state_current_turn _ _ _ Hrun).
    split; [| lia]. split; [lia | contradiction].
  - unbind Hrun. injection Hrun as <-. destruct v as [caps s].
    rewrite E. apply get_additional_jump_Ok in E.
    destruct E as [[-> ->] | [Hcaps ->]]; simpl; unfold MOVE_COMPLETE.
    + split; [| lia]. split; [eauto | reflexivity].
    + split; [| lia]. split; [lia |]. intros (s' & [= H _]). contradiction.
  - injection Hrun as <-. simpl. split; [| lia]. split; [lia | contradiction].
  - apply advance_turn_Ok in Hrun.
    destruct Hrun as [_ [-> | (p & vm & _ & Einit)]].
    + split; [| lia]. split; [lia | contradiction].
    + apply Turn_init_Ok in Einit. destruct Einit as (-> & _).
      unfold NEW_TURN. split; [| lia]. split; [discriminate | contradiction].
Qed.

Lemma step_complete_iff_witness :
  NEW_TURN <= step (current_turn selected_game) < MOVE_COMPLETE
  /\ run (call_is_valid_turn (3, 0)) selected_game = Ok moved_game
  /\ (step (current_turn moved_game) = MOVE_COMPLETE
      <-> completes (call_is_valid_turn (3, 0)) selected_game moved_game)
  /\ NEW_TURN <= step (current_turn moved_game) <= MOVE_COMPLETE.
Proof.
  assert (Hstep : NEW_TURN <= step (current_turn selected_game) < MOVE_COMPLETE).
  { change (step (current_turn selected_game)) with 1.
    unfold NEW_TURN, MOVE_COMPLETE. lia. }
  split; [exact Hstep |]. split; [reflexivity |].
  apply (step_complete_iff (call_is_valid_turn (3, 0)) selected_game moved_game);
    [exact Hstep | reflexivity].
Defined.

(** On a reachable game a click is always answered, never raised on. *)
Lemma reachable_click_total (self : Game) (loc : Loc) :
  reachable self ->
  exists b self', game_is_valid_turn self loc = Ok (b, self').
Proof.
  intros Hreach. destruct (reachable_inv self Hreach) as [_ Hinv].
  destruct (is_valid_turn_total (current_turn self) loc Hinv) as (b & t' & E).
  unfold game_is_valid_turn. rewrite E. cbn [bind]. eauto.
Qed.

(** * Further properties *)

(** ** The move generator, direction by direction *)

Lemma is_empty_occupant (cell : Cell) :
  is_empty cell = true <-> occupant cell = None.
Proof.
  unfold is_empty. destruct (occupant cell); split; congruence.
Qed.

(** On the grid, [create_move] builds exactly the legal move along the
    direction it is given, when there is one. *)
Lemma create_move_iff (st : Status) (start direction : Loc) (c : Color)
      (m : Move) :
  board_ok st = true ->
  create_move st start (get_next_cell_in_direction start direction)
              direction c = Ok (Some m)
  <-> legal_along st c start direction m.
Proof.
  intros Hst. unfold create_move, legal_along, empty_at, enemy_at.
  set (next := get_next_cell_in_direction start direction).
  set (end_loc := get_next_cell_in_direction next direction).
  change (is_valid_cell (fst next) (snd next)) with (on_board next).
  change (is_valid_cell (fst end_loc) (snd end_loc)) with (on_board end_loc).
  destruct (on_board next) eqn:Enext; cbn [negb].
  2: { split; [discriminate |].
       intros [(_ & H & _) | (_ & (H & _) & _)]; discriminate H. }
  destruct (status_get_on_board st next Hst Enext) as (cell & Ecell & _).
  rewrite Ecell. cbn [bind].
  destruct (is_empty cell) eqn:Eempty.
  { split.
    - intros [= <-]. left. split; [reflexivity |]. split; [reflexivity |].
      exists cell. auto.
    - intros [(-> & _) | (_ & (_ & cell' & q & E' & Hq & _) & _)];
        [reflexivity |].
      try rewrite Ecell in E'. injection E' as <-.
      apply is_empty_occupant in Eempty. congruence. }
  unfold occupant_attr. pose proof Eempty as Hocc. unfold is_empty in Hocc.
  destruct (occupant cell) as [p |] eqn:Eocc; [| discriminate]. cbn [bind].
  assert (Hquiet : ~ (exists cell', Ok cell = Ok cell'
                                    /\ is_empty cell' = true)).
  { intros (cell' & E' & H'). injection E' as <-. congruence. }
  destruct (is_enemy p c) eqn:Eenemy.
  2: { split; [discriminate |].
       intros [(_ & _ & H) | (_ & (_ & cell' & q & E' & Hq & Hen) & _)];
         [destruct (Hquiet H) |].
       try rewrite Ecell in E'. injection E' as <-. congruence. }
  destruct (on_board end_loc) eqn:Eend.
  2: { split; [discriminate |].
       intros [(_ & _ & H) | (_ & _ & H & _)];
         [destruct (Hquiet H) | discriminate H]. }
  destruct (status_get_on_board st end_loc Hst Eend) as (cell2 & Ecell2 & _).
  rewrite Ecell2. cbn [bind].
  destruct (is_empty cell2) eqn:Eempty2.
  - split.
    + intros [= <-]. right. split; [reflexivity |].
      split; [split; [reflexivity | exists cell, p; auto] |].
      split; [reflexivity | exists cell2; auto].
    + intros [(_ & _ & H) | (-> & _)]; [destruct (Hquiet H) | reflexivity].
  - split; [discriminate |].
    intros [(_ & _ & H) | (_ & _ & _ & cell' & E' & H')];
      [destruct (Hquiet H) |].
    try rewrite Ecell2 in E'. injection E' as <-. congruence.
Qed.

(** The loop of [get_moves_for_piece] collects the move of every
    direction that has one, and nothing else. *)
Lemma get_moves_loop_members (st : Status) (cell : Cell) (c : Color)
      (dirs : list Loc) :
  board_ok st = true ->
  forall moves0,
  exists moves,
    for_each (get_moves_step st cell c) dirs moves0 = Ok moves
    /\ (length moves <= length moves0 + length dirs)%nat
    /\ forall m,
         In m moves
         <-> In m moves0
             \/ exists direction,
                  In direction dirs
                  /\ legal_along st c (location cell) direction m.
Proof.
  intros Hst. induction dirs as [| d dirs IH]; intros moves0; simpl.
  - exists moves0. split; [reflexivity |]. split; [lia |].
    intros m. split; [auto |]. intros [H | (d & [] & _)]. exact H.
  - unfold get_moves_step at 1.
    destruct (create_move_total st (location cell)
                (get_next_cell_in_direction (location cell) d) d c Hst)
      as (r & Er & _).
    rewrite Er. cbn [bind].
    pose proof (fun m => create_move_iff st (location cell) d c m Hst) as Hiff.
    rewrite Er in Hiff.
    assert (Hstep : exists moves1,
               match r with
               | Some move =>
                   if is_capture move then Ok (insert_front moves0 move)
                   else Ok (append moves0 move)
               | None => Ok moves0
               end = Ok moves1
               /\ (length moves1 <= length moves0 + 1)%nat
               /\ forall m, In m moves1
                            <-> In m moves0
                                \/ legal_along st c (location cell) d m).
    { destruct r as [move |].
      - destruct (is_capture move); eexists; (split; [reflexivity |]).
        + unfold insert_front. split; [simpl; lia |]. intros m. simpl.
          rewrite <- Hiff. split.
          * intros [<- | H]; [right; reflexivity | left; exact H].
          * intros [H | [= <-]]; [right; exact H | left; reflexivity].
        + unfold append. split; [rewrite length_app; simpl; lia |].
          intros m. rewrite in_app_iff. simpl. rewrite <- Hiff. split.
          * intros [H | [<- | []]]; [left; exact H | right; reflexivity].
          * intros [H | [= <-]]; [left; exact H | right; left; reflexivity].
      - eexists. split; [reflexivity |]. split; [lia |]. intros m.
        rewrite <- Hiff. split; [auto |]. intros [H | H]; [exact H | discriminate H]. }
    destruct Hstep as (moves1 & -> & Hlen1 & Hmem1). cbn [bind].
    destruct (IH moves1) as (moves & E & Hlen & Hmem).
    exists moves. split; [exact E |]. split; [lia |].
    intros m. rewrite Hmem, Hmem1. split.
    + intros [[H | H] | (d' & Hd' & H)];
        [left; exact H | right; exists d; auto | right; exists d'; auto].
    + intros [H | (d' & [<- | Hd'] & H)];
        [left; left; exact H | left; right; exact H | right; exists d'; auto].
Qed.

Lemma get_moves_for_piece_members
      (st : Status) (loc : Loc) (c : Color) (cell : Cell) (p : Piece) :
  board_ok st = true ->
  status_get st loc = Ok cell -> occupant cell = Some p ->
  exists moves,
    get_moves_for_piece st loc c = Ok moves
    /\ (length moves <= length (piece_directions p))%nat
    /\ forall m,
         In m moves
         <-> exists direction,
               In direction (piece_directions p)
               /\ legal_along st c (location cell) direction m.
Proof.
  intros Hst Ecell Eocc. unfold get_moves_for_piece.
  rewrite Ecell. cbn [bind]. unfold occupant_attr. rewrite Eocc. cbn [bind].
  destruct (get_moves_loop_members st cell c (piece_directions p) Hst [])
    as (moves & E & Hlen & Hmem).
  exists moves. split; [exact E |]. split; [exact Hlen |].
  intros m. rewrite Hmem. split; [| auto]. intros [[] | H]. exact H.
Qed.

(** X1.  The moves [get_moves_for_piece] returns for a piece are exactly
    the legal moves along its directions: a step onto the adjacent cell
    when that cell is on the board and empty, a jump over the adjacent
    cell when it holds an enemy and the cell behind it is on the board
    and empty.  There is at most one move per direction. *)
Theorem get_moves_for_piece_characterised
        (st : Status) (loc : Loc) (c : Color) (cell : Cell) (p : Piece) :
  board_ok st = true ->
  status_get st loc = Ok cell -> occupant cell = Some p ->
  exists moves,
    get_moves_for_piece st loc c = Ok moves
    /\ (length moves <= length (piece_directions p))%nat
    /\ forall m,
         In m moves
         <-> exists direction,
               In direction (piece_directions p)
               /\ legal_along st c (location cell) direction m.
Proof. exact (get_moves_for_piece_members st loc c cell p). Qed.

Lemma get_moves_for_piece_characterised_witness :
  board_ok capture_status = true
  /\ status_get capture_status (2, 1) = Ok (mkCell false (2, 1) (Some black_man))
  /\ exists moves,
       get_moves_for_piece capture_status (2, 1) BLACK = Ok moves
       /\ (length moves <= length (piece_directions black_man))%nat
       /\ forall m,
            In m moves
            <-> exists direction,
                  In direction (piece_directions black_man)
                  /\ legal_along capture_status BLACK (2, 1) direction m.
Proof.
  split; [reflexivity |]. split; [reflexivity |].
  apply (get_moves_for_piece_characterised capture_status (2, 1) BLACK
           (mkCell false (2, 1) (Some black_man)) black_man);
    reflexivity.
Defined.

(** ** Which pieces the move generator lists *)

Lemma for_each_append {A B : Type} (body : list B -> A -> result (list B))
      (F : A -> list B) (l : list A) :
  (forall s a, In a l -> body s a = Ok (s ++ F a)) ->
  forall s, for_each body l s = Ok (s ++ flat_map F l).
Proof.
  induction l as [| a l IH]; intros Hbody s; simpl.
  - rewrite app_nil_r. reflexivity.
  - rewrite (Hbody s a (or_introl eq_refl)). cbn [bind].
    rewrite IH by (intros s' b Hb; apply Hbody; right; exact Hb).
    rewrite app_assoc. reflexivity.
Qed.

Lemma all_cells_containing_color_members (st : Status) (c : Color) :
  board_ok st = true ->
  exists pieces,
    all_cells_containing_color st c = Ok pieces
    /\ forall loc,
         In loc pieces
         <-> on_board loc = true
             /\ exists cell, status_get st loc = Ok cell
                             /\ contains_piece cell c = true.
Proof.
  intros Hst.
  set (holds := fun loc : Loc =>
                  match status_get st loc with
                  | Ok cell => contains_piece cell c
                  | Raise _ => false
                  end).
  set (Fcol := fun (row col : Z) =>
                 if holds (row, col) then [(row, col)] else []).
  set (Frow := fun row : Z => flat_map (Fcol row) (range SIZE)).
  exists (flat_map Frow (range SIZE)). split.
  - unfold all_cells_containing_color.
    rewrite (for_each_append _ Frow);
      [rewrite (board_ok_len st Hst); reflexivity |].
    intros pieces row Hrow.
    rewrite (board_ok_len st Hst) in Hrow. apply In_range in Hrow.
    destruct (board_ok_row st row Hst Hrow) as (cells & Ecells & Hcells).
    rewrite py_index_nonneg by lia. rewrite Ecells. cbn [bind].
    rewrite (row_ok_len cells row Hcells).
    apply (for_each_append _ (Fcol row)).
    intros pieces' col Hcol. apply In_range in Hcol.
    assert (Hon : on_board (row, col) = true)
      by (apply on_board_bounds; simpl; lia).
    destruct (status_get_on_board st (row, col) Hst Hon) as (cell & Ecell & _).
    unfold Fcol, holds. rewrite Ecell. cbn [bind].
    destruct (contains_piece cell c); [reflexivity |].
    rewrite app_nil_r. reflexivity.
  - intros loc. rewrite in_flat_map. split.
    + intros (row & Hrow & Hloc). unfold Frow in Hloc.
      rewrite in_flat_map in Hloc. destruct Hloc as (col & Hcol & Hloc).
      apply In_range in Hrow, Hcol. unfold Fcol in Hloc.
      destruct (holds (row, col)) eqn:Eholds; [| destruct Hloc].
      destruct Hloc as [<- | []].
      split; [apply on_board_bounds; simpl; lia |].
      unfold holds in Eholds.
      destruct (status_get st (row, col)) as [cell | e]; [| discriminate].
      exists cell. auto.
    + intros (Hon & cell & Ecell & Hpiece).
      apply on_board_bounds in Hon. destruct loc as [row col]. simpl in Hon.
      exists row. split; [apply In_range; lia |].
      unfold Frow. rewrite in_flat_map.
      exists col. split; [apply In_range; lia |].
      unfold Fcol, holds. rewrite Ecell, Hpiece. left. reflexivity.
Qed.

(** X2.  On the grid, [all_cells_containing_color] returns exactly the
    locations of the board whose cell holds a piece of the colour. *)
Theorem all_cells_containing_color_characterised (st : Status) (c : Color) :
  board_ok st = true ->
  exists pieces,
    all_cells_containing_color st c = Ok pieces
    /\ forall loc,
         In loc pieces
         <-> on_board loc = true
             /\ exists cell, status_get st loc = Ok cell
                             /\ contains_piece cell c = true.
Proof. exact (all_cells_containing_color_members st c). Qed.

Lemma all_cells_containing_color_characterised_witness :
  board_ok capture_status = true
  /\ exists pieces,
       all_cells_containing_color capture_status BLACK = Ok pieces
       /\ forall loc,
            In loc pieces
            <-> on_board loc = true
                /\ exists cell, status_get capture_status loc = Ok cell
                                /\ contains_piece cell BLACK = true.
Proof.
  split; [reflexivity |].
  apply (all_cells_containing_color_characterised capture_status BLACK).
  reflexivity.
Defined.

Lemma dict_find_set {V : Type} (d : Dict V) (k k' : Loc) (v : V) :
  dict_find (dict_set d k v) k'
  = if Loc_eqb k' k then Some v else dict_find d k'.
Proof.
  induction d as [| [k0 v0] d IH]; simpl.
  - reflexivity.
  - destruct (Loc_eqb k k0) eqn:E0; simpl.
    + apply Loc_eqb_eq in E0. subst k0.
      destruct (Loc_eqb k' k); reflexivity.
    + destruct (Loc_eqb k' k0) eqn:E1.
      * apply Loc_eqb_eq in E1. subst k0.
        destruct (Loc_eqb k' k) eqn:E2; [| reflexivity].
        apply Loc_eqb_eq in E2. subst k'. rewrite Loc_eqb_refl in E0.
        discriminate E0.
      * exact IH.
Qed.

(** What the loop of [valid_moves_for_color] leaves under a key. *)
Lemma valid_moves_loop_find (st : Status) (c : Color) (pieces : list Loc) :
  board_ok st = true ->
  Forall (fun loc => on_board loc = true
                     /\ exists cell, status_get st loc = Ok cell
                                     /\ contains_piece cell c = true) pieces ->
  forall d0,
  exists d,
    for_each (valid_moves_step st c) pieces d0 = Ok d
    /\ forall loc,
         dict_find d loc
         = if existsb (Loc_eqb loc) pieces
           then match get_moves_for_piece st loc c with
                | Ok (m :: ms) => Some (m :: ms)
                | _ => dict_find d0 loc
                end
           else dict_find d0 loc.
Proof.
  intros Hst. induction pieces as [| a pieces IH]; intros Hpieces d0; simpl.
  - exists d0. split; reflexivity.
  - apply Forall_cons_iff in Hpieces. destruct Hpieces as [Ha Hpieces].
    destruct Ha as (Hon & cell & Ecell & Hpiece).
    destruct (contains_piece_occupant cell c Hpiece) as (p & Eocc & _).
    destruct (get_moves_for_piece_total st a c cell p Hst Ecell Eocc)
      as (ma & Ema & _).
    unfold valid_moves_step at 1. rewrite Ema. cbn [bind].
    set (d1 := match ma with
               | [] => d0
               | _ :: _ => dict_set d0 a ma
               end).
    assert (Hd1 : (if len ma >? 0 then Ok (dict_set d0 a ma) else Ok d0)
                  = Ok d1) by (unfold d1; destruct ma; reflexivity).
    rewrite Hd1. cbn [bind].
    destruct (IH Hpieces d1) as (d & E & Hfind). exists d.
    split; [exact E |]. intros loc. rewrite Hfind.
    assert (Hfind1 : dict_find d1 loc
                     = if Loc_eqb loc a
                       then match ma with
                            | [] => dict_find d0 loc
                            | m :: ms => Some (m :: ms)
                            end
                       else dict_find d0 loc).
    { unfold d1. destruct ma as [| m ms].
      - destruct (Loc_eqb loc a); reflexivity.
      - apply dict_find_set. }
    rewrite Hfind1. destruct (Loc_eqb loc a) eqn:Eloc; simpl.
    + apply Loc_eqb_eq in Eloc. subst loc. rewrite Ema.
      destruct (existsb (Loc_eqb a) pieces); destruct ma; reflexivity.
    + reflexivity.
Qed.

Lemma valid_moves_for_color_find (st : Status) (c : Color) :
  board_ok st = true ->
  exists d,
    valid_moves_for_color st c = Ok d
    /\ forall loc moves,
         dict_find d loc = Some moves
         <-> on_board loc = true
             /\ (exists cell, status_get st loc = Ok cell
                              /\ contains_piece cell c = true)
             /\ get_moves_for_piece st loc c = Ok moves
             /\ moves <> [].
Proof.
  intros Hst. unfold valid_moves_for_color.
  destruct (all_cells_containing_color_total st c Hst) as (pieces & E & Hpieces).
  pose proof (proj1 (Forall_forall _ _) Hpieces) as Hin.
  assert (Hall : Forall (fun loc => on_board loc = true
                                    /\ exists cell,
                                         status_get st loc = Ok cell
                                         /\ contains_piece cell c = true)
                        pieces).
  { eapply Forall_impl; [| exact Hpieces].
    intros loc (Hon & cell & Ecell & _ & Hpiece). split; [exact Hon |].
    exists cell. auto. }
  assert (Hmem : forall loc,
             existsb (Loc_eqb loc) pieces = true
             <-> on_board loc = true
                 /\ exists cell, status_get st loc = Ok cell
                                 /\ contains_piece cell c = true).
  { intros loc. rewrite existsb_exists. split.
    - intros (loc' & Hloc' & Heq). apply Loc_eqb_eq in Heq. subst loc'.
      rewrite Forall_forall in Hall. exact (Hall loc Hloc').
    - intros Hloc. exists loc. split; [| apply Loc_eqb_refl].
      destruct (all_cells_containing_color_members st c Hst)
        as (pieces' & E' & Hchar).
      rewrite E in E'. injection E' as <-. apply Hchar. exact Hloc. }
  rewrite E. cbn [bind].
  destruct (valid_moves_loop_find st c pieces Hst Hall []) as (d & Ed & Hfind).
  exists d. split; [exact Ed |]. intros loc moves. rewrite Hfind.
  specialize (Hmem loc). simpl.
  destruct (existsb (Loc_eqb loc) pieces).
  - destruct (proj1 Hmem eq_refl) as [Hon Hcell].
    destruct (get_moves_for_piece st loc c) as [[| m ms] | e]; split.
    + discriminate.
    + intros (_ & _ & [= <-] & H). contradiction.
    + intros [= <-]. repeat split; try assumption. discriminate.
    + intros (_ & _ & [= <-] & _). reflexivity.
    + discriminate.
    + intros (_ & _ & H & _). discriminate H.
  - split; [discriminate |]. intros (Hon & Hcell & _).
    assert (H : false = true) by (apply Hmem; auto). discriminate H.
Qed.

(** X3.  On the grid, a location is a key of the dict that
    [valid_moves_for_color] returns exactly when it is a cell of the board
    that holds a piece of the colour and that piece has a move; the
    value under the key is the list of [get_moves_for_piece] for it. *)
Theorem valid_moves_for_color_keys (st : Status) (c : Color) :
  board_ok st = true ->
  exists d,
    valid_moves_for_color st c = Ok d
    /\ forall loc moves,
         dict_find d loc = Some moves
         <-> on_board loc = true
             /\ (exists cell, status_get st loc = Ok cell
                              /\ contains_piece cell c = true)
             /\ get_moves_for_piece st loc c = Ok moves
             /\ moves <> [].
Proof. exact (valid_moves_for_color_find st c). Qed.

Lemma valid_moves_for_color_keys_witness :
  board_ok capture_status = true
  /\ exists d,
       valid_moves_for_color capture_status BLACK = Ok d
       /\ forall loc moves,
            dict_find d loc = Some moves
            <-> on_board loc = true
                /\ (exists cell, status_get capture_status loc = Ok cell
                                 /\ contains_piece cell BLACK = true)
                /\ get_moves_for_piece capture_status loc BLACK = Ok moves
                /\ moves <> [].
Proof.
  split; [reflexivity |].
  apply (valid_moves_for_color_keys capture_status BLACK). reflexivity.
Defined.

(** ** Turns: the capture flag, the targets and the automated player *)

Lemma is_capture_required_loop_iff (vm : Moves) (keys : list Loc) :
  Forall (fun kv => snd kv <> []) vm ->
  (forall k, In k keys -> In k (dict_keys vm)) ->
  exists b,
    is_capture_required_loop vm keys = Ok b
    /\ (b = true
        <-> exists k first rest,
              In k keys /\ dict_find vm k = Some (first :: rest)
              /\ is_capture first = true).
Proof.
  intros Hvm. rewrite Forall_forall in Hvm.
  induction keys as [| k keys IH]; intros Hkeys; simpl.
  - exists false. split; [reflexivity |]. split; [discriminate |].
    intros (k & first & rest & [] & _).
  - destruct (dict_keys_find vm k (Hkeys k (or_introl eq_refl)))
      as (l & E & Hin).
    unfold dict_get. rewrite E. cbn [bind]. rewrite py_index_0.
    destruct l as [| first rest]; [exfalso; exact (Hvm _ Hin eq_refl) |].
    cbn [bind]. destruct (is_capture first) eqn:Efirst.
    + exists true. split; [reflexivity |]. split; [| reflexivity].
      intros _. exists k, first, rest. auto.
    + destruct IH as (b & Eb & Hb);
        [intros k' Hk'; apply Hkeys; right; exact Hk' |].
      exists b. split; [exact Eb |]. rewrite Hb. split.
      * intros (k' & f & r & Hk' & H). exists k', f, r. split; [right |]; auto.
      * intros (k' & f & r & [<- | Hk'] & Hfind & Hcap).
        -- rewrite E in Hfind. injection Hfind as <- <-. congruence.
        -- exists k', f, r. auto.
Qed.

Lemma dict_find_keys {V : Type} (d : Dict V) (k : Loc) (v : V) :
  dict_find d k = Some v -> In k (dict_keys d).
Proof.
  intros H. apply dict_find_In in H. unfold dict_keys.
  apply in_map_iff. exists (k, v). auto.
Qed.

Lemma is_capture_required_spec (t : Turn) :
  Forall (fun kv => snd kv <> []) (valid_moves t) ->
  exists b,
    is_capture_required t = Ok b
    /\ (b = true
        <-> exists k first rest,
              dict_find (valid_moves t) k = Some (first :: rest)
              /\ is_capture first = true).
Proof.
  intros Hvm. unfold is_capture_required.
  destruct (is_capture_required_loop_iff (valid_moves t)
              (dict_keys (valid_moves t)) Hvm (fun k H => H))
    as (b & E & Hb).
  exists b. split; [exact E |]. rewrite Hb. split.
  - intros (k & first & rest & _ & H). exists k, first, rest. exact H.
  - intros (k & first & rest & Hfind & Hcap). exists k, first, rest.
    split; [exact (dict_find_keys _ _ _ Hfind) | auto].
Qed.

(** X4.  When no key of [valid_moves] maps to an empty list,
    [is_capture_required] does not raise, and it answers True exactly
    when the list of some key starts with a capturing move. *)
Theorem is_capture_required_iff (t : Turn) :
  Forall (fun kv => snd kv <> []) (valid_moves t) ->
  exists b,
    is_capture_required t = Ok b
    /\ (b = true
        <-> exists k first rest,
              dict_find (valid_moves t) k = Some (first :: rest)
              /\ is_capture first = true).
Proof. exact (is_capture_required_spec t). Qed.

Lemma capture_moves_nonempty : Forall (fun kv => snd kv <> []) capture_moves.
Proof.
  vm_compute. repeat (apply Forall_cons; [discriminate |]). apply Forall_nil.
Defined.

Lemma is_capture_required_iff_witness :
  Forall (fun kv => snd kv <> []) (valid_moves capture_turn)
  /\ exists b,
       is_capture_required capture_turn = Ok b
       /\ (b = true
           <-> exists k first rest,
                 dict_find (valid_moves capture_turn) k = Some (first :: rest)
                 /\ is_capture first = true).
Proof.
  split; [exact capture_moves_nonempty |].
  apply (is_capture_required_iff capture_turn). exact capture_moves_nonempty.
Defined.

Lemma find_clicked_target_spec (t : Turn) (loc : Loc) :
  match find_clicked_target t loc with
  | Some target =>
      exists before after,
        possible_targets t = before ++ target :: after
        /\ new_loc target = loc
        /\ Forall (fun m => new_loc m <> loc) before
  | None => Forall (fun m => new_loc m <> loc) (possible_targets t)
  end.
Proof.
  unfold find_clicked_target.
  induction (possible_targets t) as [| m l IH]; simpl.
  - constructor.
  - destruct (Loc_eqb loc (new_loc m)) eqn:E.
    + apply Loc_eqb_eq in E. exists [], l. repeat split; auto.
    + assert (Hne : new_loc m <> loc)
        by (intros H; rewrite H, Loc_eqb_refl in E; discriminate).
      destruct (find_clicked_target_loop l loc) as [target |].
      * destruct IH as (before & after & -> & Hloc & Hbefore).
        exists (m :: before), after. repeat split; auto.
      * constructor; assumption.
Qed.

(** X5.  [find_clicked_target] returns the first move of
    [possible_targets] whose destination is the clicked cell, and None
    exactly when no move of the list goes there. *)
Theorem find_clicked_target_first (t : Turn) (loc : Loc) :
  match find_clicked_target t loc with
  | Some target =>
      exists before after,
        possible_targets t = before ++ target :: after
        /\ new_loc target = loc
        /\ Forall (fun m => new_loc m <> loc) before
  | None => Forall (fun m => new_loc m <> loc) (possible_targets t)
  end.
Proof. exact (find_clicked_target_spec t loc). Qed.

Lemma choose_capture_loop_spec (vm : Moves) (keys : list Loc) :
  Forall (fun kv => snd kv <> []) vm ->
  (forall k, In k keys -> In k (dict_keys vm)) ->
  exists r,
    choose_capture_loop vm keys = Ok r
    /\ is_capture_required_loop vm keys
       = Ok (match r with Some _ => true | None => false end)
    /\ forall loc,
         r = Some loc ->
         exists first rest,
           dict_find vm loc = Some (first :: rest) /\ is_capture first = true.
Proof.
  intros Hvm. rewrite Forall_forall in Hvm.
  induction keys as [| k keys IH]; intros Hkeys; simpl.
  - exists None. repeat split. discriminate.
  - destruct (dict_keys_find vm k (Hkeys k (or_introl eq_refl)))
      as (l & E & Hin).
    unfold dict_get. rewrite E. cbn [bind]. rewrite py_index_0.
    destruct l as [| first rest]; [exfalso; exact (Hvm _ Hin eq_refl) |].
    cbn [bind]. destruct (is_capture first) eqn:Efirst.
    + exists (Some k). repeat split. intros loc [= <-].
      exists first, rest. auto.
    + apply IH. intros k' Hk'. apply Hkeys. right. exact Hk'.
Qed.

Lemma finish_initial_selection_find (t : Turn) (loc : Loc) (moves : list Move) :
  dict_find (valid_moves t) loc = Some moves ->
  finish_initial_selection t loc
  = Ok (set_possible_targets (set_step t (step t + 1)) moves).
Proof.
  intros H. unfold finish_initial_selection, dict_get. simpl. rewrite H.
  reflexivity.
Qed.

(** A selection of a key at NEW_TURN that the forced-capture rule
    allows is accepted by [is_valid_turn]. *)
Lemma is_valid_turn_select (t : Turn) (loc : Loc) (first : Move)
      (rest : list Move) :
  Turn_inv t -> step t = NEW_TURN ->
  dict_find (valid_moves t) loc = Some (first :: rest) ->
  (capture_required t = true -> is_capture first = true) ->
  is_valid_turn t loc
  = Ok (true, set_possible_targets (set_step t (step t + 1)) (first :: rest)).
Proof.
  intros (_ & Hreq & _) Hstep Hfind Hcap. unfold is_valid_turn.
  unfold playable_cell_selected, dict_mem. rewrite Hstep, Hfind. simpl.
  rewrite (allowed_start_piece_spec t loc first rest Hreq Hfind).
  cbn [bind].
  assert (Hallowed : negb (capture_required t) || is_capture first = true).
  { destruct (capture_required t); [rewrite (Hcap eq_refl) |]; reflexivity. }
  rewrite Hallowed. rewrite (finish_initial_selection_find t loc _ Hfind).
  rewrite Hstep. reflexivity.
Qed.

Lemma choose_ai_cell_select (t : Turn) (rnd : Z) :
  Turn_inv t ->
  step t = NEW_TURN ->
  (capture_required t = false -> 0 <= rnd < len (valid_moves t)) ->
  exists loc first rest t',
    choose_ai_cell t rnd = Ok (Some loc, t')
    /\ dict_find (valid_moves t) loc = Some (first :: rest)
    /\ (capture_required t = true -> is_capture first = true)
    /\ possible_targets t' = first :: rest
    /\ step t' = VALID_PIECE_SELECTED
    /\ is_valid_turn t loc = Ok (true, t').
Proof.
  intros Hinv Hstep Hrnd. pose proof Hinv as (Hvm & Hreq & _).
  assert (Hchoice : exists loc first rest,
             (if capture_required t
              then choose_capture_loop (valid_moves t)
                                       (dict_keys (valid_moves t))
              else if len (valid_moves t) - 1 <? 0 then Raise ValueError
                   else k <- py_index (dict_keys (valid_moves t)) rnd ;;
                        Ok (Some k)) = Ok (Some loc)
             /\ dict_find (valid_moves t) loc = Some (first :: rest)
             /\ (capture_required t = true -> is_capture first = true)).
  { destruct (capture_required t) eqn:Eflag.
    - destruct (choose_capture_loop_spec (valid_moves t)
                  (dict_keys (valid_moves t)) Hvm (fun k H => H))
        as (r & Er & Eloop & Hr).
      unfold is_capture_required in Hreq. rewrite Hreq in Eloop.
      destruct r as [loc |]; [| discriminate Eloop].
      destruct (Hr loc eq_refl) as (first & rest & Hfind & Hcap).
      exists loc, first, rest. auto.
    - specialize (Hrnd eq_refl).
      destruct (len (valid_moves t) - 1 <? 0) eqn:Elen;
        [apply Z.ltb_lt in Elen; lia |].
      rewrite py_index_nonneg by lia.
      destruct (nth_error (dict_keys (valid_moves t)) (Z.to_nat rnd))
        as [k |] eqn:Ek.
      2: { apply nth_error_None in Ek. unfold dict_keys in Ek.
           rewrite length_map in Ek. unfold len in Hrnd. lia. }
      cbn [bind]. apply nth_error_In in Ek.
      destruct (dict_keys_find _ _ Ek) as (l & Hfind & Hin).
      rewrite Forall_forall in Hvm.
      destruct l as [| first rest]; [exfalso; exact (Hvm _ Hin eq_refl) |].
      exists k, first, rest. repeat split; [exact Hfind | discriminate]. }
  destruct Hchoice as (loc & first & rest & Echoice & Hfind & Hcap).
  exists loc, first, rest,
    (set_possible_targets (set_step t (step t + 1)) (first :: rest)).
  split; [| split; [exact Hfind | split; [exact Hcap | split; [reflexivity |]]]].
  - unfold choose_ai_cell. rewrite Hstep. simpl (NEW_TURN =? NEW_TURN).
    cbv iota. rewrite Echoice. cbn [bind].
    rewrite (finish_initial_selection_find t loc _ Hfind). rewrite Hstep.
    reflexivity.
  - split; [simpl; rewrite Hstep; reflexivity |].
    apply is_valid_turn_select; assumption.
Qed.

(** X6.  At NEW_TURN the automated player selects a piece that the
    interactive check accepts: [choose_ai_cell] returns a key of
    [valid_moves] (under forced capture one whose list starts with a
    capture), the turn goes to VALID_PIECE_SELECTED with the moves of
    that key as targets, and [is_valid_turn] on the returned location
    gives the same turn. *)
Theorem choose_ai_cell_selects_valid_piece (t : Turn) (rnd : Z) :
  Turn_inv t ->
  step t = NEW_TURN ->
  (capture_required t = false -> 0 <= rnd < len (valid_moves t)) ->
  exists loc first rest t',
    choose_ai_cell t rnd = Ok (Some loc, t')
    /\ dict_find (valid_moves t) loc = Some (first :: rest)
    /\ (capture_required t = true -> is_capture first = true)
    /\ possible_targets t' = first :: rest
    /\ step t' = VALID_PIECE_SELECTED
    /\ is_valid_turn t loc = Ok (true, t').
Proof. exact (choose_ai_cell_select t rnd). Qed.

Lemma choose_ai_cell_selects_valid_piece_witness :
  Turn_inv capture_turn
  /\ step capture_turn = NEW_TURN
  /\ exists loc first rest t',
       choose_ai_cell capture_turn 0 = Ok (Some loc, t')
       /\ dict_find (valid_moves capture_turn) loc = Some (first :: rest)
       /\ (capture_required capture_turn = true -> is_capture first = true)
       /\ possible_targets t' = first :: rest
       /\ step t' = VALID_PIECE_SELECTED
       /\ is_valid_turn capture_turn loc = Ok (true, t').
Proof.
  split; [exact capture_turn_inv |]. split; [reflexivity |].
  apply (choose_ai_cell_selects_valid_piece capture_turn 0);
    [exact capture_turn_inv | reflexivity | discriminate].
Defined.

Lemma choose_ai_cell_commit
        (t : Turn) (rnd : Z) (first : Move) (rest : list Move) :
  Turn_inv t ->
  step t = VALID_PIECE_SELECTED \/ step t = CHECK_MULTIPLE_JUMPS ->
  possible_targets t = first :: rest ->
  (capture_required t = true -> is_capture first = true) ->
  choose_ai_cell t rnd = Ok (Some (new_loc first), finish_piece_move t first)
  /\ is_valid_turn t (new_loc first) = Ok (true, finish_piece_move t first).
Proof.
  intros (_ & Hreq & _) Hstep Htargets Hcap.
  assert (Efind : find_clicked_target t (new_loc first) = Some first).
  { unfold find_clicked_target. rewrite Htargets. simpl.
    rewrite Loc_eqb_refl. reflexivity. }
  assert (Hsteps : (step t =? NEW_TURN) = false
                   /\ (step t =? MOVE_COMPLETE) = false
                   /\ (step t =? VALID_PIECE_SELECTED)
                      || (step t =? CHECK_MULTIPLE_JUMPS) = true).
  { destruct Hstep as [-> | ->]; repeat split; reflexivity. }
  destruct Hsteps as (E0 & E3 & E12). split.
  - unfold choose_ai_cell. rewrite E0, E12, Htargets, py_index_0. reflexivity.
  - unfold is_valid_turn, playable_cell_selected, is_turn_complete.
    rewrite E0, E3, Efind. simpl. unfold is_valid_turn_target. rewrite Efind.
    destruct (is_capture first) eqn:Efirst; cbn [bind]; [reflexivity |].
    rewrite Hreq. cbn [bind].
    destruct (capture_required t); [| reflexivity].
    specialize (Hcap eq_refl). discriminate Hcap.
Qed.

(** X7.  Once a piece is selected the automated player commits the
    first target.  When that target respects the forced-capture rule,
    the interactive check accepts the same cell with the same result. *)
Theorem choose_ai_cell_commits_first_target
        (t : Turn) (rnd : Z) (first : Move) (rest : list Move) :
  Turn_inv t ->
  step t = VALID_PIECE_SELECTED \/ step t = CHECK_MULTIPLE_JUMPS ->
  possible_targets t = first :: rest ->
  (capture_required t = true -> is_capture first = true) ->
  choose_ai_cell t rnd = Ok (Some (new_loc first), finish_piece_move t first)
  /\ is_valid_turn t (new_loc first) = Ok (true, finish_piece_move t first).
Proof. exact (choose_ai_cell_commit t rnd first rest). Qed.

Lemma selected_turn_inv : Turn_inv (current_turn selected_game).
Proof.
  unfold Turn_inv. split; [| split].
  - vm_compute. repeat (apply Forall_cons; [discriminate |]). apply Forall_nil.
  - vm_compute. reflexivity.
  - vm_compute. intros H. discriminate H.
Defined.

Lemma choose_ai_cell_commits_first_target_witness :
  Turn_inv (current_turn selected_game)
  /\ (step (current_turn selected_game) = VALID_PIECE_SELECTED
      \/ step (current_turn selected_game) = CHECK_MULTIPLE_JUMPS)
  /\ possible_targets (current_turn selected_game)
     = [mkMove (2, 1) (3, 2) None; mkMove (2, 1) (3, 0) None]
  /\ choose_ai_cell (current_turn selected_game) 0
     = Ok (Some (3, 2),
           finish_piece_move (current_turn selected_game)
                             (mkMove (2, 1) (3, 2) None))
  /\ is_valid_turn (current_turn selected_game) (3, 2)
     = Ok (true,
           finish_piece_move (current_turn selected_game)
                             (mkMove (2, 1) (3, 2) None)).
Proof.
  split; [exact selected_turn_inv |]. split; [left; reflexivity |].
  split; [reflexivity |].
  apply (choose_ai_cell_commits_first_target (current_turn selected_game) 0
           (mkMove (2, 1) (3, 2) None) [mkMove (2, 1) (3, 0) None]);
    [exact selected_turn_inv | left; reflexivity | reflexivity
    | vm_compute; intros H; discriminate H].
Defined.

(** ** What a move does to its three cells *)

Lemma Loc_eqb_neq (a b : Loc) : Loc_eqb a b = false <-> a <> b.
Proof.
  split.
  - intros E H. apply Loc_eqb_eq in H. congruence.
  - intros H. destruct (Loc_eqb a b) eqn:E; [| reflexivity].
    apply Loc_eqb_eq in E. contradiction.
Qed.

Lemma status_set_occupant_get (st : Status) (loc : Loc) (o : option Piece) :
  board_ok st = true -> on_board loc = true ->
  exists st' cell,
    status_get st loc = Ok cell
    /\ status_set_occupant st loc o = Ok st'
    /\ board_ok st' = true
    /\ forall loc', on_board loc' = true ->
                    status_get st' loc'
                    = if Loc_eqb loc' loc then Ok (set_occupant cell o)
                      else status_get st loc'.
Proof.
  intros Hst Hon.
  destruct (status_set_occupant_on_board st loc o Hst Hon)
    as (st' & cell & Ecell & Eset & Hst' & Esame & Hframe).
  exists st', cell. repeat split; try assumption.
  intros loc' Hon'. destruct (Loc_eqb loc' loc) eqn:E.
  - apply Loc_eqb_eq in E. subst loc'. exact Esame.
  - apply Loc_eqb_neq in E. apply Hframe; assumption.
Qed.

Lemma update_state_cells (self : Game) (move : Move) (old_cell : Cell) :
  board_ok (status self) = true ->
  move_on_board move = true ->
  status_get (status self) (current_loc move) = Ok old_cell ->
  new_loc move <> current_loc move ->
  capturing move <> Some (new_loc move) ->
  exists self' new_cell src_cell,
    update_state self move = Ok self'
    /\ status_get (status self') (new_loc move) = Ok new_cell
    /\ occupant new_cell = option_map (moved_piece move) (occupant old_cell)
    /\ status_get (status self') (current_loc move) = Ok src_cell
    /\ occupant src_cell = None
    /\ forall captured,
         capturing move = Some captured ->
         exists cell, status_get (status self') captured = Ok cell
                      /\ occupant cell = None.
Proof.
  intros Hst Hmove Eold Hdiff Hcapdiff. unfold move_on_board in Hmove.
  apply andb_prop in Hmove. destruct Hmove as [Hmove Hcap].
  apply andb_prop in Hmove. destruct Hmove as [Hold Hnew].
  unfold update_state.
  destruct (status_get_on_board _ _ Hst Hnew) as (n0 & En0 & _).
  rewrite En0, Eold. cbn [bind].
  destruct (status_set_occupant_get (status self) (new_loc move)
              (occupant old_cell) Hst Hnew)
    as (st1 & n0' & _ & E1 & Hst1 & Hget1).
  rewrite E1. cbn [bind].
  rewrite (Hget1 _ Hnew), Loc_eqb_refl. cbn [bind].
  set (new_cell := set_occupant n0' (occupant old_cell)).
  assert (Hking : exists st2 cell2,
             (if (fst (new_loc move) =? BLACK_KING_ROW)
                 && contains_piece new_cell BLACK
                 || (fst (new_loc move) =? RED_KING_ROW)
                    && contains_piece new_cell RED
              then piece <- occupant_attr new_cell ;;
                   status_set_occupant st1 (new_loc move)
                                       (Some (make_king piece))
              else Ok st1) = Ok st2
             /\ board_ok st2 = true
             /\ status_get st2 (new_loc move) = Ok cell2
             /\ occupant cell2
                = option_map (moved_piece move) (occupant old_cell)).
  { unfold contains_piece, is_empty, occupant_attr, new_cell. simpl occupant.
    destruct (occupant old_cell) as [p |]; simpl option_map.
    - unfold moved_piece, reaches_king_row.
      destruct ((fst (new_loc move) =? BLACK_KING_ROW)
                && Color_eqb (color p) BLACK
                || (fst (new_loc move) =? RED_KING_ROW)
                   && Color_eqb (color p) RED).
      + cbn [bind].
        destruct (status_set_occupant_get st1 (new_loc move)
                    (Some (make_king p)) Hst1 Hnew)
          as (st2 & c1 & _ & E2 & Hst2 & Hget2).
        exists st2. eexists. split; [exact E2 |]. split; [exact Hst2 |].
        split; [rewrite (Hget2 _ Hnew), Loc_eqb_refl; reflexivity |].
        reflexivity.
      + exists st1. eexists. split; [reflexivity |]. split; [exact Hst1 |].
        split; [rewrite (Hget1 _ Hnew), Loc_eqb_refl; reflexivity |].
        reflexivity.
    - rewrite !andb_false_r. simpl.
      exists st1. eexists. split; [reflexivity |]. split; [exact Hst1 |].
      split; [rewrite (Hget1 _ Hnew), Loc_eqb_refl; reflexivity |].
      reflexivity. }
  destruct Hking as (st2 & cell2 & E2 & Hst2 & Eget2 & Hocc2).
  rewrite E2. cbn [bind].
  destruct (status_set_occupant_get st2 (current_loc move) None Hst2 Hold)
    as (st3 & c3 & _ & E3 & Hst3 & Hget3).
  rewrite E3. cbn [bind].
  assert (Enew3 : status_get st3 (new_loc move) = Ok cell2).
  { rewrite (Hget3 _ Hnew). rewrite (proj2 (Loc_eqb_neq _ _) Hdiff).
    exact Eget2. }
  assert (Eold3 : status_get st3 (current_loc move) = Ok (set_occupant c3 None)).
  { rewrite (Hget3 _ Hold), Loc_eqb_refl. reflexivity. }
  destruct (capturing move) as [captured |] eqn:Ecap.
  - set (self1 := if Color_eqb (player (current_turn (set_status self st3))) BLACK
                  then set_black_score (set_status self st3)
                                       (black_score (set_status self st3) + 1)
                  else set_red_score (set_status self st3)
                                     (red_score (set_status self st3) + 1)).
    assert (E : status self1 = st3)
      by (unfold self1;
          destruct (Color_eqb (player (current_turn (set_status self st3))) BLACK);
          reflexivity).
    rewrite E.
    destruct (status_set_occupant_get st3 captured None Hst3 Hcap)
      as (st4 & c4 & _ & E4 & Hst4 & Hget4).
    rewrite E4. cbn [bind].
    assert (Hne : Loc_eqb (new_loc move) captured = false).
    { apply Loc_eqb_neq. intros H. apply Hcapdiff. rewrite H. reflexivity. }
    eexists. exists cell2.
    exists (if Loc_eqb (current_loc move) captured
            then set_occupant c4 None else set_occupant c3 None).
    split; [reflexivity |]. simpl status.
    split; [rewrite (Hget4 _ Hnew), Hne; exact Enew3 |].
    split; [exact Hocc2 |].
    split; [rewrite (Hget4 _ Hold);
            destruct (Loc_eqb (current_loc move) captured);
            [reflexivity | exact Eold3] |].
    split; [destruct (Loc_eqb (current_loc move) captured); reflexivity |].
    intros captured' [= <-]. eexists.
    split; [rewrite (Hget4 _ Hcap), Loc_eqb_refl; reflexivity | reflexivity].
  - eexists. exists cell2, (set_occupant c3 None).
    split; [reflexivity |]. simpl status.
    split; [exact Enew3 |]. split; [exact Hocc2 |].
    split; [exact Eold3 |]. split; [reflexivity |].
    intros captured H. discriminate H.
Qed.

(** X8.  [update_state] on a move of the board whose destination is
    neither its source nor its captured cell: afterwards the destination
    holds the piece that stood on the source, made a king when a BLACK
    piece lands on row 7 or a RED piece on row 0 and unchanged
    otherwise; the source is empty; the captured cell, if any, is
    empty. *)
Theorem update_state_moves_piece (self : Game) (move : Move) (old_cell : Cell) :
  board_ok (status self) = true ->
  move_on_board move = true ->
  status_get (status self) (current_loc move) = Ok old_cell ->
  new_loc move <> current_loc move ->
  capturing move <> Some (new_loc move) ->
  exists self' new_cell src_cell,
    update_state self move = Ok self'
    /\ status_get (status self') (new_loc move) = Ok new_cell
    /\ occupant new_cell = option_map (moved_piece move) (occupant old_cell)
    /\ status_get (status self') (current_loc move) = Ok src_cell
    /\ occupant src_cell = None
    /\ forall captured,
         capturing move = Some captured ->
         exists cell, status_get (status self') captured = Ok cell
                      /\ occupant cell = None.
Proof. exact (update_state_cells self move old_cell). Qed.

Lemma update_state_moves_piece_witness :
  board_ok (status capture_game) = true
  /\ move_on_board (mkMove (2, 1) (4, 3) (Some (3, 2))) = true
  /\ status_get (status capture_game) (2, 1)
     = Ok (mkCell false (2, 1) (Some black_man))
  /\ exists self' new_cell src_cell,
       update_state capture_game (mkMove (2, 1) (4, 3) (Some (3, 2))) = Ok self'
       /\ status_get (status self') (4, 3) = Ok new_cell
       /\ occupant new_cell
          = option_map (moved_piece (mkMove (2, 1) (4, 3) (Some (3, 2))))
                       (Some black_man)
       /\ status_get (status self') (2, 1) = Ok src_cell
       /\ occupant src_cell = None
       /\ forall captured,
            Some (3, 2) = Some captured ->
            exists cell, status_get (status self') captured = Ok cell
                         /\ occupant cell = None.
Proof.
  split; [reflexivity |]. split; [reflexivity |]. split; [reflexivity |].
  apply (update_state_moves_piece capture_game
           (mkMove (2, 1) (4, 3) (Some (3, 2)))
           (mkCell false (2, 1) (Some black_man)));
    [reflexivity | reflexivity | reflexivity | discriminate | discriminate].
Defined.

(** ** Whose turn comes next *)

Lemma Turn_init_fresh (p : Color) (vm : Moves) (t : Turn) :
  Turn_init p vm = Ok t -> fresh_turn p vm t.
Proof.
  unfold Turn_init. intros H. unbind H. injection H as <-.
  unfold fresh_turn. simpl. repeat split; try reflexivity.
  unfold is_capture_required in *. simpl in *. exact E.
Qed.

Lemma advance_turn_cases (self : Game) :
  board_ok (status self) = true ->
  exists self' black red,
    advance_turn self = Ok self'
    /\ valid_moves_for_color (status self) BLACK = Ok black
    /\ valid_moves_for_color (status self) RED = Ok red
    /\ status self' = status self
    /\ black_score self' = black_score self
    /\ red_score self' = red_score self
    /\ black_possible_moves self' = black
    /\ red_possible_moves self' = red
    /\ winner self' = (match black, red with
                       | [], _ => Some RED
                       | _ :: _, [] => Some BLACK
                       | _ :: _, _ :: _ => winner self
                       end)
    /\ (player (current_turn self) = BLACK -> red <> [] ->
        fresh_turn RED red (current_turn self'))
    /\ (player (current_turn self) = RED \/ red = [] -> black <> [] ->
        fresh_turn BLACK black (current_turn self'))
    /\ (player (current_turn self) = RED \/ red = [] -> black = [] ->
        current_turn self' = current_turn self).
Proof.
  intros Hst. unfold advance_turn, populate_valid_moves.
  destruct (valid_moves_for_color_nonempty (status self) BLACK Hst)
    as (black & Eb & Hb).
  destruct (valid_moves_for_color_nonempty (status self) RED Hst)
    as (red & Er & Hr).
  rewrite Eb, Er. cbn [bind].
  set (s1 := check_game_over (set_possible_moves self black red)).
  assert (Hs1 : status s1 = status self
                /\ black_score s1 = black_score self
                /\ red_score s1 = red_score self
                /\ black_possible_moves s1 = black
                /\ red_possible_moves s1 = red
                /\ current_turn s1 = current_turn self
                /\ winner s1 = (match black, red with
                                | [], _ => Some RED
                                | _ :: _, [] => Some BLACK
                                | _ :: _, _ :: _ => winner self
                                end)).
  { unfold s1, check_game_over. simpl.
    destruct black as [| kb b]; [simpl; repeat split |].
    change (len ((kb :: b) : Moves) =? 0) with false. cbv iota.
    destruct red as [| kr r]; simpl; repeat split. }
  destruct Hs1 as (Est & Ebs & Ers & Ebm & Erm & Eturn & Ewin).
  rewrite Eturn, Ebm, Erm.
  assert (Hlen : forall d : Moves, (len d >? 0) = match d with
                                                 | [] => false
                                                 | _ :: _ => true
                                                 end)
    by (intros [| x d]; reflexivity).
  rewrite !Hlen.
  assert (Hfresh : forall p vm t, Turn_init p vm = Ok t -> fresh_turn p vm t)
    by exact Turn_init_fresh.
  destruct (player (current_turn self)) eqn:Eplayer; simpl Color_eqb;
    cbn [andb].
  - destruct red as [| kr r].
    + destruct black as [| kb b].
      * exists s1, [], [].
        repeat split; try assumption; intros; try congruence.
      * destruct (Turn_init_inv BLACK (kb :: b) Hb) as (t & Et & _).
        rewrite Et. cbn [bind].
      destruct (Hfresh _ _ _ Et) as (F1 & F2 & F3 & F4 & F5 & F6).
        exists (set_current_turn s1 t), (kb :: b), [].
        repeat split; simpl; try assumption; intros; try congruence.
    + destruct (Turn_init_inv RED (kr :: r) Hr) as (t & Et & _).
      rewrite Et. cbn [bind].
      destruct (Hfresh _ _ _ Et) as (F1 & F2 & F3 & F4 & F5 & F6).
      exists (set_current_turn s1 t), black, (kr :: r).
      repeat split; simpl; try assumption; intros; try congruence;
        match goal with H : _ \/ _ |- _ => destruct H; congruence end.
  - destruct black as [| kb b].
    + exists s1, [], red.
      repeat split; try assumption; intros; try congruence.
    + destruct (Turn_init_inv BLACK (kb :: b) Hb) as (t & Et & _).
      rewrite Et. cbn [bind].
      destruct (Hfresh _ _ _ Et) as (F1 & F2 & F3 & F4 & F5 & F6).
      exists (set_current_turn s1 t), (kb :: b), red.
      repeat split; simpl; try assumption; intros; try congruence.
Qed.

(** X9.  [advance_turn] on the grid: the legal moves of both colours
    are recomputed from the board, which it leaves as it is together
    with the scores; the winner becomes RED when BLACK has no move,
    BLACK when only RED has none, and is kept otherwise.  After a turn of
    BLACK a new RED turn starts if RED can move; in every other case a
    new BLACK turn starts if BLACK can move (also right after BLACK's
    own turn, when RED cannot move), and the old turn stays in place if
    BLACK cannot move. *)
Theorem advance_turn_next_player (self : Game) :
  board_ok (status self) = true ->
  exists self' black red,
    advance_turn self = Ok self'
    /\ valid_moves_for_color (status self) BLACK = Ok black
    /\ valid_moves_for_color (status self) RED = Ok red
    /\ status self' = status self
    /\ black_score self' = black_score self
    /\ red_score self' = red_score self
    /\ black_possible_moves self' = black
    /\ red_possible_moves self' = red
    /\ winner self' = (match black, red with
                       | [], _ => Some RED
                       | _ :: _, [] => Some BLACK
                       | _ :: _, _ :: _ => winner self
                       end)
    /\ (player (current_turn self) = BLACK -> red <> [] ->
        fresh_turn RED red (current_turn self'))
    /\ (player (current_turn self) = RED \/ red = [] -> black <> [] ->
        fresh_turn BLACK black (current_turn self'))
    /\ (player (current_turn self) = RED \/ red = [] -> black = [] ->
        current_turn self' = current_turn self).
Proof. exact (advance_turn_cases self). Qed.

Lemma advance_turn_next_player_witness :
  board_ok (status moved_game) = true
  /\ exists self' black red,
       advance_turn moved_game = Ok self'
       /\ valid_moves_for_color (status moved_game) BLACK = Ok black
       /\ valid_moves_for_color (status moved_game) RED = Ok red
       /\ status self' = status moved_game
       /\ black_score self' = black_score moved_game
       /\ red_score self' = red_score moved_game
       /\ black_possible_moves self' = black
       /\ red_possible_moves self' = red
       /\ winner self' = (match black, red with
                          | [], _ => Some RED
                          | _ :: _, [] => Some BLACK
                          | _ :: _, _ :: _ => winner moved_game
                          end)
       /\ (player (current_turn moved_game) = BLACK -> red <> [] ->
           fresh_turn RED red (current_turn self'))
       /\ (player (current_turn moved_game) = RED \/ red = [] -> black <> [] ->
           fresh_turn BLACK black (current_turn self'))
       /\ (player (current_turn moved_game) = RED \/ red = [] -> black = [] ->
           current_turn self' = current_turn moved_game).
Proof.
  split; [vm_compute; reflexivity |].
  apply (advance_turn_next_player moved_game). vm_compute. reflexivity.
Defined.

(** ** The generator and the turn together *)

Lemma contains_piece_iff (cell : Cell) (c : Color) :
  contains_piece cell c = true
  <-> exists p, occupant cell = Some p /\ color p = c.
Proof.
  split; [apply contains_piece_occupant |].
  intros (p & Hp & Hc). unfold contains_piece, is_empty. rewrite Hp.
  apply Color_eqb_eq. exact Hc.
Qed.

(** An entry of the generated dict, read on the board. *)
Lemma generated_entry (st : Status) (c : Color) (d : Moves) (loc : Loc)
      (moves : list Move) :
  board_ok st = true ->
  valid_moves_for_color st c = Ok d ->
  dict_find d loc = Some moves ->
  on_board loc = true
  /\ moves <> []
  /\ captures_then_quiet moves
  /\ exists cell p,
       status_get st loc = Ok cell /\ occupant cell = Some p /\ color p = c
       /\ forall m,
            In m moves
            <-> exists direction,
                  In direction (piece_directions p)
                  /\ legal_along st c loc direction m.
Proof.
  intros Hst Ed Hfind.
  destruct (valid_moves_for_color_find st c Hst) as (d' & Ed' & Hkeys).
  rewrite Ed in Ed'. injection Ed' as <-.
  apply Hkeys in Hfind. destruct Hfind as (Hon & (cell & Ecell & Hpiece) & Em & Hne).
  destruct (contains_piece_occupant cell c Hpiece) as (p & Eocc & Hcolor).
  destruct (status_get_on_board st loc Hst Hon) as (cell' & Ecell' & Hloc).
  rewrite Ecell in Ecell'. injection Ecell' as <-.
  destruct (get_moves_for_piece_total st loc c cell p Hst Ecell Eocc)
    as (moves1 & E1 & Hshape & _).
  destruct (get_moves_for_piece_members st loc c cell p Hst Ecell Eocc)
    as (moves2 & E2 & _ & Hmem).
  rewrite Em in E1, E2. injection E1 as <-. injection E2 as <-.
  rewrite Hloc in Hmem.
  split; [exact Hon |]. split; [exact Hne |]. split; [exact Hshape |].
  exists cell, p. auto.
Qed.

(** A legal move of a piece on the board is listed under its cell. *)
Lemma generated_entry_exists (st : Status) (c : Color) (d : Moves) (loc : Loc)
      (cell : Cell) (p : Piece) (direction : Loc) (m : Move) :
  board_ok st = true ->
  valid_moves_for_color st c = Ok d ->
  on_board loc = true ->
  status_get st loc = Ok cell -> occupant cell = Some p -> color p = c ->
  In direction (piece_directions p) ->
  legal_along st c loc direction m ->
  exists moves, dict_find d loc = Some moves /\ In m moves.
Proof.
  intros Hst Ed Hon Ecell Eocc Hcolor Hdir Hlegal.
  destruct (valid_moves_for_color_find st c Hst) as (d' & Ed' & Hkeys).
  rewrite Ed in Ed'. injection Ed' as <-.
  destruct (status_get_on_board st loc Hst Hon) as (cell' & Ecell' & Hloc).
  rewrite Ecell in Ecell'. injection Ecell' as <-.
  destruct (get_moves_for_piece_members st loc c cell p Hst Ecell Eocc)
    as (moves & Em & _ & Hmem).
  rewrite Hloc in Hmem.
  assert (Hin : In m moves) by (apply Hmem; exists direction; auto).
  exists moves. split; [| exact Hin].
  apply Hkeys. split; [exact Hon |].
  split; [exists cell; split; [exact Ecell |];
          apply contains_piece_iff; exists p; auto |].
  split; [exact Em |]. intros ->. destruct Hin.
Qed.

Lemma legal_along_capture (st : Status) (c : Color) (loc direction : Loc)
      (m : Move) :
  legal_along st c loc direction m ->
  (is_capture m = true
   <-> m = jump_move loc direction
       /\ enemy_at st c (get_next_cell_in_direction loc direction)
       /\ empty_at st (get_next_cell_in_direction
                         (get_next_cell_in_direction loc direction)
                         direction)).
Proof.
  intros [(-> & H) | (-> & H1 & H2)]; split.
  - discriminate.
  - intros (E & _). discriminate E.
  - auto.
  - reflexivity.
Qed.

Lemma captures_then_quiet_head (moves : list Move) (m : Move) :
  captures_then_quiet moves -> In m moves -> is_capture m = true ->
  exists first rest, moves = first :: rest /\ is_capture first = true.
Proof.
  intros (caps & quiet & -> & Hcaps & Hquiet) Hin Hcap.
  destruct caps as [| first caps].
  - simpl in Hin. rewrite Forall_forall in Hquiet.
    apply Hquiet in Hin. congruence.
  - exists first, (caps ++ quiet). split; [reflexivity |].
    apply Forall_cons_iff in Hcaps. exact (proj1 Hcaps).
Qed.

(** X10.  The forced-capture flag is exact.  For the turn that
    [Turn.__init__] builds on the dict of [valid_moves_for_color],
    [capture_required] is True exactly when some piece of the player on
    the board has a legal jump: along one of its directions the adjacent
    cell holds an enemy and the cell behind it is on the board and
    empty. *)
Theorem capture_required_iff_jump_exists (st : Status) (c : Color) :
  board_ok st = true ->
  exists vm t,
    valid_moves_for_color st c = Ok vm
    /\ Turn_init c vm = Ok t
    /\ (capture_required t = true
        <-> exists loc cell p direction,
              on_board loc = true
              /\ status_get st loc = Ok cell
              /\ occupant cell = Some p /\ color p = c
              /\ In direction (piece_directions p)
              /\ enemy_at st c (get_next_cell_in_direction loc direction)
              /\ empty_at st (get_next_cell_in_direction
                                (get_next_cell_in_direction loc direction)
                                direction)).
Proof.
  intros Hst.
  destruct (valid_moves_for_color_nonempty st c Hst) as (vm & Evm & Hvm).
  destruct (Turn_init_inv c vm Hvm) as (t & Et & (_ & Hreq & _) & _ & _ & Evalid).
  exists vm, t. split; [exact Evm |]. split; [exact Et |].
  assert (Hvm' : Forall (fun kv => snd kv <> []) (valid_moves t))
    by (rewrite Evalid; exact Hvm).
  destruct (is_capture_required_spec t Hvm') as (b & Eb & Hb).
  rewrite Hreq in Eb. injection Eb as <-. rewrite Hb, Evalid. split.
  - intros (k & first & rest & Hfind & Hcap).
    destruct (generated_entry st c vm k _ Hst Evm Hfind)
      as (Hon & _ & _ & cell & p & Ecell & Eocc & Hcolor & Hmem).
    destruct (proj1 (Hmem first) (or_introl eq_refl)) as (direction & Hdir & Hlegal).
    destruct (proj1 (legal_along_capture st c k direction first Hlegal) Hcap)
      as (_ & Henemy & Hempty).
    exists k, cell, p, direction. auto 10.
  - intros (loc & cell & p & direction & Hon & Ecell & Eocc & Hcolor & Hdir
            & Henemy & Hempty).
    assert (Hlegal : legal_along st c loc direction (jump_move loc direction))
      by (right; auto).
    destruct (generated_entry_exists st c vm loc cell p direction _
                Hst Evm Hon Ecell Eocc Hcolor Hdir Hlegal)
      as (moves & Hfind & Hin).
    destruct (generated_entry st c vm loc moves Hst Evm Hfind)
      as (_ & _ & Hshape & _).
    destruct (captures_then_quiet_head moves _ Hshape Hin eq_refl)
      as (first & rest & -> & Hcap).
    exists loc, first, rest. auto.
Qed.

Lemma capture_required_iff_jump_exists_witness :
  board_ok capture_status = true
  /\ exists vm t,
       valid_moves_for_color capture_status BLACK = Ok vm
       /\ Turn_init BLACK vm = Ok t
       /\ (capture_required t = true
           <-> exists loc cell p direction,
                 on_board loc = true
                 /\ status_get capture_status loc = Ok cell
                 /\ occupant cell = Some p /\ color p = BLACK
                 /\ In direction (piece_directions p)
                 /\ enemy_at capture_status BLACK
                             (get_next_cell_in_direction loc direction)
                 /\ empty_at capture_status
                             (get_next_cell_in_direction
                                (get_next_cell_in_direction loc direction)
                                direction)).
Proof.
  split; [reflexivity |].
  apply (capture_required_iff_jump_exists capture_status BLACK). reflexivity.
Defined.

Lemma leading_captures_app (caps quiet acc : list Move) :
  Forall (fun m => is_capture m = true) caps ->
  Forall (fun m => is_capture m = false) quiet ->
  leading_captures (caps ++ quiet) acc = acc ++ caps.
Proof.
  revert acc. induction caps as [| m caps IH]; intros acc Hcaps Hquiet; simpl.
  - rewrite app_nil_r. destruct quiet as [| q quiet]; [reflexivity |].
    simpl. apply Forall_cons_iff in Hquiet. rewrite (proj1 Hquiet).
    reflexivity.
  - apply Forall_cons_iff in Hcaps. destruct Hcaps as [Hm Hcaps].
    rewrite Hm. rewrite IH by assumption. unfold append.
    rewrite <- app_assoc. reflexivity.
Qed.

Lemma leading_captures_members (moves : list Move) :
  captures_then_quiet moves ->
  forall m, In m (leading_captures moves [])
            <-> In m moves /\ is_capture m = true.
Proof.
  intros (caps & quiet & -> & Hcaps & Hquiet) m.
  rewrite (leading_captures_app caps quiet [] Hcaps Hquiet). simpl.
  rewrite in_app_iff. rewrite Forall_forall in Hcaps, Hquiet. split.
  - intros H. split; [left; exact H | exact (Hcaps m H)].
  - intros [[H | H] Hcap]; [exact H |]. apply Hquiet in H. congruence.
Qed.

Lemma get_additional_jump_jumps
        (self : Game) (loc : Loc) (start_cell : Cell) (p : Piece) :
  board_ok (status self) = true ->
  on_board loc = true ->
  status_get (status self) loc = Ok start_cell ->
  occupant start_cell = Some p ->
  exists possible_capture self',
    get_additional_jump self start_cell (color p) = Ok (possible_capture, self')
    /\ (forall m,
          In m possible_capture
          <-> exists direction,
                In direction (piece_directions p)
                /\ m = jump_move loc direction
                /\ enemy_at (status self) (color p)
                            (get_next_cell_in_direction loc direction)
                /\ empty_at (status self)
                            (get_next_cell_in_direction
                               (get_next_cell_in_direction loc direction)
                               direction))
    /\ (possible_capture = [] ->
        self' = set_current_turn self (complete_turn (current_turn self)))
    /\ (possible_capture <> [] -> self' = self).
Proof.
  intros Hst Hon Ecell Eocc.
  destruct (status_get_on_board _ loc Hst Hon) as (cell' & Ecell' & Hloc).
  rewrite Ecell in Ecell'. injection Ecell' as <-.
  destruct (valid_moves_for_color_total (status self) (color p) Hst)
    as (d & Ed & _).
  assert (Hcaps : exists caps,
             (if dict_mem d (location start_cell)
              then l <- dict_get d (location start_cell) ;;
                   Ok (leading_captures l [])
              else Ok []) = Ok caps
             /\ forall m,
                  In m caps
                  <-> exists direction,
                        In direction (piece_directions p)
                        /\ m = jump_move loc direction
                        /\ enemy_at (status self) (color p)
                                    (get_next_cell_in_direction loc direction)
                        /\ empty_at (status self)
                                    (get_next_cell_in_direction
                                       (get_next_cell_in_direction loc direction)
                                       direction)).
  { rewrite Hloc. unfold dict_mem, dict_get.
    destruct (dict_find d loc) as [moves |] eqn:Hfind.
    - cbn [bind]. eexists. split; [reflexivity |].
      destruct (generated_entry _ _ d loc moves Hst Ed Hfind)
        as (_ & _ & Hshape & cell' & p' & Ecell' & Eocc' & _ & Hmem).
      rewrite Ecell in Ecell'. injection Ecell' as <-.
      rewrite Eocc in Eocc'. injection Eocc' as <-.
      intros m. rewrite (leading_captures_members moves Hshape), Hmem. split.
      + intros ((direction & Hdir & Hlegal) & Hcap).
        exists direction. split; [exact Hdir |].
        exact (proj1 (legal_along_capture _ _ _ _ _ Hlegal) Hcap).
      + intros (direction & Hdir & -> & Henemy & Hempty).
        split; [| reflexivity]. exists direction. split; [exact Hdir |].
        right. auto.
    - exists []. split; [reflexivity |]. intros m. split; [intros [] |].
      intros (direction & Hdir & -> & Henemy & Hempty).
      assert (Hlegal : legal_along (status self) (color p) loc direction
                                   (jump_move loc direction))
        by (right; auto).
      destruct (generated_entry_exists _ _ d loc start_cell p direction _
                  Hst Ed Hon Ecell Eocc eq_refl Hdir Hlegal)
        as (moves & Hfind' & _).
      congruence. }
  destruct Hcaps as (caps & Ecaps & Hmem).
  unfold get_additional_jump. rewrite Ed. cbn [bind]. rewrite Ecaps.
  cbn [bind]. destruct caps as [| m caps].
  - eexists. eexists. split; [reflexivity |]. split; [exact Hmem |].
    split; [reflexivity | intros H; contradiction].
  - eexists. eexists. split; [reflexivity |]. split; [exact Hmem |].
    split; [discriminate | reflexivity].
Qed.

(** X11.  The continuation check is complete.  For the cell of the
    board at [loc] holding a piece, [get_additional_jump] with the
    colour of that piece returns exactly the legal jumps of the piece
    from [loc]; it completes the current turn when there is none and
    leaves the game as it is otherwise. *)
Theorem get_additional_jump_all_jumps
        (self : Game) (loc : Loc) (start_cell : Cell) (p : Piece) :
  board_ok (status self) = true ->
  on_board loc = true ->
  status_get (status self) loc = Ok start_cell ->
  occupant start_cell = Some p ->
  exists possible_capture self',
    get_additional_jump self start_cell (color p) = Ok (possible_capture, self')
    /\ (forall m,
          In m possible_capture
          <-> exists direction,
                In direction (piece_directions p)
                /\ m = jump_move loc direction
                /\ enemy_at (status self) (color p)
                            (get_next_cell_in_direction loc direction)
                /\ empty_at (status self)
                            (get_next_cell_in_direction
                               (get_next_cell_in_direction loc direction)
                               direction))
    /\ (possible_capture = [] ->
        self' = set_current_turn self (complete_turn (current_turn self)))
    /\ (possible_capture <> [] -> self' = self).
Proof. exact (get_additional_jump_jumps self loc start_cell p). Qed.

Lemma get_additional_jump_all_jumps_witness :
  board_ok (status capture_game) = true
  /\ on_board (2, 1) = true
  /\ status_get (status capture_game) (2, 1)
     = Ok (mkCell false (2, 1) (Some black_man))
  /\ exists possible_capture self',
       get_additional_jump capture_game (mkCell false (2, 1) (Some black_man))
                           (color black_man)
       = Ok (possible_capture, self')
       /\ (forall m,
             In m possible_capture
             <-> exists direction,
                   In direction (piece_directions black_man)
                   /\ m = jump_move (2, 1) direction
                   /\ enemy_at (status capture_game) (color black_man)
                               (get_next_cell_in_direction (2, 1) direction)
                   /\ empty_at (status capture_game)
                               (get_next_cell_in_direction
                                  (get_next_cell_in_direction (2, 1) direction)
                                  direction))
       /\ (possible_capture = [] ->
           self' = set_current_turn capture_game
                     (complete_turn (current_turn capture_game)))
       /\ (possible_capture <> [] -> self' = capture_game).
Proof.
  split; [reflexivity |]. split; [reflexivity |]. split; [reflexivity |].
  apply (get_additional_jump_all_jumps capture_game (2, 1)
           (mkCell false (2, 1) (Some black_man)) black_man);
    reflexivity.
Defined.

(** ** When a click is accepted *)

Lemma is_valid_turn_target_spec (t : Turn) (loc : Loc) :
  is_capture_required t = Ok (capture_required t) ->
  is_valid_turn_target t loc
  = match find_clicked_target t loc with
    | Some target =>
        if is_capture target || negb (capture_required t)
        then Ok (true, finish_piece_move t target)
        else Ok (false, t)
    | None => Ok (false, t)
    end.
Proof.
  intros Hreq. unfold is_valid_turn_target.
  destruct (find_clicked_target t loc) as [target |]; [| reflexivity].
  destruct (is_capture target); cbn [bind orb]; [reflexivity |].
  rewrite Hreq. cbn [bind]. reflexivity.
Qed.

Lemma is_valid_turn_accepts (t : Turn) (loc : Loc) :
  Turn_inv t ->
  exists b t',
    is_valid_turn t loc = Ok (b, t')
    /\ (b = true
        <-> (step t = NEW_TURN
             /\ exists first rest,
                  dict_find (valid_moves t) loc = Some (first :: rest)
                  /\ (capture_required t = true -> is_capture first = true)
                  /\ t' = set_possible_targets
                            (set_step t VALID_PIECE_SELECTED) (first :: rest))
            \/ (step t <> NEW_TURN /\ step t <> MOVE_COMPLETE
                /\ exists target,
                     find_clicked_target t loc = Some target
                     /\ (capture_required t = true -> is_capture target = true)
                     /\ t' = finish_piece_move t target)).
Proof.
  intros Hinv. pose proof Hinv as (Hvm & Hreq & Htargets).
  unfold is_valid_turn, playable_cell_selected, is_turn_complete, dict_mem.
  destruct (step t =? NEW_TURN) eqn:E0.
  - apply Z.eqb_eq in E0.
    destruct (dict_find (valid_moves t) loc) as [l |] eqn:Hfind; cbn [negb].
    2: { exists false, t. split; [reflexivity |]. split; [discriminate |].
         intros [(_ & f & r & H & _) | (H & _)]; [discriminate H | contradiction]. }
    destruct l as [| first rest].
    { rewrite Forall_forall in Hvm.
      exfalso. exact (Hvm _ (dict_find_In _ _ _ Hfind) eq_refl). }
    rewrite (allowed_start_piece_spec t loc first rest Hreq Hfind).
    cbn [bind]. rewrite (is_valid_turn_target_spec t loc Hreq).
    rewrite (find_clicked_target_nil t loc (Htargets E0)).
    destruct (capture_required t) eqn:Eflag; cbn [negb orb].
    + destruct (is_capture first) eqn:Efirst.
      * rewrite (finish_initial_selection_find t loc _ Hfind). cbn [bind].
        replace (step t + 1) with VALID_PIECE_SELECTED
          by (rewrite E0; reflexivity).
        eexists. eexists. split; [reflexivity |].
        split; [| reflexivity]. intros _. left. split; [exact E0 |].
        exists first, rest. auto.
      * exists false, t. split; [reflexivity |]. split; [discriminate |].
        intros [(_ & f & r & [= <- <-] & H & _) | (H & _)];
          [specialize (H eq_refl); congruence | contradiction].
    + rewrite (finish_initial_selection_find t loc _ Hfind). cbn [bind].
      replace (step t + 1) with VALID_PIECE_SELECTED
        by (rewrite E0; reflexivity).
      eexists. eexists. split; [reflexivity |].
      split; [| reflexivity]. intros _. left. split; [exact E0 |].
      exists first, rest. repeat split. discriminate.
  - apply Z.eqb_neq in E0.
    destruct (step t =? MOVE_COMPLETE) eqn:E3; cbn [negb].
    { apply Z.eqb_eq in E3. exists false, t. split; [reflexivity |].
      split; [discriminate |].
      intros [(H & _) | (_ & H & _)]; contradiction. }
    apply Z.eqb_neq in E3.
    rewrite (is_valid_turn_target_spec t loc Hreq).
    destruct (find_clicked_target t loc) as [target |] eqn:Efind; cbn [negb].
    2: { exists false, t. split; [reflexivity |]. split; [discriminate |].
         intros [(H & _) | (_ & _ & target & H & _)];
           [contradiction | discriminate H]. }
    destruct (is_capture target || negb (capture_required t)) eqn:Eok.
    + eexists. eexists. split; [reflexivity |]. split; [| reflexivity].
      intros _. right. split; [exact E0 |]. split; [exact E3 |].
      exists target. split; [reflexivity |]. split; [| reflexivity].
      intros Hflag. rewrite Hflag in Eok.
      destruct (is_capture target); [reflexivity | discriminate Eok].
    + exists false, t. split; [reflexivity |]. split; [discriminate |].
      intros [(H & _) | (_ & _ & target' & [= <-] & H & _)];
        [contradiction |].
      destruct (capture_required t); [| rewrite orb_true_r in Eok; discriminate].
      rewrite (H eq_refl) in Eok. discriminate Eok.
Qed.

(** X12.  Under the invariant of turns, [is_valid_turn] accepts a
    click in exactly two situations: at NEW_TURN on a key of
    [valid_moves] whose list starts with a capture whenever a capture is
    required (the turn then lists that key's moves as targets), and in an
    incomplete turn past NEW_TURN on the destination of a target, the
    first such target being a capture whenever one is required (the turn
    then commits that target).  A complete turn accepts nothing. *)
Theorem is_valid_turn_accepts_iff (t : Turn) (loc : Loc) :
  Turn_inv t ->
  exists b t',
    is_valid_turn t loc = Ok (b, t')
    /\ (b = true
        <-> (step t = NEW_TURN
             /\ exists first rest,
                  dict_find (valid_moves t) loc = Some (first :: rest)
                  /\ (capture_required t = true -> is_capture first = true)
                  /\ t' = set_possible_targets
                            (set_step t VALID_PIECE_SELECTED) (first :: rest))
            \/ (step t <> NEW_TURN /\ step t <> MOVE_COMPLETE
                /\ exists target,
                     find_clicked_target t loc = Some target
                     /\ (capture_required t = true -> is_capture target = true)
                     /\ t' = finish_piece_move t target)).
Proof. exact (is_valid_turn_accepts t loc). Qed.

Lemma is_valid_turn_accepts_iff_witness :
  Turn_inv capture_turn
  /\ exists b t',
       is_valid_turn capture_turn (2, 1) = Ok (b, t')
       /\ (b = true
           <-> (step capture_turn = NEW_TURN
                /\ exists first rest,
                     dict_find (valid_moves capture_turn) (2, 1)
                     = Some (first :: rest)
                     /\ (capture_required capture_turn = true ->
                         is_capture first = true)
                     /\ t' = set_possible_targets
                               (set_step capture_turn VALID_PIECE_SELECTED)
                               (first :: rest))
               \/ (step capture_turn <> NEW_TURN
                   /\ step capture_turn <> MOVE_COMPLETE
                   /\ exists target,
                        find_clicked_target capture_turn (2, 1) = Some target
                        /\ (capture_required capture_turn = true ->
                            is_capture target = true)
                        /\ t' = finish_piece_move capture_turn target)).
Proof.
  split; [exact capture_turn_inv |].
  apply (is_valid_turn_accepts_iff capture_turn (2, 1)).
  exact capture_turn_inv.
Defined.

(** ** A turn played by clicks *)

Lemma legal_along_current_loc (st : Status) (c : Color) (loc direction : Loc)
      (m : Move) :
  legal_along st c loc direction m -> current_loc m = loc.
Proof. intros [(-> & _) | (-> & _)]; reflexivity. Qed.

Lemma turn_two_clicks (st : Status) (c : Color) (vm : Moves)
      (t t1 t2 : Turn) (loc loc2 : Loc) :
  board_ok st = true ->
  valid_moves_for_color st c = Ok vm ->
  Turn_init c vm = Ok t ->
  is_valid_turn t loc = Ok (true, t1) ->
  is_valid_turn t1 loc2 = Ok (true, t2) ->
  exists m cell p direction,
    final_move t2 = Some m
    /\ current_loc m = loc /\ new_loc m = loc2
    /\ status_get st loc = Ok cell /\ occupant cell = Some p /\ color p = c
    /\ In direction (piece_directions p)
    /\ legal_along st c loc direction m
    /\ (capture_required t = true -> is_capture m = true)
    /\ step t2 = (if capture_required t then CHECK_MULTIPLE_JUMPS
                  else MOVE_COMPLETE).
Proof.
  intros Hst Evm Et E1 E2.
  destruct (valid_moves_for_color_nonempty st c Hst) as (vm' & Evm' & Hvm).
  rewrite Evm in Evm'. injection Evm' as <-.
  destruct (Turn_init_inv c vm Hvm) as (t' & Et' & Hinv & _ & Hstep & Evalid).
  rewrite Et in Et'. injection Et' as <-.
  destruct (is_valid_turn_accepts t loc Hinv) as (b & t1' & E1' & Hacc1).
  rewrite E1 in E1'. injection E1' as <- <-.
  destruct (proj1 Hacc1 eq_refl)
    as [(_ & first & rest & Hfind & _ & ->) | (H & _)];
    [| contradiction].
  pose proof (is_valid_turn_inv _ _ _ _ Hinv E1) as Hinv1.
  destruct (is_valid_turn_accepts _ loc2 Hinv1) as (b & t2' & E2' & Hacc2).
  rewrite E2 in E2'. injection E2' as <- <-.
  destruct (proj1 Hacc2 eq_refl)
    as [(H & _) | (_ & _ & target & Etarget & Hcap & ->)];
    [discriminate H |].
  pose proof (find_clicked_target_spec
                (set_possible_targets (set_step t VALID_PIECE_SELECTED)
                                      (first :: rest)) loc2) as Hspec.
  rewrite Etarget in Hspec.
  destruct Hspec as (before & after & Hsplit & Hnew & _). simpl in Hsplit.
  assert (Hin : In target (first :: rest))
    by (rewrite Hsplit; apply in_elt).
  rewrite Evalid in Hfind.
  destruct (generated_entry st c vm loc _ Hst Evm Hfind)
    as (_ & _ & _ & cell & p & Ecell & Eocc & Hcolor & Hmem).
  destruct (proj1 (Hmem target) Hin) as (direction & Hdir & Hlegal).
  exists target, cell, p, direction.
  split; [reflexivity |].
  split; [exact (legal_along_current_loc _ _ _ _ _ Hlegal) |].
  split; [exact Hnew |]. split; [exact Ecell |]. split; [exact Eocc |].
  split; [exact Hcolor |]. split; [exact Hdir |]. split; [exact Hlegal |].
  split; [exact Hcap | reflexivity].
Qed.

(** X13.  A turn played by clicks commits a legal move.  On the turn
    that [Turn.__init__] builds from [valid_moves_for_color] on a board,
    when [is_valid_turn] accepts a first click and then a second one,
    the turn's [final_move] goes from the first clicked cell to the
    second, is a legal step or jump on that board of the player's piece
    standing on the first cell, is a capture if a capture was required,
    and the step is CHECK_MULTIPLE_JUMPS under forced capture and
    MOVE_COMPLETE otherwise. *)
Theorem two_clicks_commit_legal_move
        (st : Status) (c : Color) (vm : Moves) (t t1 t2 : Turn)
        (loc loc2 : Loc) :
  board_ok st = true ->
  valid_moves_for_color st c = Ok vm ->
  Turn_init c vm = Ok t ->
  is_valid_turn t loc = Ok (true, t1) ->
  is_valid_turn t1 loc2 = Ok (true, t2) ->
  exists m cell p direction,
    final_move t2 = Some m
    /\ current_loc m = loc /\ new_loc m = loc2
    /\ status_get st loc = Ok cell /\ occupant cell = Some p /\ color p = c
    /\ In direction (piece_directions p)
    /\ legal_along st c loc direction m
    /\ (capture_required t = true -> is_capture m = true)
    /\ step t2 = (if capture_required t then CHECK_MULTIPLE_JUMPS
                  else MOVE_COMPLETE).
Proof. exact (turn_two_clicks st c vm t t1 t2 loc loc2). Qed.

Lemma two_clicks_commit_legal_move_witness :
  board_ok capture_status = true
  /\ valid_moves_for_color capture_status BLACK = Ok capture_moves
  /\ Turn_init BLACK capture_moves = Ok capture_turn
  /\ is_valid_turn capture_turn (2, 1) = Ok (true, capture_turn_selected)
  /\ is_valid_turn capture_turn_selected (4, 3)
     = Ok (true, capture_turn_committed)
  /\ exists m cell p direction,
       final_move capture_turn_committed = Some m
       /\ current_loc m = (2, 1) /\ new_loc m = (4, 3)
       /\ status_get capture_status (2, 1) = Ok cell
       /\ occupant cell = Some p /\ color p = BLACK
       /\ In direction (piece_directions p)
       /\ legal_along capture_status BLACK (2, 1) direction m
       /\ (capture_required capture_turn = true -> is_capture m = true)
       /\ step capture_turn_committed
          = (if capture_required capture_turn then CHECK_MULTIPLE_JUMPS
             else MOVE_COMPLETE).
Proof.
  assert (H1 : board_ok capture_status = true) by (vm_compute; reflexivity).
  assert (H2 : valid_moves_for_color capture_status BLACK = Ok capture_moves)
    by (vm_compute; reflexivity).
  assert (H3 : Turn_init BLACK capture_moves = Ok capture_turn)
    by (vm_compute; reflexivity).
  assert (H4 : is_valid_turn capture_turn (2, 1)
               = Ok (true, capture_turn_selected))
    by (vm_compute; reflexivity).
  assert (H5 : is_valid_turn capture_turn_selected (4, 3)
               = Ok (true, capture_turn_committed))
    by (vm_compute; reflexivity).
  split; [exact H1 |]. split; [exact H2 |]. split; [exact H3 |].
  split; [exact H4 |]. split; [exact H5 |].
  exact (two_clicks_commit_legal_move capture_status BLACK capture_moves
           capture_turn capture_turn_selected capture_turn_committed
           (2, 1) (4, 3) H1 H2 H3 H4 H5).
Defined.

(** ** Counting the pieces *)

Lemma all_cells_containing_color_eq (st : Status) (c : Color) :
  board_ok st = true ->
  all_cells_containing_color st c = Ok (pieces_of st c).
Proof.
  intros Hst. unfold all_cells_containing_color, pieces_of.
  rewrite (for_each_append
             _ (fun row =>
                  flat_map (fun col =>
                              if holds_color st c (row, col) then [(row, col)]
                              else [])
                           (range SIZE)));
    [rewrite (board_ok_len st Hst); reflexivity |].
  intros pieces row Hrow.
  rewrite (board_ok_len st Hst) in Hrow. apply In_range in Hrow.
  destruct (board_ok_row st row Hst Hrow) as (cells & Ecells & Hcells).
  rewrite py_index_nonneg by lia. rewrite Ecells. cbn [bind].
  rewrite (row_ok_len cells row Hcells).
  apply (for_each_append
           _ (fun col => if holds_color st c (row, col) then [(row, col)]
                         else [])).
  intros pieces' col Hcol. apply In_range in Hcol.
  assert (Hon : on_board (row, col) = true)
    by (apply on_board_bounds; simpl; lia).
  destruct (status_get_on_board st (row, col) Hst Hon) as (cell & Ecell & _).
  unfold holds_color. rewrite Ecell. cbn [bind].
  destruct (contains_piece cell c); [reflexivity |].
  rewrite app_nil_r. reflexivity.
Qed.

Lemma pieces_of_In (st : Status) (c : Color) (loc : Loc) :
  In loc (pieces_of st c)
  <-> on_board loc = true /\ holds_color st c loc = true.
Proof.
  unfold pieces_of. rewrite in_flat_map. split.
  - intros (row & Hrow & Hloc). rewrite in_flat_map in Hloc.
    destruct Hloc as (col & Hcol & Hloc). apply In_range in Hrow, Hcol.
    destruct (holds_color st c (row, col)) eqn:E; [| destruct Hloc].
    destruct Hloc as [<- | []].
    split; [apply on_board_bounds; simpl; lia | exact E].
  - intros (Hon & Hholds). apply on_board_bounds in Hon.
    destruct loc as [row col]. simpl in Hon.
    exists row. split; [apply In_range; lia |]. rewrite in_flat_map.
    exists col. split; [apply In_range; lia |]. rewrite Hholds.
    left. reflexivity.
Qed.

Lemma NoDup_flat_map {A B : Type} (F : A -> list B) (l : list A) :
  NoDup l ->
  (forall a, In a l -> NoDup (F a)) ->
  (forall a b x, In a l -> In b l -> In x (F a) -> In x (F b) -> a = b) ->
  NoDup (flat_map F l).
Proof.
  induction 1 as [| a l Ha Hl IH]; intros HF Hdisj; simpl.
  - constructor.
  - apply NoDup_app.
    + apply HF. left. reflexivity.
    + apply IH.
      * intros b Hb. apply HF. right. exact Hb.
      * intros b b' x Hb Hb'. apply Hdisj; right; assumption.
    + intros x Hx Hx'. apply in_flat_map in Hx'.
      destruct Hx' as (b & Hb & Hxb).
      assert (a = b)
        by (apply (Hdisj a b x); [left; reflexivity | right; exact Hb
                                  | exact Hx | exact Hxb]).
      subst b. contradiction.
Qed.

Lemma NoDup_range (n : Z) : NoDup (range n).
Proof.
  unfold range. generalize (seq_NoDup (Z.to_nat n) 0).
  induction 1 as [| k l Hk Hl IH]; simpl; constructor; [| exact IH].
  rewrite in_map_iff. intros (k' & E & Hk'). apply Nat2Z.inj in E.
  subst k'. contradiction.
Qed.

Lemma pieces_of_NoDup (st : Status) (c : Color) : NoDup (pieces_of st c).
Proof.
  unfold pieces_of. apply NoDup_flat_map.
  - apply NoDup_range.
  - intros row _. apply NoDup_flat_map.
    + apply NoDup_range.
    + intros col _. destruct (holds_color st c (row, col)); repeat constructor.
      intros [].
    + intros col col' x _ _ Hx Hx'.
      destruct (holds_color st c (row, col)); [| destruct Hx].
      destruct (holds_color st c (row, col')); [| destruct Hx'].
      destruct Hx as [<- | []]. destruct Hx' as [[=] | []]. congruence.
  - intros row row' x _ _ Hx Hx'. rewrite in_flat_map in Hx, Hx'.
    destruct Hx as (col & _ & Hx). destruct Hx' as (col' & _ & Hx').
    destruct (holds_color st c (row, col)); [| destruct Hx].
    destruct (holds_color st c (row', col')); [| destruct Hx'].
    destruct Hx as [<- | []]. destruct Hx' as [[=] | []]. congruence.
Qed.

Lemma count_color_eq (st : Status) (c : Color) :
  board_ok st = true -> count_color st c = len (pieces_of st c).
Proof.
  intros Hst. unfold count_color.
  rewrite (all_cells_containing_color_eq st c Hst). reflexivity.
Qed.

Lemma Loc_eq_dec (a b : Loc) : {a = b} + {a <> b}.
Proof.
  destruct (Loc_eqb a b) eqn:E.
  - left. apply Loc_eqb_eq. exact E.
  - right. apply Loc_eqb_neq. exact E.
Qed.

(** The same cells hold the colour: the same number of pieces. *)
Lemma len_pieces_same (st st' : Status) (c : Color) :
  (forall x, on_board x = true -> holds_color st' c x = holds_color st c x) ->
  len (pieces_of st' c) = len (pieces_of st c).
Proof.
  intros Hsame. unfold len. f_equal. apply Permutation_length.
  apply NoDup_Permutation; try apply pieces_of_NoDup.
  intros x. rewrite !pieces_of_In. split; intros (Hon & H).
  - split; [exact Hon |]. rewrite <- (Hsame x Hon). exact H.
  - split; [exact Hon |]. rewrite (Hsame x Hon). exact H.
Qed.

(** A piece of the colour went from [A] to [B]. *)
Lemma len_pieces_moved (st st' : Status) (c : Color) (A B : Loc) :
  on_board A = true -> on_board B = true ->
  holds_color st c A = true -> holds_color st c B = false ->
  holds_color st' c A = false -> holds_color st' c B = true ->
  (forall x, on_board x = true -> x <> A -> x <> B ->
             holds_color st' c x = holds_color st c x) ->
  len (pieces_of st' c) = len (pieces_of st c).
Proof.
  intros HonA HonB HA HB HA' HB' Hsame.
  assert (Hperm : Permutation (A :: pieces_of st' c) (B :: pieces_of st c)).
  { apply NoDup_Permutation.
    - constructor; [| apply pieces_of_NoDup].
      rewrite pieces_of_In. intros (_ & H). congruence.
    - constructor; [| apply pieces_of_NoDup].
      rewrite pieces_of_In. intros (_ & H). congruence.
    - intros x. simpl. rewrite !pieces_of_In.
      destruct (Loc_eq_dec x A) as [-> | HxA].
      + split; intros _; [right | left]; auto.
      + destruct (Loc_eq_dec x B) as [-> | HxB].
        * split; intros _; [left | right]; auto.
        * split.
          -- intros [H | (Hon & H)]; [congruence |]. right.
             split; [exact Hon |]. rewrite <- (Hsame x Hon HxA HxB). exact H.
          -- intros [H | (Hon & H)]; [congruence |]. right.
             split; [exact Hon |]. rewrite (Hsame x Hon HxA HxB). exact H. }
  apply Permutation_length in Hperm. simpl in Hperm. unfold len. lia.
Qed.

(** A piece of the colour was taken from [X]. *)
Lemma len_pieces_removed (st st' : Status) (c : Color) (X : Loc) :
  on_board X = true ->
  holds_color st c X = true -> holds_color st' c X = false ->
  (forall x, on_board x = true -> x <> X ->
             holds_color st' c x = holds_color st c x) ->
  len (pieces_of st' c) = len (pieces_of st c) - 1.
Proof.
  intros HonX HX HX' Hsame.
  assert (Hperm : Permutation (X :: pieces_of st' c) (pieces_of st c)).
  { apply NoDup_Permutation.
    - constructor; [| apply pieces_of_NoDup].
      rewrite pieces_of_In. intros (_ & H). congruence.
    - apply pieces_of_NoDup.
    - intros x. simpl. rewrite !pieces_of_In.
      destruct (Loc_eq_dec x X) as [-> | HxX].
      + split; intros _; [| left]; auto.
      + split.
        * intros [H | (Hon & H)]; [congruence |].
          split; [exact Hon |]. rewrite <- (Hsame x Hon HxX). exact H.
        * intros (Hon & H). right. split; [exact Hon |].
          rewrite (Hsame x Hon HxX). exact H. }
  apply Permutation_length in Hperm. simpl in Hperm. unfold len. lia.
Qed.

(** ** What a move does to the whole board *)

Lemma holds_color_occ (st : Status) (c : Color) (loc : Loc) :
  holds_color st c loc = match occ_at st loc with
                         | Some p => Color_eqb (color p) c
                         | None => false
                         end.
Proof.
  unfold holds_color, occ_at, contains_piece, is_empty.
  destruct (status_get st loc) as [cell | e]; [| reflexivity].
  destruct (occupant cell); reflexivity.
Qed.

Lemma occ_at_set (st : Status) (loc : Loc) (o : option Piece) :
  board_ok st = true -> on_board loc = true ->
  exists st',
    status_set_occupant st loc o = Ok st'
    /\ board_ok st' = true
    /\ forall loc', on_board loc' = true ->
                    occ_at st' loc' = if Loc_eqb loc' loc then o
                                      else occ_at st loc'.
Proof.
  intros Hst Hon.
  destruct (status_set_occupant_get st loc o Hst Hon)
    as (st' & cell & _ & Eset & Hst' & Hget).
  exists st'. split; [exact Eset |]. split; [exact Hst' |].
  intros loc' Hon'. unfold occ_at. rewrite (Hget loc' Hon').
  destruct (Loc_eqb loc' loc); reflexivity.
Qed.

Lemma occ_at_status_get (st : Status) (loc : Loc) :
  board_ok st = true -> on_board loc = true ->
  exists cell, status_get st loc = Ok cell /\ occupant cell = occ_at st loc.
Proof.
  intros Hst Hon. destruct (status_get_on_board st loc Hst Hon) as (cell & E & _).
  exists cell. split; [exact E |]. unfold occ_at. rewrite E. reflexivity.
Qed.

(** [update_state] on a move of the board, cell by cell. *)
Lemma update_state_occupants (self : Game) (move : Move) :
  board_ok (status self) = true ->
  move_on_board move = true ->
  exists self',
    update_state self move = Ok self'
    /\ board_ok (status self') = true
    /\ current_turn self' = current_turn self
    /\ winner self' = winner self
    /\ score self' (opponent (player (current_turn self)))
       = score self (opponent (player (current_turn self)))
    /\ score self' (player (current_turn self))
       = score self (player (current_turn self))
         + (if is_capture move then 1 else 0)
    /\ forall loc,
         on_board loc = true ->
         occ_at (status self') loc
         = if match capturing move with
              | Some captured => Loc_eqb loc captured
              | None => false
              end
           then None
           else if Loc_eqb loc (current_loc move) then None
           else if Loc_eqb loc (new_loc move)
           then option_map (moved_piece move)
                           (occ_at (status self) (current_loc move))
           else occ_at (status self) loc.
Proof.
  intros Hst Hmove. unfold move_on_board in Hmove.
  apply andb_prop in Hmove. destruct Hmove as [Hmove Hcap].
  apply andb_prop in Hmove. destruct Hmove as [Hold Hnew].
  unfold update_state.
  destruct (status_get_on_board _ _ Hst Hnew) as (n0 & En0 & _).
  destruct (occ_at_status_get _ _ Hst Hold) as (old_cell & Eold & Hocc_old).
  rewrite En0, Eold. cbn [bind].
  destruct (occ_at_set (status self) (new_loc move) (occupant old_cell)
              Hst Hnew) as (st1 & E1 & Hst1 & Hocc1).
  rewrite E1. cbn [bind].
  destruct (occ_at_status_get _ _ Hst1 Hnew) as (new_cell & Enew & Hocc_new).
  rewrite (Hocc1 _ Hnew), Loc_eqb_refl in Hocc_new.
  rewrite Enew. cbn [bind].
  assert (Hking : exists st2,
             (if (fst (new_loc move) =? BLACK_KING_ROW)
                 && contains_piece new_cell BLACK
                 || (fst (new_loc move) =? RED_KING_ROW)
                    && contains_piece new_cell RED
              then piece <- occupant_attr new_cell ;;
                   status_set_occupant st1 (new_loc move)
                                       (Some (make_king piece))
              else Ok st1) = Ok st2
             /\ board_ok st2 = true
             /\ forall loc, on_board loc = true ->
                  occ_at st2 loc
                  = if Loc_eqb loc (new_loc move)
                    then option_map (moved_piece move) (occupant old_cell)
                    else occ_at st1 loc).
  { unfold contains_piece, is_empty, occupant_attr. rewrite Hocc_new.
    destruct (occupant old_cell) as [p |]; simpl option_map.
    - unfold moved_piece, reaches_king_row.
      destruct ((fst (new_loc move) =? BLACK_KING_ROW)
                && Color_eqb (color p) BLACK
                || (fst (new_loc move) =? RED_KING_ROW)
                   && Color_eqb (color p) RED).
      + cbn [bind].
        destruct (occ_at_set st1 (new_loc move) (Some (make_king p))
                    Hst1 Hnew) as (st2 & E2 & Hst2 & Hocc2).
        exists st2. split; [exact E2 |]. split; [exact Hst2 |]. exact Hocc2.
      + exists st1. split; [reflexivity |]. split; [exact Hst1 |].
        intros loc Hon. rewrite (Hocc1 loc Hon).
        destruct (Loc_eqb loc (new_loc move)); reflexivity.
    - rewrite !andb_false_r. simpl.
      exists st1. split; [reflexivity |]. split; [exact Hst1 |].
      intros loc Hon. rewrite (Hocc1 loc Hon).
      destruct (Loc_eqb loc (new_loc move)); reflexivity. }
  destruct Hking as (st2 & E2 & Hst2 & Hocc2). rewrite E2. cbn [bind].
  destruct (occ_at_set st2 (current_loc move) None Hst2 Hold)
    as (st3 & E3 & Hst3 & Hocc3).
  rewrite E3. cbn [bind].
  assert (Hocc : forall loc, on_board loc = true ->
             occ_at st3 loc
             = if Loc_eqb loc (current_loc move) then None
               else if Loc_eqb loc (new_loc move)
               then option_map (moved_piece move)
                               (occ_at (status self) (current_loc move))
               else occ_at (status self) loc).
  { intros loc Hon. rewrite (Hocc3 loc Hon), (Hocc2 loc Hon), (Hocc1 loc Hon).
    rewrite Hocc_old.
    destruct (Loc_eqb loc (current_loc move)); [reflexivity |].
    destruct (Loc_eqb loc (new_loc move)); reflexivity. }
  unfold is_capture. destruct (capturing move) as [captured |] eqn:Ecap.
  - set (self1 := if Color_eqb (player (current_turn (set_status self st3))) BLACK
                  then set_black_score (set_status self st3)
                                       (black_score (set_status self st3) + 1)
                  else set_red_score (set_status self st3)
                                     (red_score (set_status self st3) + 1)).
    assert (E : status self1 = st3)
      by (unfold self1;
          destruct (Color_eqb (player (current_turn (set_status self st3))) BLACK);
          reflexivity).
    rewrite E.
    destruct (occ_at_set st3 captured None Hst3 Hcap)
      as (st4 & E4 & Hst4 & Hocc4).
    rewrite E4. cbn [bind]. eexists. split; [reflexivity |].
    simpl status. split; [exact Hst4 |].
    split; [unfold self1; simpl;
            destruct (Color_eqb (player (current_turn self)) BLACK);
            reflexivity |].
    split; [unfold self1; simpl;
            destruct (Color_eqb (player (current_turn self)) BLACK);
            reflexivity |].
    split; [unfold self1; simpl;
            destruct (player (current_turn self)); reflexivity |].
    split; [unfold self1; simpl;
            destruct (player (current_turn self)); reflexivity |].
    intros loc Hon. rewrite (Hocc4 loc Hon), (Hocc loc Hon). reflexivity.
  - eexists. split; [reflexivity |]. simpl status. split; [exact Hst3 |].
    split; [reflexivity |]. split; [reflexivity |]. split; [reflexivity |].
    split; [simpl; destruct (player (current_turn self)); simpl; lia |].
    intros loc Hon. rewrite (Hocc loc Hon). reflexivity.
Qed.

Lemma color_moved_piece (m : Move) (p : Piece) :
  color (moved_piece m p) = color p.
Proof.
  unfold moved_piece. destruct (reaches_king_row (fst (new_loc m)) p);
    reflexivity.
Qed.

Lemma empty_at_occ (st : Status) (loc : Loc) :
  empty_at st loc -> on_board loc = true /\ occ_at st loc = None.
Proof.
  intros (Hon & cell & E & Hempty). split; [exact Hon |].
  unfold occ_at. rewrite E. apply is_empty_occupant. exact Hempty.
Qed.

Lemma enemy_at_occ (st : Status) (c : Color) (loc : Loc) :
  enemy_at st c loc ->
  on_board loc = true
  /\ exists q, occ_at st loc = Some q /\ color q = opponent c.
Proof.
  intros (Hon & cell & q & E & Hocc & Henemy). split; [exact Hon |].
  exists q. split; [unfold occ_at; rewrite E; exact Hocc |].
  unfold is_enemy in Henemy. destruct (color q), c; simpl in *;
    congruence.
Qed.

Lemma Color_eqb_opponent (c : Color) : Color_eqb c (opponent c) = false.
Proof. destruct c; reflexivity. Qed.

Lemma Color_eqb_refl (c : Color) : Color_eqb c c = true.
Proof. destruct c; reflexivity. Qed.

(** A legal move applied by [update_state] keeps the account of pieces
    and scores, and the moved piece stands on the destination. *)
Lemma update_state_legal (self : Game) (m : Move) :
  board_ok (status self) = true ->
  conserved self ->
  legal_move (status self) (player (current_turn self)) m ->
  exists self' p,
    update_state self m = Ok self'
    /\ board_ok (status self') = true
    /\ conserved self'
    /\ current_turn self' = current_turn self
    /\ winner self' = winner self
    /\ on_board (new_loc m) = true
    /\ on_board (current_loc m) = true
    /\ occ_at (status self') (new_loc m) = Some p
    /\ color p = player (current_turn self).
Proof.
  intros Hst [Hcons_b Hcons_r]
         (loc & cell & p & direction & Hon & Ecell & Eocc & Hcolor & _ & Hlegal).
  set (c := player (current_turn self)) in *.
  assert (HoccA : occ_at (status self) loc = Some p)
    by (unfold occ_at; rewrite Ecell; exact Eocc).
  set (B := new_loc m).
  assert (Hshape : current_loc m = loc
                   /\ on_board B = true /\ occ_at (status self) B = None
                   /\ B <> loc
                   /\ match capturing m with
                      | Some X =>
                          on_board X = true /\ X <> loc /\ X <> B
                          /\ exists q, occ_at (status self) X = Some q
                                       /\ color q = opponent c
                      | None => True
                      end).
  { destruct Hlegal as [(-> & Hempty) | (-> & Henemy & Hempty)];
      apply empty_at_occ in Hempty; destruct Hempty as [HonB HoccB];
      unfold B; simpl.
    - repeat split; try assumption. intros H. rewrite H in HoccB. congruence.
    - apply enemy_at_occ in Henemy. destruct Henemy as (HonX & q & HoccX & Hq).
      repeat split; try assumption.
      + intros H. rewrite H in HoccB. congruence.
      + intros H. rewrite H in HoccX. rewrite HoccA in HoccX.
        injection HoccX as <-. rewrite Hcolor in Hq. destruct c; discriminate.
      + intros H. rewrite H in HoccX. congruence.
      + exists q. auto. }
  destruct Hshape as (Hcur & HonB & HoccB & HBA & Hcapt).
  assert (Hmove : move_on_board m = true).
  { unfold move_on_board. rewrite Hcur, Hon. fold B. rewrite HonB. simpl.
    destruct (capturing m) as [X |]; [exact (proj1 Hcapt) | reflexivity]. }
  destruct (update_state_occupants self m Hst Hmove)
    as (self' & E & Hst' & Eturn & Ewin & Hopp & Hown & Hocc').
  fold c in Hopp, Hown. fold B in Hocc'. rewrite Hcur, HoccA in Hocc'.
  simpl option_map in Hocc'.
  assert (HoccB' : occ_at (status self') B = Some (moved_piece m p)).
  { rewrite (Hocc' B HonB), Loc_eqb_refl.
    rewrite (proj2 (Loc_eqb_neq B loc) HBA).
    destruct (capturing m) as [X |]; [| reflexivity].
    destruct Hcapt as (_ & _ & HXB & _).
    rewrite (proj2 (Loc_eqb_neq B X)); [reflexivity | congruence]. }
  exists self', (moved_piece m p).
  split; [exact E |]. split; [exact Hst' |].
  split; [| split; [exact Eturn | split; [exact Ewin |
          split; [exact HonB | split; [rewrite Hcur; exact Hon |
          split; [exact HoccB' | rewrite color_moved_piece; exact Hcolor]]]]]].
  (* the account *)
  assert (Hown_len : len (pieces_of (status self') c)
                     = len (pieces_of (status self) c)).
  { apply (len_pieces_moved _ _ c loc B); try assumption.
    - rewrite holds_color_occ, HoccA, Hcolor. apply Color_eqb_refl.
    - rewrite holds_color_occ, HoccB. reflexivity.
    - rewrite holds_color_occ, (Hocc' loc Hon), Loc_eqb_refl.
      destruct (capturing m) as [X |]; [destruct (Loc_eqb loc X) |];
        reflexivity.
    - rewrite holds_color_occ, HoccB', color_moved_piece, Hcolor.
      apply Color_eqb_refl.
    - intros x Hx HxA HxB. rewrite !holds_color_occ, (Hocc' x Hx).
      rewrite (proj2 (Loc_eqb_neq x loc) HxA), (proj2 (Loc_eqb_neq x B) HxB).
      destruct (capturing m) as [X |]; [| reflexivity].
      destruct (Loc_eqb x X) eqn:ExX; [| reflexivity].
      apply Loc_eqb_eq in ExX. subst x.
      destruct Hcapt as (_ & _ & _ & q & -> & Hq). rewrite Hq.
      destruct c; reflexivity. }
  assert (Hopp_len : len (pieces_of (status self') (opponent c))
                     = len (pieces_of (status self) (opponent c))
                       - (if is_capture m then 1 else 0)).
  { assert (HA : holds_color (status self) (opponent c) loc = false)
      by (rewrite holds_color_occ, HoccA, Hcolor; apply Color_eqb_opponent).
    assert (HA' : holds_color (status self') (opponent c) loc = false).
    { rewrite holds_color_occ, (Hocc' loc Hon), Loc_eqb_refl.
      destruct (capturing m) as [X |]; [destruct (Loc_eqb loc X) |];
        reflexivity. }
    assert (HB : holds_color (status self) (opponent c) B = false)
      by (rewrite holds_color_occ, HoccB; reflexivity).
    assert (HB' : holds_color (status self') (opponent c) B = false)
      by (rewrite holds_color_occ, HoccB', color_moved_piece, Hcolor;
          apply Color_eqb_opponent).
    unfold is_capture. destruct (capturing m) as [X |] eqn:Ecap.
    - destruct Hcapt as (HonX & HXA & HXB & q & HoccX & Hq).
      apply (len_pieces_removed _ _ (opponent c) X); try assumption.
      + rewrite holds_color_occ, HoccX, Hq. apply Color_eqb_refl.
      + rewrite holds_color_occ, (Hocc' X HonX), Loc_eqb_refl. reflexivity.
      + intros x Hx HxX.
        destruct (Loc_eq_dec x loc) as [-> | HxA]; [congruence |].
        destruct (Loc_eq_dec x B) as [-> | HxB]; [congruence |].
        rewrite !holds_color_occ, (Hocc' x Hx).
        rewrite (proj2 (Loc_eqb_neq x X) HxX),
                (proj2 (Loc_eqb_neq x loc) HxA),
                (proj2 (Loc_eqb_neq x B) HxB).
        reflexivity.
    - rewrite Z.sub_0_r. apply len_pieces_same. intros x Hx.
      destruct (Loc_eq_dec x loc) as [-> | HxA]; [congruence |].
      destruct (Loc_eq_dec x B) as [-> | HxB]; [congruence |].
      rewrite !holds_color_occ, (Hocc' x Hx).
      rewrite (proj2 (Loc_eqb_neq x loc) HxA),
              (proj2 (Loc_eqb_neq x B) HxB).
      reflexivity. }
  unfold conserved. rewrite !count_color_eq by assumption.
  rewrite !count_color_eq in Hcons_b, Hcons_r by assumption.
  destruct c; simpl in Hopp, Hown, Hown_len, Hopp_len; split; lia.
Qed.

(** ** The handlers of the front end *)

Lemma conserved_set_current_turn (self : Game) (t : Turn) :
  conserved (set_current_turn self t) <-> conserved self.
Proof. unfold conserved. simpl. tauto. Qed.

Lemma turn_on_board_complete (self : Game) :
  step (current_turn self) = MOVE_COMPLETE -> turn_on_board self.
Proof.
  intros H. unfold turn_on_board. rewrite H.
  split; [intros [H' | H']; discriminate H' |].
  split; [intros H'; discriminate H' |].
  split; [intros H'; discriminate H' |].
  unfold NEW_TURN, MOVE_COMPLETE. lia.
Qed.

(** [make_move] when the turn has just committed a legal move of its
    player, a capture exactly under forced capture. *)
Lemma make_move_committed (g0 : Game) (m : Move) :
  board_ok (status g0) = true ->
  conserved g0 ->
  Turn_inv (current_turn g0) ->
  legal_move (status g0) (player (current_turn g0)) m ->
  (capture_required (current_turn g0) = true <-> is_capture m = true) ->
  exists g',
    make_move (set_current_turn g0 (finish_piece_move (current_turn g0) m))
    = Ok g'
    /\ board_ok (status g') = true
    /\ conserved g'
    /\ Turn_inv (current_turn g')
    /\ turn_on_board g'
    /\ player (current_turn g') = player (current_turn g0)
    /\ winner g' = winner g0
    /\ (step (current_turn g') = MOVE_COMPLETE
        \/ step (current_turn g') = CHECK_MULTIPLE_JUMPS).
Proof.
  intros Hst Hcons Hinv Hlegal Hcap.
  set (t := finish_piece_move (current_turn g0) m).
  set (g := set_current_turn g0 t).
  assert (Hinv_t : Turn_inv t) by (apply finish_piece_move_inv; exact Hinv).
  assert (Hlegal_g : legal_move (status g) (player (current_turn g)) m)
    by exact Hlegal.
  destruct (update_state_legal g m Hst
              (proj2 (conserved_set_current_turn g0 t) Hcons) Hlegal_g)
    as (g1 & p & E1 & Hst1 & Hcons1 & Eturn1 & Ewin1 & HonB & HonA & HoccB
        & Hcolor).
  change (current_turn g) with t in Eturn1. simpl in Hcolor.
  destruct (occ_at_status_get _ _ Hst1 HonA) as (cellA & EcellA & _).
  destruct (occ_at_status_get _ _ Hst1 HonB) as (cellB & EcellB & HcellB).
  rewrite HoccB in HcellB.
  unfold make_move. change (current_turn g) with t.
  assert (Hstep_t : step t = if capture_required (current_turn g0)
                             then CHECK_MULTIPLE_JUMPS else MOVE_COMPLETE)
    by reflexivity.
  assert (E_sel : (step t =? VALID_PIECE_SELECTED) = false)
    by (rewrite Hstep_t; destruct (capture_required (current_turn g0));
        reflexivity).
  rewrite E_sel. change (final_move t) with (Some m). cbv beta iota.
  rewrite E1. cbn [bind]. rewrite EcellA, EcellB. cbn [bind].
  destruct (is_capture m) eqn:Ecapture.
  - assert (Hflag : capture_required (current_turn g0) = true)
      by (apply Hcap; reflexivity).
    rewrite Hflag in Hstep_t.
    cbn [bind]. rewrite Eturn1.
    change (player t) with (player (current_turn g0)). rewrite <- Hcolor.
    destruct (get_additional_jump_jumps g1 (new_loc m) cellB p
                Hst1 HonB EcellB HcellB)
      as (caps & g2 & E2 & Hjumps & Hnone & Hsome).
    rewrite E2. cbn [bind fst snd]. destruct caps as [| j caps].
    + specialize (Hnone eq_refl). subst g2. simpl.
      exists (set_current_turn g1 (complete_turn (current_turn g1))).
      split; [reflexivity |]. simpl. rewrite Eturn1.
      split; [exact Hst1 |].
      split; [apply conserved_set_current_turn; exact Hcons1 |].
      split; [apply complete_turn_inv; exact Hinv_t |].
      split; [| split; [first [exact Hcolor | symmetry; exact Hcolor | reflexivity] | split; [exact Ewin1 | left; reflexivity]]].
      apply turn_on_board_complete. reflexivity.
    + assert (Eg2 : g2 = g1) by (apply Hsome; discriminate). subst g2.
      change (len (j :: caps) >? 0) with true. cbv iota.
      exists (extend_turn g1 (j :: caps)). split; [reflexivity |].
      split; [exact Hst1 |].
      split; [unfold extend_turn; apply conserved_set_current_turn;
              exact Hcons1 |].
      assert (Hne : step (current_turn g1) <> NEW_TURN)
        by (rewrite Eturn1, Hstep_t; discriminate).
      split; [apply extend_turn_inv; [exact Hne | rewrite Eturn1; exact Hinv_t] |].
      unfold extend_turn. simpl. rewrite Eturn1.
      split; [| split; [first [exact Hcolor | symmetry; exact Hcolor | reflexivity] | split; [exact Ewin1 |
              right; exact Hstep_t]]].
      unfold turn_on_board. simpl. rewrite Hflag.
      split; [intros [H | H]; discriminate H |].
      split; [intros H; discriminate H |].
      split; [| unfold NEW_TURN, CHECK_MULTIPLE_JUMPS, MOVE_COMPLETE; lia].
      intros _. split; [reflexivity |]. split; [discriminate |].
      rewrite <- Hcolor.
      exists (new_loc m), cellB, p. auto.
  - assert (Hflag : capture_required (current_turn g0) = false).
    { destruct (capture_required (current_turn g0)); [| reflexivity].
      assert (H : false = true) by (apply Hcap; reflexivity). discriminate H. }
    rewrite Hflag in Hstep_t.
    exists g1. split; [reflexivity |]. split; [exact Hst1 |].
    split; [exact Hcons1 |]. rewrite Eturn1.
    split; [exact Hinv_t |].
    split; [| split; [reflexivity | split; [exact Ewin1 | left; exact Hstep_t]]].
    apply turn_on_board_complete. rewrite Eturn1. exact Hstep_t.
Qed.

(** A target offered for a selected piece is a legal move, and it is a
    capture exactly under forced capture, provided it is one then. *)
Lemma selected_target_legal (g : Game) (m : Move) :
  board_ok (status g) = true ->
  Turn_inv (current_turn g) ->
  turn_on_board g ->
  step (current_turn g) = VALID_PIECE_SELECTED ->
  In m (possible_targets (current_turn g)) ->
  (capture_required (current_turn g) = true -> is_capture m = true) ->
  legal_move (status g) (player (current_turn g)) m
  /\ (capture_required (current_turn g) = true <-> is_capture m = true).
Proof.
  intros Hst (Hvm & Hreq & _) (Hgen & Hsel & _) Hstep Hin Hcap.
  destruct (Hgen (or_intror Hstep)) as (Evm & _).
  destruct (Hsel Hstep) as (loc & first & rest & Hfind & Etargets & _).
  rewrite Etargets in Hin.
  destruct (generated_entry _ _ _ loc _ Hst Evm Hfind)
    as (Hon & _ & Hshape & cell & p & Ecell & Eocc & Hcolor & Hmem).
  destruct (proj1 (Hmem m) Hin) as (direction & Hdir & Hlegal).
  split; [exists loc, cell, p, direction; auto 10 |].
  split; [exact Hcap |]. intros Hm.
  destruct (captures_then_quiet_head _ m Hshape Hin Hm)
    as (first' & rest' & [= <- <-] & Hfirst).
  destruct (is_capture_required_spec (current_turn g) Hvm) as (b & Eb & Hb).
  rewrite Hreq in Eb. injection Eb as <-. apply Hb.
  exists loc, first, rest. auto.
Qed.

(** A target offered in an extended turn is a legal jump. *)
Lemma jump_target_legal (g : Game) (m : Move) :
  turn_on_board g ->
  step (current_turn g) = CHECK_MULTIPLE_JUMPS ->
  In m (possible_targets (current_turn g)) ->
  legal_move (status g) (player (current_turn g)) m
  /\ (capture_required (current_turn g) = true <-> is_capture m = true).
Proof.
  intros (_ & _ & Hjump & _) Hstep Hin.
  destruct (Hjump Hstep)
    as (Hflag & _ & loc & cell & p & Hon & Ecell & Eocc & Hcolor & Hmem).
  destruct (proj1 (Hmem m) Hin) as (direction & Hdir & -> & Henemy & Hempty).
  split.
  - exists loc, cell, p, direction. repeat split; try assumption.
    right. auto.
  - split; [reflexivity | intros _; exact Hflag].
Qed.

(** [advance_turn] between two events. *)
Lemma advance_turn_inv (g : Game) :
  board_ok (status g) = true ->
  conserved g ->
  Turn_inv (current_turn g) ->
  step (current_turn g) = MOVE_COMPLETE ->
  exists g',
    advance_turn g = Ok g'
    /\ board_ok (status g') = true
    /\ conserved g'
    /\ Turn_inv (current_turn g')
    /\ turn_on_board g'
    /\ (step (current_turn g') = NEW_TURN
        \/ current_turn g' = current_turn g).
Proof.
  intros Hst Hcons Hinv Hstep.
  destruct (advance_turn_cases g Hst)
    as (g' & black & red & E & Eb & Er & Est & Ebs & Ers & _ & _ & _
        & Hred & Hblack & Hkept).
  destruct (valid_moves_for_color_nonempty (status g) BLACK Hst)
    as (b' & Eb' & Hb).
  rewrite Eb in Eb'. injection Eb' as <-.
  destruct (valid_moves_for_color_nonempty (status g) RED Hst)
    as (r' & Er' & Hr).
  rewrite Er in Er'. injection Er' as <-.
  exists g'. split; [exact E |]. split; [rewrite Est; exact Hst |].
  split; [unfold conserved in *; rewrite Est, Ebs, Ers; exact Hcons |].
  assert (Hfresh : forall p vm,
             valid_moves_for_color (status g) p = Ok vm -> vm <> [] ->
             Forall (fun kv => snd kv <> []) vm ->
             fresh_turn p vm (current_turn g') ->
             Turn_inv (current_turn g') /\ turn_on_board g'
             /\ step (current_turn g') = NEW_TURN).
  { intros p vm Evm Hne Hvm (Hp & H0 & Evalid & Etargets & _ & Hreq).
    split; [| split; [| exact H0]].
    - unfold Turn_inv. rewrite Evalid. auto.
    - unfold turn_on_board. rewrite H0, Hp, Evalid, Est.
      split; [intros _; auto |].
      split; [intros H; discriminate H |].
      split; [intros H; discriminate H |].
      unfold NEW_TURN, MOVE_COMPLETE. lia. }
  assert (Hold : current_turn g' = current_turn g ->
                 Turn_inv (current_turn g') /\ turn_on_board g').
  { intros Eturn. split; [rewrite Eturn; exact Hinv |].
    apply turn_on_board_complete. rewrite Eturn. exact Hstep. }
  destruct (player (current_turn g)) eqn:Eplayer.
  - destruct red as [| kr red].
    + destruct black as [| kb black].
      * destruct (Hold (Hkept (or_intror eq_refl) eq_refl)) as [H1 H2].
        split; [exact H1 |]. split; [exact H2 |].
        right. exact (Hkept (or_intror eq_refl) eq_refl).
      * assert (Hne : kb :: black <> []) by discriminate.
        destruct (Hfresh BLACK _ Eb Hne Hb (Hblack (or_intror eq_refl) Hne))
          as (H1 & H2 & H3). auto.
    + assert (Hne : kr :: red <> []) by discriminate.
      destruct (Hfresh RED _ Er Hne Hr (Hred eq_refl Hne)) as (H1 & H2 & H3).
      auto.
  - destruct black as [| kb black].
    + destruct (Hold (Hkept (or_introl eq_refl) eq_refl)) as [H1 H2].
      split; [exact H1 |]. split; [exact H2 |].
      right. exact (Hkept (or_introl eq_refl) eq_refl).
    + assert (Hne : kb :: black <> []) by discriminate.
      destruct (Hfresh BLACK _ Eb Hne Hb (Hblack (or_introl eq_refl) Hne))
        as (H1 & H2 & H3). auto.
Qed.

(** A piece is selected: nothing moves yet. *)
Lemma select_inv (g : Game) (loc : Loc) (first : Move) (rest : list Move) :
  board_ok (status g) = true ->
  Turn_inv (current_turn g) ->
  conserved g ->
  turn_on_board g ->
  step (current_turn g) = NEW_TURN ->
  dict_find (valid_moves (current_turn g)) loc = Some (first :: rest) ->
  (capture_required (current_turn g) = true -> is_capture first = true) ->
  forall g1,
    g1 = set_current_turn g
           (set_possible_targets
              (set_step (current_turn g) VALID_PIECE_SELECTED)
              (first :: rest)) ->
    make_move g1 = Ok g1
    /\ board_ok (status g1) = true
    /\ Turn_inv (current_turn g1)
    /\ conserved g1
    /\ turn_on_board g1
    /\ player (current_turn g1) = player (current_turn g)
    /\ step (current_turn g1) = VALID_PIECE_SELECTED.
Proof.
  intros Hst Hinv Hcons (Hgen & _) Hstep Hfind Hcap g1 ->.
  split; [reflexivity |]. split; [exact Hst |].
  split; [| split; [apply conserved_set_current_turn; exact Hcons |
            split; [| split; reflexivity]]].
  - revert Hinv. apply Turn_inv_update; try reflexivity.
    simpl. intros H. discriminate H.
  - destruct (Hgen (or_introl Hstep)) as (Evm & Hne).
    unfold turn_on_board. simpl.
    split; [intros _; auto |].
    split; [intros _; exists loc, first, rest; auto |].
    split; [intros H; discriminate H |].
    unfold NEW_TURN, VALID_PIECE_SELECTED, MOVE_COMPLETE. lia.
Qed.

(** A target is committed and applied. *)
Lemma commit_inv (g : Game) (m : Move) :
  board_ok (status g) = true ->
  Turn_inv (current_turn g) ->
  conserved g ->
  turn_on_board g ->
  step (current_turn g) <> NEW_TURN ->
  step (current_turn g) <> MOVE_COMPLETE ->
  In m (possible_targets (current_turn g)) ->
  (capture_required (current_turn g) = true -> is_capture m = true) ->
  exists g2,
    make_move (set_current_turn g (finish_piece_move (current_turn g) m))
    = Ok g2
    /\ board_ok (status g2) = true
    /\ Turn_inv (current_turn g2)
    /\ conserved g2
    /\ turn_on_board g2
    /\ player (current_turn g2) = player (current_turn g)
    /\ winner g2 = winner g
    /\ (step (current_turn g2) = MOVE_COMPLETE
        \/ step (current_turn g2) = CHECK_MULTIPLE_JUMPS).
Proof.
  intros Hst Hinv Hcons Hturn H0 H3 Hin Hcap.
  assert (Hlegal : legal_move (status g) (player (current_turn g)) m
                   /\ (capture_required (current_turn g) = true
                       <-> is_capture m = true)).
  { pose proof Hturn as (_ & _ & _ & Hbounds).
    unfold NEW_TURN, MOVE_COMPLETE in *.
    assert (Hstep : step (current_turn g) = VALID_PIECE_SELECTED
                    \/ step (current_turn g) = CHECK_MULTIPLE_JUMPS)
      by (unfold VALID_PIECE_SELECTED, CHECK_MULTIPLE_JUMPS; lia).
    destruct Hstep as [Hstep | Hstep].
    - apply selected_target_legal; assumption.
    - apply jump_target_legal; assumption. }
  destruct Hlegal as [Hlegal Hiff].
  destruct (make_move_committed g m Hst Hcons Hinv Hlegal Hiff)
    as (g2 & E & Hst2 & Hcons2 & Hinv2 & Hturn2 & Hplayer & Hwin & Hstep2).
  exists g2. auto 10.
Qed.

Lemma is_turn_complete_iff (t : Turn) :
  is_turn_complete t = true <-> step t = MOVE_COMPLETE.
Proof. unfold is_turn_complete. apply Z.eqb_eq. Qed.

(** Close the four standing parts of [playing_inv] from the context. *)
Ltac standing_inv :=
  unfold playing_inv; simpl fst; simpl snd;
  split; [assumption |]; split; [assumption |];
  split; [assumption |]; split; [assumption |].

(** A click between two events. *)
Lemma board_click_step (g : Game) (pending : bool) (loc : Loc) :
  playing_inv (g, pending) ->
  exists g' scheduled,
    board_click g loc = Ok (g', scheduled)
    /\ playing_inv (g', pending || scheduled).
Proof.
  intros (Hst & Hinv & Hcons & Hturn & Hpend). simpl in *.
  unfold board_click.
  destruct (player (current_turn g)) eqn:Eplayer; simpl Color_eqb; cbv iota.
  2: { exists g, false. split; [reflexivity |]. rewrite orb_false_r.
       unfold playing_inv. simpl. rewrite Eplayer. auto. }
  assert (pending = false) as ->.
  { destruct pending; [| reflexivity].
    destruct (Hpend eq_refl) as [H _]. discriminate H. }
  simpl orb.
  destruct (is_valid_turn_accepts (current_turn g) loc Hinv)
    as (b & t' & E & Hacc).
  unfold game_is_valid_turn. rewrite E. cbn [bind fst snd].
  destruct b.
  - destruct (proj1 Hacc eq_refl)
      as [(H0 & first & rest & Hfind & Hcap & ->)
         | (H0 & H3 & target & Efind & Hcap & ->)].
    + destruct (select_inv g loc first rest Hst Hinv Hcons Hturn H0 Hfind Hcap
                  _ eq_refl)
        as (Emake & Hst1 & Hinv1 & Hcons1 & Hturn1 & Hplayer1 & Hstep1).
      rewrite Emake. cbn [bind].
      assert (Enot : is_turn_complete
                       (current_turn
                          (set_current_turn g
                             (set_possible_targets
                                (set_step (current_turn g) VALID_PIECE_SELECTED)
                                (first :: rest)))) = false) by reflexivity.
      rewrite Enot. eexists. eexists. split; [reflexivity |].
      standing_inv. intros H. discriminate H.
    + assert (Hin : In target (possible_targets (current_turn g))).
      { pose proof (find_clicked_target_spec (current_turn g) loc) as Hspec.
        rewrite Efind in Hspec. destruct Hspec as (before & after & -> & _).
        apply in_elt. }
      destruct (commit_inv g target Hst Hinv Hcons Hturn H0 H3 Hin Hcap)
        as (g2 & Emake & Hst2 & Hinv2 & Hcons2 & Hturn2 & Hplayer2 & _ & Hstep2).
      rewrite Emake. cbn [bind].
      destruct Hstep2 as [Hstep2 | Hstep2].
      * rewrite (proj2 (is_turn_complete_iff _) Hstep2).
        destruct (advance_turn_inv g2 Hst2 Hcons2 Hinv2 Hstep2)
          as (g3 & Eadv & Hst3 & Hcons3 & Hinv3 & Hturn3 & Hfresh).
        unfold next_player. rewrite Eadv. cbn [bind].
        assert (Hsched : player (current_turn g3) = RED ->
                         step (current_turn g3) <> MOVE_COMPLETE).
        { intros Hred. destruct Hfresh as [-> | Ekept]; [discriminate |].
          rewrite Ekept, Hplayer2, Eplayer in Hred. discriminate Hred. }
        destruct (winner g3).
        -- eexists. eexists. split; [reflexivity |].
           standing_inv. intros H. discriminate H.
        -- eexists. eexists. split; [reflexivity |].
           standing_inv. intros Hred. apply Color_eqb_eq in Hred. auto.
      * assert (Enot : is_turn_complete (current_turn g2) = false)
          by (unfold is_turn_complete; rewrite Hstep2; reflexivity).
        rewrite Enot. eexists. eexists. split; [reflexivity |].
        standing_inv. intros H. discriminate H.
  - apply is_valid_turn_Ok in E.
    destruct E as [[_ ->] | [[H _] | [H _]]]; try discriminate H.
    rewrite set_current_turn_same. exists g, false.
    split; [reflexivity |]. standing_inv. intros H. discriminate H.
Qed.

(** A firing of the timer between two events. *)
Lemma ai_move_step (g : Game) (rnd : Z) :
  playing_inv (g, true) ->
  (step (current_turn g) = NEW_TURN ->
   capture_required (current_turn g) = false ->
   0 <= rnd <= len (valid_moves (current_turn g)) - 1) ->
  exists g' scheduled,
    ai_move g rnd = Ok (g', scheduled) /\ playing_inv (g', scheduled).
Proof.
  intros (Hst & Hinv & Hcons & Hturn & Hpend) Hrnd. simpl in *.
  destruct (Hpend eq_refl) as [Hred H3]. clear Hpend.
  pose proof Hturn as (_ & Hsel & Hjump & Hbounds).
  unfold ai_move, game_choose_ai_cell.
  assert (Hcommit : forall first rest,
             step (current_turn g) <> NEW_TURN ->
             possible_targets (current_turn g) = first :: rest ->
             (capture_required (current_turn g) = true ->
              is_capture first = true) ->
             exists g' scheduled,
               (r <- (r <- choose_ai_cell (current_turn g) rnd ;;
                      Ok (fst r, set_current_turn g (snd r))) ;;
                self <- make_move (snd r) ;;
                (if Color_eqb (player (current_turn self)) RED
                    && negb (is_turn_complete (current_turn self))
                 then Ok (self, true)
                 else self0 <- advance_turn self ;; Ok (self0, false)))
               = Ok (g', scheduled)
               /\ playing_inv (g', scheduled)).
  { intros first rest H0 Etargets Hcap.
    assert (Hstep : step (current_turn g) = VALID_PIECE_SELECTED
                    \/ step (current_turn g) = CHECK_MULTIPLE_JUMPS)
      by (unfold NEW_TURN, MOVE_COMPLETE, VALID_PIECE_SELECTED,
                 CHECK_MULTIPLE_JUMPS in *; lia).
    destruct (choose_ai_cell_commit (current_turn g) rnd first rest
                Hinv Hstep Etargets Hcap) as [Echoose _].
    rewrite Echoose. cbn [bind fst snd].
    assert (Hin : In first (possible_targets (current_turn g)))
      by (rewrite Etargets; left; reflexivity).
    destruct (commit_inv g first Hst Hinv Hcons Hturn H0 H3 Hin Hcap)
      as (g2 & Emake & Hst2 & Hinv2 & Hcons2 & Hturn2 & Hplayer2 & _ & Hstep2).
    rewrite Emake. cbn [bind]. rewrite Hplayer2, Hred. simpl Color_eqb.
    cbn [andb]. destruct Hstep2 as [Hstep2 | Hstep2].
    - rewrite (proj2 (is_turn_complete_iff _) Hstep2). cbn [negb].
      destruct (advance_turn_inv g2 Hst2 Hcons2 Hinv2 Hstep2)
        as (g3 & Eadv & Hst3 & Hcons3 & Hinv3 & Hturn3 & _).
      rewrite Eadv. cbn [bind]. eexists. eexists. split; [reflexivity |].
      standing_inv. intros H. discriminate H.
    - assert (Enot : is_turn_complete (current_turn g2) = false)
        by (unfold is_turn_complete; rewrite Hstep2; reflexivity).
      rewrite Enot. cbn [negb]. eexists. eexists. split; [reflexivity |].
      standing_inv. intros _. split; [congruence |].
      rewrite Hstep2. discriminate. }
  assert (Hcases : step (current_turn g) = NEW_TURN
                   \/ step (current_turn g) = VALID_PIECE_SELECTED
                   \/ step (current_turn g) = CHECK_MULTIPLE_JUMPS)
    by (unfold NEW_TURN, MOVE_COMPLETE, VALID_PIECE_SELECTED,
               CHECK_MULTIPLE_JUMPS in *; lia).
  destruct Hcases as [H0 | [H1 | H2]].
  - assert (Hrange : capture_required (current_turn g) = false ->
                     0 <= rnd < len (valid_moves (current_turn g)))
      by (intros Hflag; specialize (Hrnd H0 Hflag); lia).
    destruct (choose_ai_cell_select (current_turn g) rnd Hinv H0 Hrange)
      as (loc & first & rest & t' & Echoose & Hfind & Hcap & _ & _ & Evalid).
    rewrite (is_valid_turn_select _ loc first rest Hinv H0 Hfind Hcap)
      in Evalid.
    injection Evalid as <-. rewrite H0 in Echoose.
    change (NEW_TURN + 1) with VALID_PIECE_SELECTED in Echoose.
    rewrite Echoose. cbn [bind fst snd].
    destruct (select_inv g loc first rest Hst Hinv Hcons Hturn H0 Hfind Hcap
                _ eq_refl)
      as (Emake & Hst1 & Hinv1 & Hcons1 & Hturn1 & Hplayer1 & Hstep1).
    rewrite Emake. cbn [bind]. rewrite Hplayer1, Hred. simpl Color_eqb.
    assert (Enot : is_turn_complete
                     (current_turn
                        (set_current_turn g
                           (set_possible_targets
                              (set_step (current_turn g) VALID_PIECE_SELECTED)
                              (first :: rest)))) = false) by reflexivity.
    rewrite Enot. cbn [andb negb]. eexists. eexists.
    split; [reflexivity |]. standing_inv. intros _.
    split; [congruence | rewrite Hstep1; discriminate].
  - destruct (Hsel H1) as (loc & first & rest & _ & Etargets & Hcap).
    apply (Hcommit first rest);
      [rewrite H1; discriminate | exact Etargets | exact Hcap].
  - destruct (Hjump H2) as (Hflag & Hne & _).
    destruct (possible_targets (current_turn g)) as [| first rest] eqn:Etargets;
      [contradiction |].
    apply (Hcommit first rest); [rewrite H2; discriminate | reflexivity |].
    intros _.
    assert (Hin : In first (possible_targets (current_turn g)))
      by (rewrite Etargets; left; reflexivity).
    destruct (jump_target_legal g first Hturn H2 Hin) as [_ Hiff].
    apply Hiff. exact Hflag.
Qed.

Lemma start_game_inv : playing_inv (start_game, false).
Proof.
  unfold playing_inv. simpl fst. simpl snd.
  split; [vm_compute; reflexivity |].
  split; [| split; [| split]].
  - unfold Turn_inv. split; [| split].
    + vm_compute. repeat (apply Forall_cons; [discriminate |]).
      apply Forall_nil.
    + vm_compute. reflexivity.
    + intros _. vm_compute. reflexivity.
  - unfold conserved. split; vm_compute; reflexivity.
  - unfold turn_on_board.
    split; [intros _; split; [vm_compute; reflexivity |
                              vm_compute; discriminate] |].
    split; [vm_compute; intros H; discriminate H |].
    split; [vm_compute; intros H; discriminate H |].
    vm_compute. split; intros H; discriminate H.
  - intros H. discriminate H.
Qed.

(** The invariant holds between any two events of a run. *)
Lemma playing_invariant (s : Game * bool) : playing s -> playing_inv s.
Proof.
  induction 1 as [self E
                 | self self' pending scheduled location _ IH Eclick
                 | self self' scheduled rnd _ IH Hrnd Eai].
  - assert (self = start_game) as ->
      by (unfold start_game; rewrite E; reflexivity).
    exact start_game_inv.
  - destruct (board_click_step self pending location IH)
      as (g' & sched & E & Hinv).
    rewrite Eclick in E. injection E as <- <-. exact Hinv.
  - destruct (ai_move_step self rnd IH (fun _ _ => Hrnd))
      as (g' & sched & E & Hinv).
    rewrite Eai in E. injection E as <- <-. exact Hinv.
Qed.

Lemma opening_played_playing : playing opening_played.
Proof.
  assert (E1 : board_click start_game (2, 1) = Ok (selected_game, false))
    by (vm_compute; reflexivity).
  assert (E2 : board_click selected_game (3, 0) = Ok opening_played)
    by (vm_compute; reflexivity).
  assert (E3 : opening_played = (fst opening_played, true))
    by (vm_compute; reflexivity).
  rewrite E3 in E2 |- *.
  apply (playing_click selected_game (fst opening_played) false true (3, 0));
    [| exact E2].
  apply (playing_click start_game selected_game false false (2, 1));
    [| exact E1].
  apply playing_start. vm_compute. reflexivity.
Defined.

(** X14.  Along every run of the program the grid keeps its 8x8
    layout and the scores account for the pieces: BLACK's score plus
    the number of RED pieces on the board is 12, and RED's score plus
    the number of BLACK pieces is 12. *)
Theorem playing_scores_account (s : Game * bool) :
  playing s ->
  board_ok (status (fst s)) = true
  /\ black_score (fst s) + count_color (status (fst s)) RED = 12
  /\ red_score (fst s) + count_color (status (fst s)) BLACK = 12.
Proof.
  intros H. destruct (playing_invariant s H) as (Hst & _ & Hcons & _).
  split; [exact Hst | exact Hcons].
Qed.

Lemma playing_scores_account_witness :
  playing opening_played
  /\ board_ok (status (fst opening_played)) = true
  /\ black_score (fst opening_played)
     + count_color (status (fst opening_played)) RED = 12
  /\ red_score (fst opening_played)
     + count_color (status (fst opening_played)) BLACK = 12.
Proof.
  split; [exact opening_played_playing |].
  exact (playing_scores_account opening_played opening_played_playing).
Defined.

(** X15.  Along every run of the program no handler raises.  In every
    state between two events [board_click] returns for every location;
    a timer for [ai_move] is pending only in a turn of RED that is not
    complete and, at NEW_TURN, has a move to choose from, and [ai_move]
    then returns for every draw the random choice can make. *)
Theorem playing_never_raises (s : Game * bool) :
  playing s ->
  (forall location, exists r, board_click (fst s) location = Ok r)
  /\ (snd s = true ->
      player (current_turn (fst s)) = RED
      /\ step (current_turn (fst s)) <> MOVE_COMPLETE
      /\ (step (current_turn (fst s)) = NEW_TURN ->
          valid_moves (current_turn (fst s)) <> [])
      /\ forall rnd,
           (step (current_turn (fst s)) = NEW_TURN ->
            capture_required (current_turn (fst s)) = false ->
            0 <= rnd <= len (valid_moves (current_turn (fst s))) - 1) ->
           exists r, ai_move (fst s) rnd = Ok r).
Proof.
  intros H. pose proof (playing_invariant s H) as Hinv.
  destruct s as [g pending]. simpl fst. simpl snd. split.
  - intros location.
    destruct (board_click_step g pending location Hinv) as (g' & sched & E & _).
    eauto.
  - intros ->. pose proof Hinv as (_ & _ & _ & (Hgen & _) & Hpend).
    simpl in Hgen, Hpend. destruct (Hpend eq_refl) as [Hred H3].
    split; [exact Hred |]. split; [exact H3 |].
    split; [intros H0; exact (proj2 (Hgen (or_introl H0))) |].
    intros rnd Hrnd.
    destruct (ai_move_step g rnd Hinv Hrnd) as (g' & sched & E & _). eauto.
Qed.

Lemma playing_never_raises_witness :
  playing opening_played
  /\ (forall location,
         exists r, board_click (fst opening_played) location = Ok r)
  /\ (snd opening_played = true ->
      player (current_turn (fst opening_played)) = RED
      /\ step (current_turn (fst opening_played)) <> MOVE_COMPLETE
      /\ (step (current_turn (fst opening_played)) = NEW_TURN ->
          valid_moves (current_turn (fst opening_played)) <> [])
      /\ forall rnd,
           (step (current_turn (fst opening_played)) = NEW_TURN ->
            capture_required (current_turn (fst opening_played)) = false ->
            0 <= rnd
            <= len (valid_moves (current_turn (fst opening_played))) - 1) ->
           exists r, ai_move (fst opening_played) rnd = Ok r).
Proof.
  split; [exact opening_played_playing |].
  exact (playing_never_raises opening_played opening_played_playing).
Defined.

(** X16.  Along every run of the program the current turn agrees with
    the current board.  While the turn waits for a piece or for a
    target of the selected piece, its [valid_moves] are what
    [valid_moves_for_color] returns for its player on the board as it is
    now, and the targets of a selected piece are the moves of one key,
    starting with a capture under forced capture; in an extended turn
    the targets are exactly the legal jumps of one piece of the player
    on the board as it is now, and there is at least one. *)
Theorem playing_turn_on_board (s : Game * bool) :
  playing s -> Turn_inv (current_turn (fst s)) /\ turn_on_board (fst s).
Proof.
  intros H. destruct (playing_invariant s H) as (_ & Hinv & _ & Hturn & _).
  split; assumption.
Qed.

Lemma playing_turn_on_board_witness :
  playing opening_played
  /\ Turn_inv (current_turn (fst opening_played))
  /\ turn_on_board (fst opening_played).
Proof.
  split; [exact opening_played_playing |].
  exact (playing_turn_on_board opening_played opening_played_playing).
Defined.

(** ** The winner along a run *)

Lemma update_state_winner (self self' : Game) (move : Move) :
  update_state self move = Ok self' -> winner self' = winner self.
Proof.
  unfold update_state. intros H. do 6 unbind H.
  destruct (capturing move) as [captured |].
  - destruct (Color_eqb (player (current_turn (set_status self v4))) BLACK);
      unbind H; injection H as <-; reflexivity.
  - injection H as <-. reflexivity.
Qed.

Lemma get_additional_jump_winner (self self' : Game) (start_cell : Cell)
      (piece_color : Color) (jumps : list Move) :
  get_additional_jump self start_cell piece_color = Ok (jumps, self') ->
  winner self' = winner self.
Proof.
  unfold get_additional_jump. intros H. do 2 unbind H.
  destruct (len v0 =? 0); injection H as _ <-; reflexivity.
Qed.

Lemma make_move_winner (self self' : Game) :
  make_move self = Ok self' -> winner self' = winner self.
Proof.
  unfold make_move.
  destruct (step (current_turn self) =? VALID_PIECE_SELECTED).
  - intros H. injection H as <-. reflexivity.
  - destruct (final_move (current_turn self)) as [move |];
      [| intros H; discriminate H].
    intros H. unbind H. apply update_state_winner in E. do 2 unbind H.
    destruct (is_capture move).
    + do 2 unbind H. destruct v3 as [jumps g]. simpl in H.
      apply get_additional_jump_winner in E3.
      destruct (len jumps >? 0); injection H as <-; simpl; congruence.
    + injection H as <-. exact E.
Qed.

(** A click schedules the reply only after [next_player] has seen that
    no winner is set. *)
Lemma board_click_scheduled (self self' : Game) (location : Loc) :
  board_click self location = Ok (self', true) -> winner self' = None.
Proof.
  unfold board_click.
  destruct (Color_eqb (player (current_turn self)) BLACK);
    [| intros H; discriminate H].
  intros H. apply bind_Ok in H. destruct H as (r & _ & H).
  destruct (fst r); [| discriminate H].
  apply bind_Ok in H. destruct H as (g & _ & H).
  destruct (is_turn_complete (current_turn g)); [| discriminate H].
  unfold next_player in H. apply bind_Ok in H. destruct H as (g' & _ & H).
  destruct (winner g') eqn:Ewinner; [discriminate H |].
  injection H as <- _. exact Ewinner.
Qed.

(** [ai_move] schedules itself again without a call of [advance_turn]. *)
Lemma ai_move_scheduled (self self' : Game) (rnd : Z) :
  ai_move self rnd = Ok (self', true) -> winner self' = winner self.
Proof.
  unfold ai_move. intros H.
  apply bind_Ok in H. destruct H as (r & Er & H).
  unfold game_choose_ai_cell in Er.
  apply bind_Ok in Er. destruct Er as (c & _ & Er). injection Er as <-.
  apply bind_Ok in H. destruct H as (g & Eg & H).
  apply make_move_winner in Eg. simpl in Eg.
  destruct (Color_eqb (player (current_turn g)) RED
            && negb (is_turn_complete (current_turn g))).
  - injection H as <-. exact Eg.
  - apply bind_Ok in H. destruct H as (g' & _ & H). discriminate H.
Qed.

Lemma board_click_ignored (g : Game) (location : Loc) :
  player (current_turn g) = RED -> board_click g location = Ok (g, false).
Proof. intros H. unfold board_click. rewrite H. reflexivity. Qed.

Lemma playing_pending (s : Game * bool) :
  playing s -> snd s = true -> winner (fst s) = None.
Proof.
  induction 1 as [self E | self self' pending scheduled location Hplay IH Eclick
                 | self self' scheduled rnd Hplay IH Hrnd Eai];
    simpl fst in *; simpl snd in *; intros Hpending.
  - discriminate Hpending.
  - destruct pending.
    + destruct (playing_invariant _ Hplay) as (_ & _ & _ & _ & Hred).
      destruct (Hred eq_refl) as [Hred' _]. simpl in Hred'.
      rewrite (board_click_ignored self location Hred') in Eclick.
      injection Eclick as <- _. exact (IH eq_refl).
    + simpl in Hpending. subst scheduled.
      exact (board_click_scheduled _ _ _ Eclick).
  - subst scheduled. rewrite (ai_move_scheduled _ _ _ Eai). exact (IH eq_refl).
Qed.

(** X17.  Along every run of the program, while a call of [ai_move] is
    scheduled no winner has been set, and a click changes nothing:
    [board_click] returns the game as it is and schedules no further
    call. *)
Theorem playing_pending_reply (s : Game * bool) :
  playing s ->
  snd s = true ->
  winner (fst s) = None
  /\ forall location, board_click (fst s) location = Ok (fst s, false).
Proof.
  intros Hplay Hpending. split.
  - exact (playing_pending s Hplay Hpending).
  - intros location. apply board_click_ignored.
    destruct (playing_invariant s Hplay) as (_ & _ & _ & _ & Hred).
    exact (proj1 (Hred Hpending)).
Qed.

Lemma playing_pending_reply_witness :
  playing opening_played
  /\ snd opening_played = true
  /\ winner (fst opening_played) = None
  /\ forall location,
       board_click (fst opening_played) location
       = Ok (fst opening_played, false).
Proof.
  assert (E : snd opening_played = true) by (vm_compute; reflexivity).
  split; [exact opening_played_playing |]. split; [exact E |].
  exact (playing_pending_reply opening_played opening_played_playing E).
Defined.
